(** * Grammar table generator: a shallow embedding of
      [utils/generate_grammar_tables.py] and the properties of its tables.

    The Python script turns a parsed SPIR-V JSON grammar into the text of
    C tables.  Python values are embedded as follows:
    - [str] is [string] (the grammar files are ASCII);
    - [int] is [Z];
    - a JSON object is a record with one [option] field for each key that
      the script reads, [None] standing for an absent key: [dict.get]
      gives the field or its default, a subscript gives the field or
      raises [KeyError];
    - a raised exception is the [Raise] branch of [result];
    - the files written by [main] are a [gmap] from path to content.

    The file has three parts: the embedding of the script, function by
    function; the vocabulary in which the properties are stated, with
    the examples; the properties and their proofs. *)

From Stdlib Require Import ZArith Ascii String List Permutation Sorted Lia.
From stdpp Require Import base decidable option list strings pretty gmap sorting.

Local Open Scope Z_scope.
Local Open Scope stdpp_scope.

(** ** Exceptions *)

Inductive exn : Set :=
| AssertionError | KeyError | TypeError | ValueError | IndexError | SystemExit.

Inductive result (A : Type) : Type :=
| Ok (a : A)
| Raise (e : exn).
Arguments Ok {A} a.
Arguments Raise {A} e.

#[export] Instance exn_eq_dec : EqDecision exn.
Proof. solve_decision. Defined.
#[export] Instance result_eq_dec {A} `{EqDecision A} : EqDecision (result A).
Proof. solve_decision. Defined.

#[export] Instance result_bind : MBind result := fun A B k m =>
  match m with
  | Ok a => k a
  | Raise e => Raise e
  end.
#[export] Instance result_ret : MRet result := fun A a => Ok a.
#[export] Instance result_fmap : FMap result := fun A B f m =>
  match m with
  | Ok a => Ok (f a)
  | Raise e => Raise e
  end.

(** A list comprehension whose body may raise: elements are evaluated from
    left to right and the first exception escapes. *)
Fixpoint rmap {A B} (f : A -> result B) (l : list A) : result (list B) :=
  match l with
  | [] => Ok []
  | x :: l' => y ← f x; ys ← rmap f l'; Ok (y :: ys)
  end.

Definition is_ok {A} (r : result A) : bool :=
  match r with Ok _ => true | Raise _ => false end.

(** [d[k]] on a JSON object: [KeyError] when the key is absent. *)
Definition subscript {A} (o : option A) : result A :=
  match o with Some a => Ok a | None => Raise KeyError end.

(** [assert c]. *)
Definition assert (c : bool) : result unit :=
  if c then Ok tt else Raise AssertionError.

(** ** Strings *)

Definition dquote : string := String "034"%char EmptyString.
Definition nl : string := String "010"%char EmptyString.

(** [sep.join(l)]. *)
Definition join (sep : string) (l : list string) : string := String.concat sep l.

(** [s.replace(a, b)] for single characters [a] and [b]. *)
Fixpoint replace_char (a b : ascii) (s : string) : string :=
  match s with
  | EmptyString => EmptyString
  | String c s' => String (if Ascii.eqb c a then b else c) (replace_char a b s')
  end.

Definition is_lower (c : ascii) : bool :=
  (97 <=? nat_of_ascii c)%nat && (nat_of_ascii c <=? 122)%nat.
Definition is_upper (c : ascii) : bool :=
  (65 <=? nat_of_ascii c)%nat && (nat_of_ascii c <=? 90)%nat.
Definition upper_char (c : ascii) : ascii :=
  if is_lower c then ascii_of_nat (nat_of_ascii c - 32) else c.

(** [s.upper()]. *)
Fixpoint upper (s : string) : string :=
  match s with
  | EmptyString => EmptyString
  | String c s' => String (upper_char c) (upper s')
  end.

(** [re.sub(r'([a-z])([A-Z])', r'\1_\2', s)]: matches are found from left
    to right and do not overlap; the scan resumes after the upper-case
    letter of a match. *)
Fixpoint camel_to_snake (s : string) : string :=
  match s with
  | EmptyString => EmptyString
  | String c1 s1 =>
      match s1 with
      | EmptyString => String c1 EmptyString
      | String c2 s2 =>
          if is_lower c1 && is_upper c2
          then String c1 (String "_"%char (String c2 (camel_to_snake s2)))
          else String c1 (camel_to_snake s1)
      end
  end.

(** [s.startswith(p)]. *)
Definition startswith (p s : string) : bool := String.prefix p s.

(** [s[n:]]. *)
Fixpoint drop_chars (n : nat) (s : string) : string :=
  match n, s with
  | O, _ => s
  | S n', EmptyString => EmptyString
  | S n', String _ s' => drop_chars n' s'
  end.

(** [str(n)] for an [int]. *)
Definition str_int (n : Z) : string := pretty n.

(** [str(o)] for an optional string: an absent value prints as [None]. *)
Definition str_opt (o : option string) : string :=
  match o with Some s => s | None => "None" end.
Definition str_opt_int (o : option Z) : string :=
  match o with Some n => str_int n | None => "None" end.

(** ** Comparison of keys

    Python compares [int]s numerically, [str]s by code point, and tuples
    and lists lexicographically. *)

Class PyLe (K : Type) := py_leb : K -> K -> bool.

#[export] Instance Z_PyLe : PyLe Z := Z.leb.
#[export] Instance string_PyLe : PyLe string := String.leb.

(** Tuples of two components. *)
#[export] Instance pair_PyLe `{PyLe K1, EqDecision K1, PyLe K2} : PyLe (K1 * K2) :=
  fun a b => if decide (a.1 = b.1) then py_leb a.2 b.2 else py_leb a.1 b.1.

(** Tuples of any length, and lists. *)
Fixpoint list_leb `{PyLe K, EqDecision K} (a b : list K) : bool :=
  match a, b with
  | [], _ => true
  | _ :: _, [] => false
  | x :: a', y :: b' =>
      if decide (x = y) then list_leb a' b' else py_leb x y
  end.
#[export] Instance list_PyLe `{PyLe K, EqDecision K} : PyLe (list K) := list_leb.

(** ** [sorted]

    [sorted(l, key=f)] computes the key of every element first, then sorts
    stably.  The stable sort is written as an insertion sort that puts an
    element before the elements of equal key that followed it in the
    input; [sorted_by_unique] below shows that every stable sort returns
    this list. *)

Fixpoint insert_by {A K} `{PyLe K} (key : A -> K) (x : A) (l : list A) : list A :=
  match l with
  | [] => [x]
  | y :: l' =>
      if py_leb (key x) (key y) then x :: l else y :: insert_by key x l'
  end.

Fixpoint sorted_by {A K} `{PyLe K} (key : A -> K) (l : list A) : list A :=
  match l with
  | [] => []
  | x :: l' => insert_by key x (sorted_by key l')
  end.

(** The key function may raise; it is called on every element, in order,
    before any comparison. *)
Definition sorted_key {A K} `{PyLe K} (key : A -> result K) (l : list A) :
  result (list A) :=
  keys ← rmap key l;
  Ok (map snd (sorted_by fst (zip keys l))).

(** [sorted(set(l))]: the iteration order of the set is not specified;
    [remove_dups] picks one, and [sorted_set_perm] shows that the choice
    does not matter. *)
Definition sorted_set `{PyLe K, EqDecision K} (l : list K) : list K :=
  sorted_by id (remove_dups l).

(** Insertion-ordered dictionaries, for the places where the order of
    [dict.values()] is observed. *)
Section Dict.
Context {K V : Type} `{EqDecision K}.

Fixpoint dict_get (k : K) (d : list (K * V)) : option V :=
  match d with
  | [] => None
  | (k', v) :: d' => if decide (k = k') then Some v else dict_get k d'
  end.

Fixpoint dict_set (k : K) (v : V) (d : list (K * V)) : list (K * V) :=
  match d with
  | [] => [(k, v)]
  | (k', v') :: d' =>
      if decide (k = k') then (k, v) :: d' else (k', v') :: dict_set k v d'
  end.

Definition dict_values (d : list (K * V)) : list V := map snd d.
End Dict.

(** ** The grammar model (the parsed JSON documents) *)

(** An operand of an instruction.  The script subscripts [kind]: an
    operand without it raises [KeyError] where it is read. *)
Record Operand : Type := {
  o_kind : option string;
  o_quantifier : option string;
}.

(** A parameter of an enumerant; its kind is read with [get]. *)
Record Param : Type := { p_kind : option string }.

(** The value of an enumerant: a JSON number (value enumerations) or a
    JSON string holding a hexadecimal number (bit enumerations). *)
Inductive Value : Type :=
| VInt (n : Z)
| VStr (s : string).

#[export] Instance Value_eq_dec : EqDecision Value.
Proof. solve_decision. Defined.

(** An instruction.  The sort keys subscript [opcode] and [opname];
    [generate_instruction] reads both with [get]. *)
Record Instruction : Type := {
  i_opname : option string;
  i_opcode : option Z;
  i_capabilities : option (list string);
  i_extensions : option (list string);
  i_operands : option (list Operand);
  i_version : option string;
  i_lastVersion : option string;
}.

Record Enumerant : Type := {
  e_enumerant : option string;
  e_value : option Value;
  e_capabilities : option (list string);
  e_extensions : option (list string);
  e_parameters : option (list Param);
  e_version : option string;
  e_lastVersion : option string;
}.

Record OperandKind : Type := {
  k_kind : option string;
  k_category : option string;
  k_enumerants : option (list Enumerant);
}.

Record Grammar : Type := {
  g_instructions : option (list Instruction);
  g_operand_kinds : option (list OperandKind);
}.

(** [d.get(key, [])]. *)
Definition get_list {A} (o : option (list A)) : list A := default [] o.

(** [str(v)] for the value of an enumerant. *)
Definition str_value (v : Value) : string :=
  match v with VInt n => str_int n | VStr s => s end.
Definition str_opt_value (v : option Value) : string :=
  match v with Some v => str_value v | None => "None" end.

(** ** Constants *)

Definition PYGEN_VARIABLE_PREFIX : string := "pygen_variable".

Definition EXTENSIONS_FROM_SPIRV_REGISTRY_AND_NOT_FROM_GRAMMARS : string :=
  nl +:+ "SPV_AMD_gcn_shader" +:+ nl
     +:+ "SPV_AMD_gpu_shader_half_float" +:+ nl
     +:+ "SPV_AMD_gpu_shader_int16" +:+ nl
     +:+ "SPV_AMD_shader_trinary_minmax" +:+ nl
     +:+ "SPV_KHR_non_semantic_info" +:+ nl.

(** [s.split()]. *)
Definition split (s : string) : list string := String.words s.

(** ** Version words *)

Definition convert_min_required_version (version : option string) : string :=
  match version with
  | None => "SPV_SPIRV_VERSION_WORD(1, 0)"
  | Some v =>
      if decide (v = "None") then "0xffffffffu"
      else "SPV_SPIRV_VERSION_WORD(" +:+ replace_char "." "," v +:+ ")"
  end.

Definition convert_max_required_version (version : option string) : string :=
  match version with
  | None => "0xffffffffu"
  | Some v => "SPV_SPIRV_VERSION_WORD(" +:+ replace_char "." "," v +:+ ")"
  end.

(** ** Capability and extension arrays *)

Definition compose_capability_list (caps : list string) : string :=
  "{" +:+ join ", " (map (fun c => "SpvCapability" +:+ c) caps) +:+ "}".

Definition get_capability_array_name (caps : list string) : string :=
  match caps with
  | [] => "nullptr"
  | _ => PYGEN_VARIABLE_PREFIX +:+ "_caps_" +:+ join EmptyString caps
  end.

Definition nonempty {A} (l : list A) : bool :=
  match l with [] => false | _ => true end.

(** The tuples for which an array is declared, in the order of the
    declarations. *)
Definition pooled (seqs : list (list string)) : list (list string) :=
  sorted_set (List.filter nonempty seqs).

Definition capability_array (c : list string) : string :=
  "static const SpvCapability " +:+ get_capability_array_name c
    +:+ "[] = " +:+ compose_capability_list c +:+ ";".

Definition generate_capability_arrays (caps : list (list string)) : string :=
  let caps := pooled caps in
  let arrays := map capability_array caps in
  join nl arrays.

Definition compose_extension_list (exts : list string) : string :=
  "{" +:+ join ", " (map (fun e => "spvtools::Extension::k" +:+ e) exts) +:+ "}".

Definition get_extension_array_name (extensions : list string) : string :=
  match extensions with
  | [] => "nullptr"
  | _ => PYGEN_VARIABLE_PREFIX +:+ "_exts_" +:+ join EmptyString extensions
  end.

Definition extension_array (e : list string) : string :=
  "static const spvtools::Extension " +:+ get_extension_array_name e
    +:+ "[] = " +:+ compose_extension_list e +:+ ";".

Definition generate_extension_arrays (extensions : list (list string)) : string :=
  let extensions := pooled extensions in
  let arrays := map extension_array extensions in
  join nl arrays.

(** ** Operand kinds *)

(** The first [if]/[elif] chain of [convert_operand_kind]. *)
Definition rename_kind (kind : string) : string :=
  if decide (kind = "IdResultType") then "TypeId"
  else if decide (kind = "IdResult") then "ResultId"
  else if decide (kind = "IdMemorySemantics" \/ kind = "MemorySemantics")
       then "MemorySemanticsId"
  else if decide (kind = "IdScope" \/ kind = "Scope") then "ScopeId"
  else if decide (kind = "IdRef") then "Id"
  else if decide (kind = "ImageOperands") then "Image"
  else if decide (kind = "Dim") then "Dimensionality"
  else if decide (kind = "ImageFormat") then "SamplerImageFormat"
  else if decide (kind = "KernelEnqueueFlags") then "KernelEnqFlags"
  else if decide (kind = "LiteralExtInstInteger")
       then "ExtensionInstructionNumber"
  else if decide (kind = "LiteralSpecConstantOpInteger")
       then "SpecConstantOpNumber"
  else if decide (kind = "LiteralContextDependentNumber")
       then "TypedLiteralNumber"
  else if decide (kind = "PairLiteralIntegerIdRef") then "LiteralIntegerId"
  else if decide (kind = "PairIdRefLiteralInteger") then "IdLiteralInteger"
  else if decide (kind = "PairIdRefIdRef") then "Id"
  else kind.

(** The second chain. *)
Definition rename_fp (kind : string) : string :=
  if decide (kind = "FPRoundingMode") then "FpRoundingMode"
  else if decide (kind = "FPFastMathMode") then "FpFastMathMode"
  else kind.

Definition quantify (quantifier kind : string) : string :=
  if decide (quantifier = "?") then "Optional" +:+ kind
  else if decide (quantifier = "*") then "Variable" +:+ kind
  else kind.

Definition convert_operand_kind (operand_tuple : string * string) : string :=
  let '(kind, quantifier) := operand_tuple in
  let kind := rename_kind kind in
  let kind := rename_fp kind in
  let kind := quantify quantifier kind in
  "SPV_OPERAND_TYPE_" +:+ upper (camel_to_snake kind).

(** ** Instruction descriptors *)

Record InstInitializer : Type := {
  ii_opname : string;
  ii_num_caps : nat;
  ii_caps_mask : string;
  ii_num_exts : nat;
  ii_exts : string;
  ii_operands : list string;
  ii_ref_type_id : bool;
  ii_def_result_id : bool;
  ii_version : string;
  ii_lastVersion : string;
}.

(** [l[-1]]. *)
Definition last_item {A} (l : list A) : result A :=
  match last l with Some x => Ok x | None => Raise IndexError end.

(** [fix_syntax] reads [self.opname] and updates [self.operands]; the
    other attributes are not yet set when it runs. *)
Definition fix_syntax (opname : string) (operands : list string) :
  result (list string) :=
  if decide (opname = "ExtInst") then
    o ← last_item operands;
    if decide (o = "SPV_OPERAND_TYPE_VARIABLE_ID")
    then Ok (removelast operands)
    else Ok operands
  else Ok operands.

Definition InstInitializer_init (opname : string) (caps exts : list string)
    (operands : list (string * string)) (version lastVersion : option string) :
  result InstInitializer :=
  _ ← assert (startswith "Op" opname);
  let self_opname := drop_chars 2 opname in
  let self_operands := map convert_operand_kind operands in
  self_operands ← fix_syntax self_opname self_operands;
  let operands := map fst operands in
  Ok {| ii_opname := self_opname;
        ii_num_caps := length caps;
        ii_caps_mask := get_capability_array_name caps;
        ii_num_exts := length exts;
        ii_exts := get_extension_array_name exts;
        ii_operands := self_operands;
        ii_ref_type_id := bool_decide ("IdResultType" ∈ operands);
        ii_def_result_id := bool_decide ("IdResult" ∈ operands);
        ii_version := convert_min_required_version version;
        ii_lastVersion := convert_max_required_version lastVersion |}.

Definition str_nat (n : nat) : string := pretty (Z.of_nat n).
Definition str_flag (b : bool) : string := if b then "1" else "0".

Definition InstInitializer_str (self : InstInitializer) : string :=
  join ", " [
    "{" +:+ dquote +:+ ii_opname self +:+ dquote;
    "SpvOp" +:+ ii_opname self;
    str_nat (ii_num_caps self);
    ii_caps_mask self;
    str_nat (length (ii_operands self));
    "{" +:+ join ", " (ii_operands self) +:+ "}";
    str_flag (ii_def_result_id self);
    str_flag (ii_ref_type_id self);
    str_nat (ii_num_exts self);
    ii_exts self;
    ii_version self;
    ii_lastVersion self +:+ "}" ].

Record ExtInstInitializer : Type := {
  xi_opname : string;
  xi_opcode : option Z;
  xi_num_caps : nat;
  xi_caps_mask : string;
  xi_operands : list string;
}.

Definition ExtInstInitializer_init (opname : string) (opcode : option Z)
    (caps : list string) (operands : list (string * string)) :
  ExtInstInitializer :=
  {| xi_opname := opname;
     xi_opcode := opcode;
     xi_num_caps := length caps;
     xi_caps_mask := get_capability_array_name caps;
     xi_operands := map convert_operand_kind operands ++ ["SPV_OPERAND_TYPE_NONE"] |}.

Definition ExtInstInitializer_str (self : ExtInstInitializer) : string :=
  join ", " [
    "{" +:+ dquote +:+ xi_opname self +:+ dquote;
    str_opt_int (xi_opcode self);
    str_nat (xi_num_caps self);
    xi_caps_mask self;
    "{" +:+ join ", " (xi_operands self) +:+ "}}" ].

(** [(o['kind'], o.get('quantifier', ''))]. *)
Definition operand_tuple (o : Operand) : result (string * string) :=
  kind ← subscript (o_kind o);
  Ok (kind, default EmptyString (o_quantifier o)).

Definition generate_instruction (inst : Instruction) (is_ext_inst : bool) :
  result string :=
  let opname := i_opname inst in
  let opcode := i_opcode inst in
  let caps := get_list (i_capabilities inst) in
  let exts := get_list (i_extensions inst) in
  let operands := get_list (i_operands inst) in
  operands ← rmap operand_tuple operands;
  let min_version := i_version inst in
  let max_version := i_lastVersion inst in
  match opname with
  | None => Raise AssertionError
  | Some opname =>
      if is_ext_inst then
        Ok (ExtInstInitializer_str
              (ExtInstInitializer_init opname opcode caps operands))
      else
        InstInitializer_str <$>
          InstInitializer_init opname caps exts operands min_version max_version
  end.

Definition instruction_key (k : Instruction) : result (Z * string) :=
  opcode ← subscript (i_opcode k);
  opname ← subscript (i_opname k);
  Ok (opcode, opname).

Definition opcode_table (insts : list string) : string :=
  "static const spv_opcode_desc_t kOpcodeTableEntries[] = {" +:+ nl
    +:+ "  " +:+ join ("," +:+ nl +:+ "  ") insts +:+ nl +:+ "};".

Definition generate_instruction_table (inst_table : list Instruction) :
  result string :=
  inst_table ← sorted_key instruction_key inst_table;
  let caps_arrays :=
    generate_capability_arrays
      (map (fun inst => get_list (i_capabilities inst)) inst_table) in
  let exts_arrays :=
    generate_extension_arrays
      (map (fun inst => get_list (i_extensions inst)) inst_table) in
  insts ← rmap (fun inst => generate_instruction inst false) inst_table;
  let insts := [opcode_table insts] in
  Ok (caps_arrays +:+ nl +:+ nl +:+ exts_arrays +:+ nl +:+ nl +:+ join nl insts).

(** ** Prefixing operand kind names *)

(** A loop whose body may raise, threading its state. *)
Fixpoint rfold {A S} (f : S -> A -> result S) (l : list A) (s : S) : result S :=
  match l with
  | [] => Ok s
  | x :: l' => s' ← f s x; rfold f l' s'
  end.

Definition set_kind (k : OperandKind) (name : string) : OperandKind :=
  {| k_kind := Some name;
     k_category := k_category k;
     k_enumerants := k_enumerants k |}.

Definition set_operands (i : Instruction) (ops : option (list Operand)) :
  Instruction :=
  {| i_opname := i_opname i;
     i_opcode := i_opcode i;
     i_capabilities := i_capabilities i;
     i_extensions := i_extensions i;
     i_operands := ops;
     i_version := i_version i;
     i_lastVersion := i_lastVersion i |}.

Definition prefix_operand_kind_names (prefix : string) (json_dict : Grammar) :
  result Grammar :=
  operand_kinds ← subscript (g_operand_kinds json_dict);
  '(kinds, old_to_new) ←
    rfold (fun '(kinds, old_to_new) operand_kind =>
             old_name ← subscript (k_kind operand_kind);
             let new_name := prefix +:+ old_name in
             Ok (kinds ++ [set_kind operand_kind new_name],
                 <[old_name := new_name]> old_to_new))
          operand_kinds ([], (∅ : gmap string string));
  instructions ← subscript (g_instructions json_dict);
  let rename (operand : Operand) :=
    kind ← subscript (o_kind operand);
    match old_to_new !! kind with
    | Some replacement =>
        Ok {| o_kind := Some replacement;
              o_quantifier := o_quantifier operand |}
    | None => Ok operand
    end in
  instructions ←
    rmap (fun instruction =>
            match i_operands instruction with
            | Some operands =>
                operands ← rmap rename operands;
                Ok (set_operands instruction (Some operands))
            | None => Ok instruction
            end)
         instructions;
  Ok {| g_instructions := Some instructions;
        g_operand_kinds := Some kinds |}.

(** [if s:] for an optional string. *)
Definition truthy (o : option string) : bool :=
  match o with
  | Some s => negb (String.eqb s EmptyString)
  | None => false
  end.

Definition ext_inst_table (set_name : string) (insts : list string) : string :=
  "static const spv_ext_inst_desc_t " +:+ set_name +:+ "_entries[] = {" +:+ nl
    +:+ "  " +:+ join ("," +:+ nl +:+ "  ") insts +:+ nl +:+ "};".

Definition generate_extended_instruction_table (json_grammar : Grammar)
    (set_name : string) (operand_kind_prefix : option string) : result string :=
  json_grammar ←
    (if truthy operand_kind_prefix
     then prefix_operand_kind_names (default EmptyString operand_kind_prefix)
            json_grammar
     else Ok json_grammar);
  inst_table ← subscript (g_instructions json_grammar);
  inst_table ← sorted_key (fun k => subscript (i_opcode k)) inst_table;
  let caps := map (fun inst => get_list (i_capabilities inst)) inst_table in
  let caps_arrays := generate_capability_arrays caps in
  insts ← rmap (fun inst => generate_instruction inst true) inst_table;
  let insts := [ext_inst_table set_name insts] in
  Ok (caps_arrays +:+ nl +:+ nl +:+ join nl insts).

(** ** Enumerant descriptors *)

Record EnumerantInitializer : Type := {
  ei_enumerant : string;
  ei_value : Value;
  ei_num_caps : nat;
  ei_caps : string;
  ei_num_exts : nat;
  ei_exts : string;
  ei_parameters : list string;
  ei_version : string;
  ei_lastVersion : string;
}.

(** [convert_operand_kind] on a parameter whose kind may be [None]:
    [re.sub] rejects [None]. *)
Definition convert_parameter (p : option string * string) : result string :=
  match p.1 with
  | Some kind => Ok (convert_operand_kind (kind, p.2))
  | None => Raise TypeError
  end.

Definition EnumerantInitializer_init (enumerant : string) (value : Value)
    (caps exts : list string) (parameters : list (option string * string))
    (version lastVersion : option string) : result EnumerantInitializer :=
  parameters ← rmap convert_parameter parameters;
  Ok {| ei_enumerant := enumerant;
        ei_value := value;
        ei_num_caps := length caps;
        ei_caps := get_capability_array_name caps;
        ei_num_exts := length exts;
        ei_exts := get_extension_array_name exts;
        ei_parameters := parameters;
        ei_version := convert_min_required_version version;
        ei_lastVersion := convert_max_required_version lastVersion |}.

Definition EnumerantInitializer_str (self : EnumerantInitializer) : string :=
  join ", " [
    "{" +:+ dquote +:+ ei_enumerant self +:+ dquote;
    str_value (ei_value self);
    str_nat (ei_num_caps self);
    ei_caps self;
    str_nat (ei_num_exts self);
    ei_exts self;
    "{" +:+ join ", " (ei_parameters self) +:+ "}";
    ei_version self;
    ei_lastVersion self +:+ "}" ].

Definition generate_enum_operand_kind_entry (entry : Enumerant)
    (extension_map : list (option Value * list string)) : result string :=
  let enumerant := e_enumerant entry in
  let value := e_value entry in
  let caps := get_list (e_capabilities entry) in
  let exts := default [] (dict_get value extension_map) in
  let params := get_list (e_parameters entry) in
  let params := map p_kind params in
  let params := zip params (replicate (length params) EmptyString) in
  let version := e_version entry in
  let max_version := e_lastVersion entry in
  match enumerant, value with
  | None, _ => Raise AssertionError
  | Some _, None => Raise AssertionError
  | Some enumerant, Some value =>
      EnumerantInitializer_str <$>
        EnumerantInitializer_init enumerant value caps exts params
          version max_version
  end.

(** *** [int(s, 16)] *)

Definition hex_digit (c : ascii) : option Z :=
  let n := Z.of_nat (nat_of_ascii c) in
  if (48 <=? n) && (n <=? 57) then Some (n - 48)
  else if (97 <=? n) && (n <=? 102) then Some (n - 87)
  else if (65 <=? n) && (n <=? 70) then Some (n - 55)
  else None.

Inductive digit_state : Set :=
| NoDigit | AfterPrefix | AfterDigit | AfterUnderscore.

(** Digits may be separated by single underscores; one may also follow
    the base prefix. *)
Fixpoint hex_digits (st : digit_state) (acc : Z) (s : string) : option Z :=
  match s with
  | EmptyString => match st with AfterDigit => Some acc | _ => None end
  | String c s' =>
      if Ascii.eqb c "_" then
        match st with
        | AfterPrefix | AfterDigit => hex_digits AfterUnderscore acc s'
        | _ => None
        end
      else
        match hex_digit c with
        | Some d => hex_digits AfterDigit (16 * acc + d) s'
        | None => None
        end
  end.

(** The white space that [int] skips around the number in an ASCII
    string: the characters 9 to 13 and the space. *)
Definition is_py_space (c : ascii) : bool :=
  let n := nat_of_ascii c in
  ((9 <=? n)%nat && (n <=? 13)%nat) || (n =? 32)%nat.

Fixpoint lstrip (s : string) : string :=
  match s with
  | EmptyString => EmptyString
  | String c s' => if is_py_space c then lstrip s' else s
  end.

Definition strip (s : string) : string :=
  String.rev (lstrip (String.rev (lstrip s))).

Definition int16 (s : string) : result Z :=
  let s := strip s in
  let '(neg, s) :=
    match s with
    | String "-" s' => (true, s')
    | String "+" s' => (false, s')
    | _ => (false, s)
    end in
  let '(st, s) :=
    match s with
    | String "0" (String "x" s') | String "0" (String "X" s') => (AfterPrefix, s')
    | _ => (NoDigit, s)
    end in
  match hex_digits st 0 s with
  | Some n => Ok (if neg : bool then - n else n)
  | None => Raise ValueError
  end.

(** *** Sorting the enumerants of one kind *)

Definition as_int (v : Value) : option Z :=
  match v with VInt n => Some n | VStr _ => None end.
Definition as_str (v : Value) : option string :=
  match v with VStr s => Some s | VInt _ => None end.

(** Key [k['value']]: numbers compare with numbers and strings with
    strings; comparing a number with a string raises [TypeError]. *)
Definition sorted_by_value (l : list Enumerant) : result (list Enumerant) :=
  keys ← rmap (fun k => subscript (e_value k)) l;
  match mapM as_int keys, mapM as_str keys with
  | Some ns, _ => Ok (map snd (sorted_by fst (zip ns l)))
  | None, Some ss => Ok (map snd (sorted_by fst (zip ss l)))
  | None, None => Raise TypeError
  end.

(** Key [int(k['value'], 16)]. *)
Definition hex_key (k : Enumerant) : result Z :=
  v ← subscript (e_value k);
  match v with
  | VStr s => int16 s
  | VInt _ => Raise TypeError
  end.

Definition sort_enumerants (category : option string) (l : list Enumerant) :
  result (list Enumerant) :=
  if decide (category = Some "ValueEnum")
  then sorted_by_value l
  else sorted_key hex_key l.

(** The two loops that fill [extension_map]. *)
Definition extension_map_init (entries : list Enumerant) :
  list (option Value * list string) :=
  fold_left (fun m e => dict_set (e_value e) [] m) entries [].

Definition extension_map_add (value : option Value)
    (m : list (option Value * list string)) (ext : string) :
  list (option Value * list string) :=
  let cur := default [] (dict_get value m) in
  if bool_decide (ext ∈ cur) then m else dict_set value (cur ++ [ext]) m.

Definition extension_map_fill (entries : list Enumerant)
    (m : list (option Value * list string)) :
  list (option Value * list string) :=
  fold_left (fun m e =>
               fold_left (extension_map_add (e_value e))
                         (get_list (e_extensions e)) m)
            entries m.

Definition entries_array (name : string) (entries : list string) : string :=
  join nl ["static const spv_operand_desc_t " +:+ name +:+ "[] = {";
           join ("," +:+ nl) entries;
           "};"].

(** Returns the triple of the source and the extended
    [synthetic_exts_list]. *)
Definition generate_enum_operand_kind (enum : OperandKind)
    (synthetic_exts_list : list (list string)) :
  result ((string * string * string) * list (list string)) :=
  kind ← match k_kind enum with
         | Some kind => Ok kind
         | None => Raise AssertionError
         end;
  entries ← sort_enumerants (k_category enum) (get_list (k_enumerants enum));
  let extension_map := extension_map_fill entries (extension_map_init entries) in
  let synthetic_exts_list := synthetic_exts_list ++ dict_values extension_map in
  let name := PYGEN_VARIABLE_PREFIX +:+ "_" +:+ kind +:+ "Entries" in
  rows ← rmap (fun e =>
                 row ← generate_enum_operand_kind_entry e extension_map;
                 Ok ("  " +:+ row))
              entries;
  Ok ((kind, name, entries_array name rows), synthetic_exts_list).

(** ** The operand kind table *)

(** The comprehension [[generate_enum_operand_kind(e, exts) for e in enums]]:
    every call extends the same list [exts]. *)
Fixpoint generate_enum_operand_kinds (enums : list OperandKind)
    (exts : list (list string)) :
  result (list (string * string * string) * list (list string)) :=
  match enums with
  | [] => Ok ([], exts)
  | e :: enums' =>
      '(t, exts) ← generate_enum_operand_kind e exts;
      '(ts, exts) ← generate_enum_operand_kinds enums' exts;
      Ok (t :: ts, exts)
  end.

Definition tabulated (e : OperandKind) : bool :=
  bool_decide (k_category e ∈ [Some "ValueEnum"; Some "BitEnum"]).

Definition kind_row (e : string * string * string) : string :=
  let '(kind, size_of, array) := e in
  "  {" +:+ kind +:+ ", ARRAY_SIZE(" +:+ size_of +:+ "), " +:+ array +:+ "}".

Definition zip3 {A B C} (a : list A) (b : list B) (c : list C) :
  list (A * B * C) := zip (zip a b) c.

Definition operand_info_table (table_entries : list string) : string :=
  join nl ["static const spv_operand_desc_group_t " +:+ PYGEN_VARIABLE_PREFIX
             +:+ "_OperandInfoTable[] = {";
           join ("," +:+ nl) table_entries;
           "};"].

(** The rows of the table and the enumerant arrays that are emitted, from
    the rendered kinds [(kind, name, entries)]. *)
Definition kind_table_rows (enums : list (string * string * string)) :
  list (string * string * string) :=
  let enum_kinds := map (fun e => e.1.1) enums in
  let enum_names := map (fun e => e.1.2) enums in
  let enum_quantifiers :=
    replicate (length enums - 3) EmptyString ++ replicate 3 "?" in
  let enum_kinds := map convert_operand_kind (zip enum_kinds enum_quantifiers) in
  zip3 enum_kinds enum_names enum_names.

Definition emitted_entries (enums : list (string * string * string)) :
  list string :=
  let enum_entries := map snd enums in
  take (length enum_entries - 3) enum_entries.

Definition with_optional_enums (enums : list (string * string * string)) :
  list (string * string * string) :=
  let three_optional_enums := ["ImageOperands"; "AccessQualifier"; "MemoryAccess"] in
  let three_optional_enums :=
    List.filter (fun e => bool_decide (e.1.1 ∈ three_optional_enums)) enums in
  enums ++ three_optional_enums.

Definition generate_operand_kind_table (enums : list OperandKind) :
  result string :=
  let enums := List.filter tabulated enums in
  let caps :=
    flat_map (fun enum =>
                map (fun entry => get_list (e_capabilities entry))
                    (get_list (k_enumerants enum)))
             enums in
  let caps_arrays := generate_capability_arrays caps in
  let exts :=
    flat_map (fun enum =>
                map (fun entry => get_list (e_extensions entry))
                    (get_list (k_enumerants enum)))
             enums in
  '(enums, exts) ← generate_enum_operand_kinds enums exts;
  let exts_arrays := generate_extension_arrays exts in
  let enums := with_optional_enums enums in
  (* [zip( *enums)] cannot be unpacked into three names when [enums] is
     empty *)
  _ ← (if nonempty enums then Ok tt else Raise ValueError);
  let enum_entries := emitted_entries enums in
  let table_entries := map kind_row (kind_table_rows enums) in
  let table := operand_info_table table_entries in
  Ok (join (nl +:+ nl) ([caps_arrays] ++ [exts_arrays] ++ enum_entries ++ [table])).

(** ** The extension registry *)

Definition all_enumerants (operand_kinds : list OperandKind) : list Enumerant :=
  concat (map (fun item => get_list (k_enumerants item)) operand_kinds).

(** The extensions named by the grammar, with repetitions, in order. *)
Definition declared_extensions (instructions : list Instruction)
    (operand_kinds : list OperandKind) : list string :=
  let things_with_an_extensions_field :=
    map i_extensions instructions
      ++ map e_extensions (all_enumerants operand_kinds) in
  concat (map get_list
            (List.filter (fun item => nonempty (get_list item))
                         things_with_an_extensions_field)).

Definition get_extension_list (instructions : list Instruction)
    (operand_kinds : list OperandKind) : result (list string) :=
  let extensions := declared_extensions instructions operand_kinds in
  _ ← rmap (fun item => assert (negb (bool_decide (item ∈ extensions))))
           (split EXTENSIONS_FROM_SPIRV_REGISTRY_AND_NOT_FROM_GRAMMARS);
  let extensions :=
    extensions ++ split EXTENSIONS_FROM_SPIRV_REGISTRY_AND_NOT_FROM_GRAMMARS in
  let extensions := extensions ++ ["SPV_VALIDATOR_ignore_type_decl_unique"] in
  Ok (sorted_set extensions).

Definition get_capabilities (operand_kinds : list OperandKind) : list Enumerant :=
  concat (map (fun item => get_list (k_enumerants item))
              (List.filter (fun item => bool_decide (k_kind item ∈ [Some "Capability"]))
                           operand_kinds)).

Definition generate_extension_enum (extensions : list string) : string :=
  join ("," +:+ nl) (map (fun extension => "k" +:+ extension) extensions).

Definition generate_extension_to_string_mapping (extensions : list string) :
  string :=
  let function := "const char* ExtensionToString(Extension extension) {" +:+ nl in
  let function := function +:+ "  switch (extension) {" +:+ nl in
  let template (extension : string) :=
    "    case Extension::k" +:+ extension +:+ ":" +:+ nl
      +:+ "      return " +:+ dquote +:+ extension +:+ dquote +:+ ";" +:+ nl in
  let function := function +:+ join EmptyString (map template extensions) in
  function +:+ "  };" +:+ nl +:+ nl +:+ "  return " +:+ dquote +:+ dquote
    +:+ ";" +:+ nl +:+ "}".

Definition generate_string_to_extension_mapping (extensions : list string) :
  string :=
  let strs := join ", " (map (fun e => dquote +:+ e +:+ dquote) extensions) in
  let ids := join ", " (map (fun e => "Extension::k" +:+ e) extensions) in
  nl
  +:+ "    bool GetExtensionFromString(const char* str, Extension* extension) {" +:+ nl
  +:+ "        static const char* known_ext_strs[] = { " +:+ strs +:+ " };" +:+ nl
  +:+ "        static const Extension known_ext_ids[] = { " +:+ ids +:+ " };" +:+ nl
  +:+ "        const auto b = std::begin(known_ext_strs);" +:+ nl
  +:+ "        const auto e = std::end(known_ext_strs);" +:+ nl
  +:+ "        const auto found = std::equal_range(" +:+ nl
  +:+ "            b, e, str, [](const char* str1, const char* str2) {" +:+ nl
  +:+ "                return std::strcmp(str1, str2) < 0;" +:+ nl
  +:+ "            });" +:+ nl
  +:+ "        if (found.first == e || found.first == found.second) return false;" +:+ nl
  +:+ nl
  +:+ "        *extension = known_ext_ids[found.first - b];" +:+ nl
  +:+ "        return true;" +:+ nl
  +:+ "    }" +:+ nl
  +:+ "    ".

(** The loop of [generate_capability_to_string_mapping]: [emitted] holds
    the values already printed. *)
Fixpoint capability_cases (caps : list Enumerant) (emitted : list (option Value)) :
  string :=
  match caps with
  | [] => EmptyString
  | capability :: caps' =>
      let value := e_value capability in
      if bool_decide (value ∈ emitted) then capability_cases caps' emitted
      else
        let c := str_opt (e_enumerant capability) in
        "    case SpvCapability" +:+ c +:+ ":" +:+ nl
          +:+ "      return " +:+ dquote +:+ c +:+ dquote +:+ ";" +:+ nl
          +:+ capability_cases caps' (value :: emitted)
  end.

Definition generate_capability_to_string_mapping (operand_kinds : list OperandKind) :
  string :=
  let function := "const char* CapabilityToString(SpvCapability capability) {" +:+ nl in
  let function := function +:+ "  switch (capability) {" +:+ nl in
  let function := function +:+ capability_cases (get_capabilities operand_kinds) [] in
  let function :=
    function +:+ "    case SpvCapabilityMax:" +:+ nl
      +:+ "      assert(0 && " +:+ dquote
      +:+ "Attempting to convert SpvCapabilityMax to string" +:+ dquote
      +:+ ");" +:+ nl
      +:+ "      return " +:+ dquote +:+ dquote +:+ ";" +:+ nl in
  function +:+ "  };" +:+ nl +:+ nl +:+ "  return " +:+ dquote +:+ dquote
    +:+ ";" +:+ nl +:+ "}".

Definition generate_all_string_enum_mappings (extensions : list string)
    (operand_kinds : list OperandKind) : string :=
  let tables :=
    [generate_extension_to_string_mapping extensions;
     generate_string_to_extension_mapping extensions;
     generate_capability_to_string_mapping operand_kinds] in
  join (nl +:+ nl) tables.

(** ** Merging the extensions of same-valued enumerants *)

(** [kind + '.' + str(value)]; concatenating [None] raises [TypeError]. *)
Definition merge_key (kind : option string) (value : option Value) :
  result string :=
  match kind with
  | Some kind => Ok (kind +:+ "." +:+ str_opt_value value)
  | None => Raise TypeError
  end.

Definition set_extensions (e : Enumerant) (exts : list string) : Enumerant :=
  {| e_enumerant := e_enumerant e;
     e_value := e_value e;
     e_capabilities := e_capabilities e;
     e_extensions := Some exts;
     e_parameters := e_parameters e;
     e_version := e_version e;
     e_lastVersion := e_lastVersion e |}.

Definition set_enumerants (k : OperandKind) (es : option (list Enumerant)) :
  OperandKind :=
  {| k_kind := k_kind k; k_category := k_category k; k_enumerants := es |}.

(** The body of the first loop, for one enumerant. *)
Definition collect_extensions (kind : option string)
    (exts : gmap string (list string)) (enum_entry : Enumerant) :
  result (gmap string (list string)) :=
  let value := e_value enum_entry in
  key ← merge_key kind value;
  let l :=
    match exts !! key with
    | Some l => l ++ get_list (e_extensions enum_entry)
    | None => get_list (e_extensions enum_entry)
    end in
  Ok (<[key := sorted_set l]> exts).

(** The body of the second loop, for one enumerant. *)
Definition assign_extensions (kind : option string)
    (exts : gmap string (list string)) (enum_entry : Enumerant) :
  result Enumerant :=
  let value := e_value enum_entry in
  key ← merge_key kind value;
  l ← subscript (exts !! key);
  if (0 <? length l)%nat then Ok (set_extensions enum_entry l) else Ok enum_entry.

Definition precondition_operand_kinds (operand_kinds : list OperandKind) :
  result (list OperandKind) :=
  exts ← rfold (fun exts kind_entry =>
                  rfold (collect_extensions (k_kind kind_entry))
                        (get_list (k_enumerants kind_entry)) exts)
               operand_kinds (∅ : gmap string (list string));
  rmap (fun kind_entry =>
          match k_enumerants kind_entry with
          | Some enumerants =>
              es ← rmap (assign_extensions (k_kind kind_entry) exts) enumerants;
              Ok (set_enumerants kind_entry (Some es))
          | None => Ok kind_entry
          end)
       operand_kinds.

(** ** [main]

    The file system maps a path to the text of the file.  Directories are
    not modelled: [make_path_to_file] leaves the files unchanged and is
    assumed to succeed.  [json.loads] is a parameter; reading a file that
    does not exist raises [OSError].  Messages printed before [exit(1)]
    are not modelled. *)

Inductive io_exn : Set :=
| PyExn (e : exn)
| OSError.

Inductive outcome (A : Type) : Type :=
| Done (a : A)
| Abort (e : io_exn).
Arguments Done {A} a.
Arguments Abort {A} e.

Abbreviation files := (gmap string string).

Definition IO (A : Type) : Type := files -> files * outcome A.

#[export] Instance IO_ret : MRet IO := fun A a fs => (fs, Done a).
#[export] Instance IO_bind : MBind IO := fun A B k m fs =>
  match m fs with
  | (fs', Done a) => k a fs'
  | (fs', Abort e) => (fs', Abort e)
  end.

Definition lift {A} (r : result A) : IO A := fun fs =>
  match r with
  | Ok a => (fs, Done a)
  | Raise e => (fs, Abort (PyExn e))
  end.

Definition exit : IO unit := fun fs => (fs, Abort (PyExn SystemExit)).

Definition when (c : bool) (m : IO unit) : IO unit :=
  if c then m else mret tt.

Definition make_path_to_file (f : string) : IO unit := mret tt.

(** [with open(path, 'w') as f: f.write(content)]: the file is created
    empty (or truncated) when it is opened, before [content] is computed. *)
Definition write_file (path : string) (content : result string) : IO unit :=
  fun fs =>
    let fs := <[path := EmptyString]> fs in
    match content with
    | Ok text => (<[path := text]> fs, Done tt)
    | Raise e => (fs, Abort (PyExn e))
    end.

Record Args : Type := {
  spirv_core_grammar : option string;
  extinst_debuginfo_grammar : option string;
  extinst_cldebuginfo100_grammar : option string;
  extinst_glsl_grammar : option string;
  extinst_opencl_grammar : option string;
  core_insts_output : option string;
  glsl_insts_output : option string;
  opencl_insts_output : option string;
  operand_kinds_output : option string;
  extension_enum_output : option string;
  enum_string_mapping_output : option string;
  extinst_vendor_grammar : option string;
  vendor_insts_output : option string;
  vendor_operand_kind_prefix : option string;
}.

Definition is_None {A} (o : option A) : bool :=
  match o with None => true | Some _ => false end.

(** [open(path, 'w')] and [os.path.abspath(path)] reject [None]. *)
Definition the_path (path : option string) : IO string :=
  match path with
  | Some p => mret p
  | None => lift (Raise TypeError)
  end.

Definition read_file (path : string) : IO string := fun fs =>
  match fs !! path with
  | Some text => (fs, Done text)
  | None => (fs, Abort OSError)
  end.

(** The set name of a vendor grammar, from the path of its file. *)
Definition vendor_set_name (name : string) : string :=
  let start :=
    match String.index 0 "extinst." name with
    | Some i => (i + 8)%nat
    | None => 7%nat
    end in
  let name :=
    String.substring start (String.length name - 13 - start) name in
  replace_char "-" "_" name.

(** The statements of [main] between the reading of the three grammars
    and the writing of the files: they do not touch the files.  The
    result holds [core_grammar['instructions']], [extensions] and
    [operand_kinds]. *)
Definition merge_grammars
    (core_grammar debuginfo_grammar cldebuginfo100_grammar : Grammar) :
  result (list Instruction * list string * list OperandKind) :=
  cldebuginfo100_grammar ←
    prefix_operand_kind_names "CLDEBUG100_" cldebuginfo100_grammar;
  core_instructions ← subscript (g_instructions core_grammar);
  debuginfo_instructions ← subscript (g_instructions debuginfo_grammar);
  cldebuginfo100_instructions ← subscript (g_instructions cldebuginfo100_grammar);
  let instructions :=
    core_instructions ++ debuginfo_instructions ++ cldebuginfo100_instructions in
  core_kinds ← subscript (g_operand_kinds core_grammar);
  debuginfo_kinds ← subscript (g_operand_kinds debuginfo_grammar);
  cldebuginfo100_kinds ← subscript (g_operand_kinds cldebuginfo100_grammar);
  let operand_kinds := core_kinds ++ debuginfo_kinds ++ cldebuginfo100_kinds in
  extensions ← get_extension_list instructions operand_kinds;
  operand_kinds ← precondition_operand_kinds operand_kinds;
  Ok (core_instructions, extensions, operand_kinds).

Section Main.
Variable json_loads : string -> result Grammar.

(** [json.loads(open(path).read())]. *)
Definition read_grammar (path : option string) : IO Grammar :=
  p ← the_path path;
  text ← read_file p;
  lift (json_loads text).

Definition check_args (args : Args) : IO unit :=
  _ ← when (negb (eqb (is_None (core_insts_output args))
                       (is_None (operand_kinds_output args)))) exit;
  _ ← when (truthy (operand_kinds_output args)
             && negb (truthy (spirv_core_grammar args)
                      && truthy (extinst_debuginfo_grammar args)
                      && truthy (extinst_cldebuginfo100_grammar args))) exit;
  _ ← when (negb (eqb (is_None (glsl_insts_output args))
                       (is_None (extinst_glsl_grammar args)))) exit;
  _ ← when (negb (eqb (is_None (opencl_insts_output args))
                       (is_None (extinst_opencl_grammar args)))) exit;
  _ ← when (negb (eqb (is_None (vendor_insts_output args))
                       (is_None (extinst_vendor_grammar args)))) exit;
  when (is_None (core_insts_output args)
        && is_None (glsl_insts_output args)
        && is_None (opencl_insts_output args)
        && is_None (vendor_insts_output args)
        && is_None (extension_enum_output args)
        && is_None (enum_string_mapping_output args)) exit.

(** The branch taken when [--spirv-core-grammar] is given: the three
    grammars are read, merged by [merge_grammars], and the requested
    files are written. *)
Definition main_core (args : Args) : IO unit :=
  core_grammar ← read_grammar (spirv_core_grammar args);
  debuginfo_grammar ← read_grammar (extinst_debuginfo_grammar args);
  cldebuginfo100_grammar ← read_grammar (extinst_cldebuginfo100_grammar args);
  '(core_instructions, extensions, operand_kinds) ←
    lift (merge_grammars core_grammar debuginfo_grammar cldebuginfo100_grammar);
  _ ← match core_insts_output args with
      | Some core_out =>
          _ ← make_path_to_file core_out;
          kinds_out ← the_path (operand_kinds_output args);
          _ ← make_path_to_file kinds_out;
          _ ← write_file core_out (generate_instruction_table core_instructions);
          write_file kinds_out (generate_operand_kind_table operand_kinds)
      | None => mret tt
      end;
  _ ← match extension_enum_output args with
      | Some out =>
          _ ← make_path_to_file out;
          write_file out (Ok (generate_extension_enum extensions))
      | None => mret tt
      end;
  match enum_string_mapping_output args with
  | Some out =>
      _ ← make_path_to_file out;
      write_file out
        (Ok (generate_all_string_enum_mappings extensions operand_kinds))
  | None => mret tt
  end.

(** The branches for the GLSL, OpenCL and vendor instruction sets. *)
Definition main_extinst (grammar_path out_path : option string)
    (set_name : string) (prefix : option string) : IO unit :=
  match grammar_path with
  | Some _ =>
      grammar ← read_grammar grammar_path;
      out ← the_path out_path;
      _ ← make_path_to_file out;
      write_file out
        (generate_extended_instruction_table grammar set_name prefix)
  | None => mret tt
  end.

Definition main (args : Args) : IO unit :=
  _ ← check_args args;
  _ ← match spirv_core_grammar args with
      | Some _ => main_core args
      | None => mret tt
      end;
  _ ← main_extinst (extinst_glsl_grammar args) (glsl_insts_output args)
        "glsl" (Some EmptyString);
  _ ← main_extinst (extinst_opencl_grammar args) (opencl_insts_output args)
        "opencl" (Some EmptyString);
  main_extinst (extinst_vendor_grammar args) (vendor_insts_output args)
    (vendor_set_name (default EmptyString (extinst_vendor_grammar args)))
    (vendor_operand_kind_prefix args).
End Main.

(** * Vocabulary of the properties *)

(** ** Orders *)

Class PyOrd (K : Type) `{PyLe K, EqDecision K} : Prop := {
  py_leb_total : forall a b : K, py_leb a b = true \/ py_leb b a = true;
  py_leb_trans : forall a b c : K,
      py_leb a b = true -> py_leb b c = true -> py_leb a c = true;
  py_leb_antisym : forall a b : K,
      py_leb a b = true -> py_leb b a = true -> a = b;
}.

(** [l] is in ascending order of keys. *)
Definition key_sorted {A K} `{PyLe K} (key : A -> K) (l : list A) : Prop :=
  StronglySorted (fun a b => py_leb (key a) (key b) = true) l.

(** The elements of key [k], in the order in which they occur. *)
Definition with_key {A K} `{EqDecision K} (key : A -> K) (k : K) (l : list A) :
  list A :=
  List.filter (fun x => bool_decide (key x = k)) l.

(** Elements of equal key occur in the same order in [l] and [out]. *)
Definition same_key_order {A K} `{EqDecision K} (key : A -> K) (l out : list A) :
  Prop :=
  forall k, with_key key k out = with_key key k l.

(** ** Tables *)

(** The key of an instruction that has an opcode and a name. *)
Definition inst_key (i : Instruction) : Z * string :=
  (default 0 (i_opcode i), default EmptyString (i_opname i)).

(** The text of the table, from the instructions in table order and their
    rendered descriptors. *)
Definition instruction_table_text (ordered : list Instruction)
    (rows : list string) : string :=
  generate_capability_arrays
    (map (fun inst => get_list (i_capabilities inst)) ordered)
    +:+ nl +:+ nl
    +:+ generate_extension_arrays
          (map (fun inst => get_list (i_extensions inst)) ordered)
    +:+ nl +:+ nl
    +:+ "static const spv_opcode_desc_t kOpcodeTableEntries[] = {" +:+ nl
    +:+ "  " +:+ join ("," +:+ nl +:+ "  ") rows +:+ nl +:+ "};".

(** A descriptor of the instruction table starts with the name of its
    instruction, without [Op], as a string and as an enumerator. *)
Definition names_instruction (i : Instruction) (row : string) : Prop :=
  exists rest,
    row = "{" +:+ dquote +:+ drop_chars 2 (default EmptyString (i_opname i))
            +:+ dquote +:+ ", SpvOp"
            +:+ drop_chars 2 (default EmptyString (i_opname i))
            +:+ ", " +:+ rest.



(** Decimal numerals. *)
Fixpoint digits (s : string) : bool :=
  match s with
  | EmptyString => true
  | String c s' =>
      (48 <=? nat_of_ascii c)%nat && (nat_of_ascii c <=? 57)%nat && digits s'
  end.

(** The number by which an enumerant is ordered: the JSON number of a
    value enumeration, the number written in hexadecimal of a bit
    enumeration. *)
Definition numeric_value (category : option string) (e : Enumerant) : Z :=
  if decide (category = Some "ValueEnum") then
    match e_value e with
    | Some (VInt n) => n
    | _ => 0
    end
  else
    match e_value e with
    | Some (VStr s) => match int16 s with Ok n => n | Raise _ => 0 end
    | _ => 0
    end.

(** The value of [e] is a number of the kind that [category] expects. *)
Definition well_valued (category : option string) (e : Enumerant) : Prop :=
  if decide (category = Some "ValueEnum") then
    e_value e = Some (VInt (numeric_value category e))
  else
    exists s, e_value e = Some (VStr s) /\ int16 s = Ok (numeric_value category e).

(** An enumerant that can be rendered in a kind of category [category]:
    it has a name, a value of the kind that the category expects, and
    parameters that have kinds. *)
Definition renderable_enumerant (category : option string) (e : Enumerant) :
  Prop :=
  is_Some (e_enumerant e) /\ well_valued category e /\
  Forall (fun p => is_Some (p_kind p)) (get_list (e_parameters e)).

(** ** Aliases *)

(** The enumerants of the model with the name of their kind, in
    declaration order. *)
Definition members (operand_kinds : list OperandKind) :
  list (option string * Enumerant) :=
  flat_map (fun k => map (fun e => (k_kind k, e)) (get_list (k_enumerants k)))
           operand_kinds.

Definition member_key (m : option string * Enumerant) : result string :=
  merge_key m.1 (e_value m.2).

(** The extensions declared by the members of key [key], in declaration
    order, with repetitions. *)
Definition group_extensions (key : string)
    (ms : list (option string * Enumerant)) : list string :=
  flat_map (fun m => if decide (member_key m = Ok key)
                     then get_list (e_extensions m.2) else [])
           ms.

(** The order-preserving, de-duplicated union, in the words of the
    specification: the names of [l] that are not in [seen], each once, at
    the place of its first declaration. *)
Fixpoint declaration_order_union (seen : list string) (l : list string) :
  list string :=
  match l with
  | [] => []
  | x :: l' =>
      if bool_decide (x ∈ seen) then declaration_order_union seen l'
      else x :: declaration_order_union (x :: seen) l'
  end.

(** [e'] is [e] but for its extension list. *)
Definition same_but_extensions (e e' : Enumerant) : Prop :=
  e_enumerant e' = e_enumerant e /\ e_value e' = e_value e /\
  e_capabilities e' = e_capabilities e /\ e_parameters e' = e_parameters e /\
  e_version e' = e_version e /\ e_lastVersion e' = e_lastVersion e.

(** What the first loop has stored once the members [ms] are read. *)
Definition collected (ms : list (option string * Enumerant))
    (exts : gmap string (list string)) : Prop :=
  (forall key l, exts !! key = Some l ->
                 l = sorted_set (group_extensions key ms)) /\
  (forall m key, m ∈ ms -> member_key m = Ok key -> is_Some (exts !! key)) /\
  (forall key, is_Some (exts !! key) ->
               exists m, m ∈ ms /\ member_key m = Ok key).

(** ** Grammars and files *)

Definition renamed_kind (k k' : OperandKind) : Prop :=
  is_Some (k_kind k) /\ is_Some (k_kind k') /\
  k_category k' = k_category k /\ k_enumerants k' = k_enumerants k.

(** The grammars that [main] merges. *)
Definition merged_instructions (core dbg cl : Grammar) : list Instruction :=
  get_list (g_instructions core) ++ get_list (g_instructions dbg)
    ++ get_list (g_instructions cl).
Definition merged_operand_kinds (core dbg cl : Grammar) : list OperandKind :=
  get_list (g_operand_kinds core) ++ get_list (g_operand_kinds dbg)
    ++ get_list (g_operand_kinds cl).

(** The file named by [path] exists and parses to [g]. *)
Definition loads (json_loads : string -> result Grammar) (fs : files)
    (path : option string) (g : Grammar) : Prop :=
  exists p text, path = Some p /\ fs !! p = Some text /\ json_loads text = Ok g.

(** A tabulated operand kind that lacks its name, or one of whose
    enumerants lacks its name or its value. *)
Definition malformed_kind (k : OperandKind) : Prop :=
  tabulated k = true /\
  (k_kind k = None \/
   exists e, e ∈ get_list (k_enumerants k) /\
             (e_enumerant e = None \/ e_value e = None)).

Definition is_optional_enum (e : string * string * string) : bool :=
  bool_decide (e.1.1 ∈ ["ImageOperands"; "AccessQualifier"; "MemoryAccess"]).

(** The row of a rendered kind, with the given quantifier. *)
Definition row_of (quantifier : string) (e : string * string * string) :
  string * string * string :=
  (convert_operand_kind (e.1.1, quantifier), e.1.2, e.1.2).

(** ** The merge, as a function *)

(** The extension list that the merge gives to the members of key [key]. *)
Definition merged_extensions (operand_kinds : list OperandKind) (key : string) :
  list string :=
  sorted_set (group_extensions key (members operand_kinds)).

(** What the merge makes of one enumerant of a kind named [kind]. *)
Definition merge_enumerant (operand_kinds : list OperandKind)
    (kind : option string) (e : Enumerant) : Enumerant :=
  match merge_key kind (e_value e) with
  | Ok key =>
      let union := merged_extensions operand_kinds key in
      if nonempty union then set_extensions e union else e
  | Raise _ => e
  end.

Definition merge_kind (operand_kinds : list OperandKind) (k : OperandKind) :
  OperandKind :=
  match k_enumerants k with
  | Some es =>
      set_enumerants k (Some (map (merge_enumerant operand_kinds (k_kind k)) es))
  | None => k
  end.

(** A kind that has enumerants but no name. *)
Definition unnamed_with_enumerants (k : OperandKind) : Prop :=
  get_list (k_enumerants k) <> [] /\ k_kind k = None.

(** ** The extension map of one operand kind *)



(** ** Prefixed grammars *)

(** The names of the kinds that have one. *)
Definition kind_names (kinds : list OperandKind) : list string :=
  omap k_kind kinds.

Definition prefixed_kind (prefix : string) (k : OperandKind) : OperandKind :=
  set_kind k (prefix +:+ default EmptyString (k_kind k)).

(** An operand whose kind is declared by the grammar refers to the
    prefixed kind; any other operand is left as it is. *)
Definition prefixed_operand (prefix : string) (names : list string)
    (o : Operand) : Operand :=
  match o_kind o with
  | Some kind =>
      if bool_decide (kind ∈ names)
      then {| o_kind := Some (prefix +:+ kind);
              o_quantifier := o_quantifier o |}
      else o
  | None => o
  end.

Definition prefixed_instruction (prefix : string) (names : list string)
    (i : Instruction) : Instruction :=
  set_operands i (map (prefixed_operand prefix names) <$> i_operands i).

(** ** What can be rendered *)

(** Every operand of the instruction has its kind. *)
Definition kinded_operands (inst : Instruction) : Prop :=
  Forall (fun o => is_Some (o_kind o)) (get_list (i_operands inst)).

(** An instruction of the core grammar that can be rendered: its operands
    have their kinds, it has a name that starts with [Op], and it has
    operands when it is [OpExtInst]. *)
Definition renderable_instruction (inst : Instruction) : Prop :=
  kinded_operands inst /\
  exists opname,
    i_opname inst = Some opname /\ startswith "Op" opname = true /\
    (opname = "OpExtInst" -> get_list (i_operands inst) <> []).

(** A kind from which the tables can be made: it has a name if it has
    enumerants and, if it is an enumeration, it has a name and enumerants
    that can be rendered. *)
Definition well_formed_kind (k : OperandKind) : Prop :=
  (get_list (k_enumerants k) <> [] -> is_Some (k_kind k)) /\
  (tabulated k = true ->
   is_Some (k_kind k) /\
   Forall (renderable_enumerant (k_category k)) (get_list (k_enumerants k))).

(** A grammar with its two members. *)
Definition complete (g : Grammar) : Prop :=
  is_Some (g_instructions g) /\ is_Some (g_operand_kinds g).

(** ** Extended instruction sets *)

(** The tuple of an operand that has its kind. *)
Definition operand_pair (o : Operand) : string * string :=
  (default EmptyString (o_kind o), default EmptyString (o_quantifier o)).

(** The text of the table of an extended instruction set, from the
    instructions in table order and their rendered descriptors. *)
Definition ext_inst_table_text (set_name : string) (ordered : list Instruction)
    (rows : list string) : string :=
  generate_capability_arrays
    (map (fun inst => get_list (i_capabilities inst)) ordered)
    +:+ nl +:+ nl
    +:+ "static const spv_ext_inst_desc_t " +:+ set_name +:+ "_entries[] = {"
    +:+ nl +:+ "  " +:+ join ("," +:+ nl +:+ "  ") rows +:+ nl +:+ "};".

(** The key of an extended instruction that has an opcode. *)
Definition opcode_key (i : Instruction) : Z := default 0 (i_opcode i).

(** A descriptor of an extended instruction starts with the name of its
    instruction and its opcode. *)
Definition names_ext_instruction (i : Instruction) (row : string) : Prop :=
  exists rest,
    row = "{" +:+ dquote +:+ default EmptyString (i_opname i) +:+ dquote
            +:+ ", " +:+ str_opt_int (i_opcode i) +:+ ", " +:+ rest.

(** ** Capabilities *)

(** The case of [CapabilityToString] for one capability. *)
Definition capability_case (capability : Enumerant) : string :=
  "    case SpvCapability" +:+ str_opt (e_enumerant capability) +:+ ":" +:+ nl
    +:+ "      return " +:+ dquote +:+ str_opt (e_enumerant capability)
    +:+ dquote +:+ ";" +:+ nl.

(** The enumerants that are the first of their value. *)
Fixpoint first_declared (l : list Enumerant) : list Enumerant :=
  match l with
  | [] => []
  | e :: l' =>
      e :: List.filter (fun e' => negb (bool_decide (e_value e' = e_value e)))
                       (first_declared l')
  end.

(** ** What [main] writes *)

(** The paths that [main] is asked to write. *)
Definition outputs (args : Args) : list string :=
  omap id [core_insts_output args; operand_kinds_output args;
           extension_enum_output args; enum_string_mapping_output args;
           glsl_insts_output args; opencl_insts_output args;
           vendor_insts_output args].

(** [m] changes no file but those of [paths], and removes none. *)
Definition writes_within {A} (paths : list string) (m : IO A) : Prop :=
  forall fs,
    (forall p, p ∉ paths -> (m fs).1 !! p = fs !! p) /\
    (forall p, is_Some (fs !! p) -> is_Some ((m fs).1 !! p)).

(** The file system after an output that may not be requested. *)
Definition write_opt (path : option string) (text : string) (fs : files) : files :=
  match path with
  | Some p => <[p := text]> fs
  | None => fs
  end.

(** ** Examples *)

Definition ex_enumerant (name : option string) (value : option Value)
    (exts : option (list string)) : Enumerant :=
  {| e_enumerant := name; e_value := value; e_capabilities := None;
     e_extensions := exts; e_parameters := None;
     e_version := None; e_lastVersion := None |}.

Definition ex_kind (name : option string) (category : string)
    (enumerants : list Enumerant) : OperandKind :=
  {| k_kind := name; k_category := Some category; k_enumerants := Some enumerants |}.

Definition ex_inst (name : option string) (opcode : Z)
    (exts : option (list string)) : Instruction :=
  {| i_opname := name; i_opcode := Some opcode; i_capabilities := None;
     i_extensions := exts; i_operands := None;
     i_version := None; i_lastVersion := None |}.

(** Two aliases of value 7; the first declares [Y], the second [X]. *)
Definition ex_aliases : list OperandKind :=
  [ex_kind (Some "BuiltIn") "ValueEnum"
     [ex_enumerant (Some "A") (Some (VInt 7)) (Some ["Y"]);
      ex_enumerant (Some "B") (Some (VInt 7)) (Some ["X"])]].

Definition ex_aliases_merged : list OperandKind :=
  [ex_kind (Some "BuiltIn") "ValueEnum"
     [ex_enumerant (Some "A") (Some (VInt 7)) (Some ["X"; "Y"]);
      ex_enumerant (Some "B") (Some (VInt 7)) (Some ["X"; "Y"])]].

(** A grammar with [ImageOperands] but neither [AccessQualifier] nor
    [MemoryAccess]. *)
Definition ex_two_kinds : list OperandKind :=
  [ex_kind (Some "Dim") "ValueEnum"
     [ex_enumerant (Some "1D") (Some (VInt 0)) None];
   ex_kind (Some "ImageOperands") "BitEnum"
     [ex_enumerant (Some "None") (Some (VStr "0x0000")) None]].

(** A value enumeration with a tie. *)
Definition ex_dim : OperandKind :=
  ex_kind (Some "Dim") "ValueEnum"
    [ex_enumerant (Some "2D") (Some (VInt 1)) None;
     ex_enumerant (Some "1D") (Some (VInt 0)) None;
     ex_enumerant (Some "Plane") (Some (VInt 1)) None].




Definition ex_instructions : list Instruction :=
  [ex_inst (Some "OpUndef") 1 None;
   ex_inst (Some "OpNop") 0 None;
   ex_inst (Some "OpUndef") 1 (Some ["SPV_KHR_undef"])].

(** The table of [ex_instructions]: the array of the one extension
    list, then the three rows. *)
Definition ex_instructions_text : string :=
  nl +:+ nl
    +:+ "static const spvtools::Extension pygen_variable_exts_SPV_KHR_undef[] = "
    +:+ "{spvtools::Extension::kSPV_KHR_undef};" +:+ nl +:+ nl
    +:+ "static const spv_opcode_desc_t kOpcodeTableEntries[] = {" +:+ nl
    +:+ "  {" +:+ dquote +:+ "Nop" +:+ dquote
    +:+ ", SpvOpNop, 0, nullptr, 0, {}, 0, 0, 0, nullptr, "
    +:+ "SPV_SPIRV_VERSION_WORD(1, 0), 0xffffffffu}," +:+ nl
    +:+ "  {" +:+ dquote +:+ "Undef" +:+ dquote
    +:+ ", SpvOpUndef, 0, nullptr, 0, {}, 0, 0, 0, nullptr, "
    +:+ "SPV_SPIRV_VERSION_WORD(1, 0), 0xffffffffu}," +:+ nl
    +:+ "  {" +:+ dquote +:+ "Undef" +:+ dquote
    +:+ ", SpvOpUndef, 0, nullptr, 0, {}, 0, 0, 1, "
    +:+ "pygen_variable_exts_SPV_KHR_undef, "
    +:+ "SPV_SPIRV_VERSION_WORD(1, 0), 0xffffffffu}" +:+ nl
    +:+ "};".

Definition ex_empty_grammar : Grammar :=
  {| g_instructions := Some []; g_operand_kinds := Some [] |}.

(** A core grammar whose only enumerant has no name. *)
Definition ex_core_unnamed : Grammar :=
  {| g_instructions := Some [ex_inst (Some "OpNop") 0 None];
     g_operand_kinds :=
       Some [ex_kind (Some "Dim") "ValueEnum"
               [ex_enumerant None (Some (VInt 0)) None]] |}.

(** A core grammar that declares an extension of the supplementary list. *)
Definition ex_core_collision : Grammar :=
  {| g_instructions :=
       Some [ex_inst (Some "OpNop") 0 (Some ["SPV_AMD_gcn_shader"])];
     g_operand_kinds := Some [] |}.

Definition ex_json_loads (core : Grammar) (text : string) : result Grammar :=
  if decide (text = "core") then Ok core else Ok ex_empty_grammar.

(** A loader that tells the three grammars apart. *)
Definition ex_json_loads3 (core dbg cl : Grammar) (text : string) :
    result Grammar :=
  if decide (text = "core") then Ok core
  else if decide (text = "debuginfo") then Ok dbg else Ok cl.

(** A debug-info grammar whose only instruction has no name. *)
Definition ex_unnamed_instruction : Grammar :=
  {| g_instructions := Some [ex_inst None 1 None];
     g_operand_kinds := Some [] |}.

(** A core grammar with one enumeration and a kind of identifiers that
    has no name. *)
Definition ex_core_unnamed_id : Grammar :=
  {| g_instructions := Some [ex_inst (Some "OpNop") 0 None];
     g_operand_kinds := Some [ex_dim; ex_kind None "Id" []] |}.

(** A core grammar with one enumeration and a kind of literals that has
    an enumerant with neither name nor value. *)
Definition ex_core_literal_enumerant : Grammar :=
  {| g_instructions := Some [ex_inst (Some "OpNop") 0 None];
     g_operand_kinds :=
       Some [ex_dim;
             ex_kind (Some "LiteralInteger") "Literal"
               [ex_enumerant None None None]] |}.

Definition ex_files : files :=
  <["core.json" := "core"]>
    (<["debuginfo.json" := "debuginfo"]>
       (<["cldebuginfo.json" := "cldebuginfo"]> ∅)).

Definition ex_args : Args :=
  {| spirv_core_grammar := Some "core.json";
     extinst_debuginfo_grammar := Some "debuginfo.json";
     extinst_cldebuginfo100_grammar := Some "cldebuginfo.json";
     extinst_glsl_grammar := None;
     extinst_opencl_grammar := None;
     core_insts_output := Some "core.inc";
     glsl_insts_output := None;
     opencl_insts_output := None;
     operand_kinds_output := Some "kinds.inc";
     extension_enum_output := None;
     enum_string_mapping_output := None;
     extinst_vendor_grammar := None;
     vendor_insts_output := None;
     vendor_operand_kind_prefix := None |}.

(** The instruction table of [ex_core_unnamed]. *)
Definition ex_nop_table : string :=
  nl +:+ nl +:+ nl +:+ nl
    +:+ "static const spv_opcode_desc_t kOpcodeTableEntries[] = {" +:+ nl
    +:+ "  {" +:+ dquote +:+ "Nop" +:+ dquote
    +:+ ", SpvOpNop, 0, nullptr, 0, {}, 0, 0, 0, nullptr, "
    +:+ "SPV_SPIRV_VERSION_WORD(1, 0), 0xffffffffu}" +:+ nl
    +:+ "};".

(** Arguments that request the extension enumeration only. *)
Definition ex_args_extension_enum (core : option string) : Args :=
  {| spirv_core_grammar := core;
     extinst_debuginfo_grammar := None;
     extinst_cldebuginfo100_grammar := None;
     extinst_glsl_grammar := None;
     extinst_opencl_grammar := None;
     core_insts_output := None;
     glsl_insts_output := None;
     opencl_insts_output := None;
     operand_kinds_output := None;
     extension_enum_output := Some "extension_enum.inc";
     enum_string_mapping_output := None;
     extinst_vendor_grammar := None;
     vendor_insts_output := None;
     vendor_operand_kind_prefix := None |}.

(** Two extended instructions of opcode 1, the second name first in
    alphabetical order, after one of opcode 2. *)
Definition ex_ext_instructions : list Instruction :=
  [ex_inst (Some "Sin") 2 None;
   ex_inst (Some "RoundEven") 1 None;
   ex_inst (Some "Round") 1 None].

(** The table of [ex_ext_instructions] for the set [glsl]. *)
Definition ex_ext_instructions_text : string :=
  nl +:+ nl
    +:+ "static const spv_ext_inst_desc_t glsl_entries[] = {" +:+ nl
    +:+ "  {" +:+ dquote +:+ "RoundEven" +:+ dquote
    +:+ ", 1, 0, nullptr, {SPV_OPERAND_TYPE_NONE}}," +:+ nl
    +:+ "  {" +:+ dquote +:+ "Round" +:+ dquote
    +:+ ", 1, 0, nullptr, {SPV_OPERAND_TYPE_NONE}}," +:+ nl
    +:+ "  {" +:+ dquote +:+ "Sin" +:+ dquote
    +:+ ", 2, 0, nullptr, {SPV_OPERAND_TYPE_NONE}}" +:+ nl
    +:+ "};".

(** A core grammar with one instruction and one enumeration. *)
Definition ex_core : Grammar :=
  {| g_instructions := Some [ex_inst (Some "OpNop") 0 None];
     g_operand_kinds := Some [ex_dim] |}.

Definition ex_args_all : Args :=
  {| spirv_core_grammar := Some "core.json";
     extinst_debuginfo_grammar := Some "debuginfo.json";
     extinst_cldebuginfo100_grammar := Some "cldebuginfo.json";
     extinst_glsl_grammar := None;
     extinst_opencl_grammar := None;
     core_insts_output := Some "core.inc";
     glsl_insts_output := None;
     opencl_insts_output := None;
     operand_kinds_output := Some "kinds.inc";
     extension_enum_output := Some "extension_enum.inc";
     enum_string_mapping_output := Some "enum_string_mapping.inc";
     extinst_vendor_grammar := None;
     vendor_insts_output := None;
     vendor_operand_kind_prefix := None |}.


(** The grammar of an extended instruction set, its file and the
    arguments that request its table. *)
Definition ex_glsl : Grammar :=
  {| g_instructions := Some ex_ext_instructions; g_operand_kinds := None |}.

Definition ex_glsl_files : files :=
  <["extinst.glsl.std.450.grammar.json" := "core"]> ∅.

Definition ex_args_glsl : Args :=
  {| spirv_core_grammar := None;
     extinst_debuginfo_grammar := None;
     extinst_cldebuginfo100_grammar := None;
     extinst_glsl_grammar := Some "extinst.glsl.std.450.grammar.json";
     extinst_opencl_grammar := None;
     core_insts_output := None;
     glsl_insts_output := Some "glsl.insts.inc";
     opencl_insts_output := None;
     operand_kinds_output := None;
     extension_enum_output := None;
     enum_string_mapping_output := None;
     extinst_vendor_grammar := None;
     vendor_insts_output := None;
     vendor_operand_kind_prefix := None |}.

(** * Properties *)

(** ** The orders are total orders *)

Lemma py_leb_refl `{PyOrd K} (a : K) : py_leb a a = true.
Proof. destruct (py_leb_total a a); assumption. Qed.

#[export] Instance Z_PyOrd : PyOrd Z.
Proof.
  split; unfold py_leb, Z_PyLe; intros *; rewrite !Z.leb_le; lia.
Qed.

#[export] Instance string_PyOrd : PyOrd string.
Proof.
  split; unfold py_leb, string_PyLe.
  - exact String.leb_total.
  - intros a b c Hab Hbc.
    assert (String.le a c) as Hac.
    { transitivity b; unfold String.le; [rewrite Hab | rewrite Hbc]; exact I. }
    unfold String.le in Hac. destruct (String.leb a c); [reflexivity | elim Hac].
  - intros a b. apply String.leb_antisym.
Qed.

#[export] Instance pair_PyOrd `{PyOrd K1, PyOrd K2} : PyOrd (K1 * K2).
Proof.
  split; unfold py_leb, pair_PyLe.
  - intros [a1 a2] [b1 b2]; simpl.
    repeat case_decide; subst; try congruence; apply py_leb_total.
  - intros [a1 a2] [b1 b2] [c1 c2]; simpl.
    repeat case_decide; subst; try congruence; intros Hab Hbc.
    + eapply py_leb_trans; eassumption.
    + pose proof (py_leb_antisym _ _ Hab Hbc). congruence.
    + eapply py_leb_trans; eassumption.
  - intros [a1 a2] [b1 b2]; simpl.
    repeat case_decide; subst; try congruence; intros Hab Hba.
    + f_equal. apply py_leb_antisym; assumption.
    + pose proof (py_leb_antisym _ _ Hab Hba). congruence.
Qed.

#[export] Instance list_PyOrd `{PyOrd K} : PyOrd (list K).
Proof.
  split; unfold py_leb, list_PyLe.
  - intros a. induction a as [|x a IH]; intros [|y b]; simpl; auto.
    case_decide; subst.
    + rewrite decide_True by reflexivity. apply IH.
    + rewrite decide_False by congruence. apply py_leb_total.
  - intros a. induction a as [|x a IH]; intros [|y b] [|z c]; simpl; auto;
      try discriminate.
    repeat case_decide; subst; try congruence; intros Hab Hbc.
    + eapply IH; eassumption.
    + pose proof (py_leb_antisym _ _ Hab Hbc). congruence.
    + eapply py_leb_trans; eassumption.
  - intros a. induction a as [|x a IH]; intros [|y b]; simpl; auto;
      try discriminate.
    repeat case_decide; subst; try congruence; intros Hab Hba.
    + f_equal. apply IH; assumption.
    + pose proof (py_leb_antisym _ _ Hab Hba). congruence.
Qed.

(** ** [sorted] is a stable sort *)

Section SortedFacts.
Context {A K : Type} `{PyOrd K} (key : A -> K).

Lemma insert_by_perm x l : Permutation (insert_by key x l) (x :: l).
Proof.
  induction l as [|y l IH]; simpl; [reflexivity|].
  destruct (py_leb (key x) (key y)); [reflexivity|].
  rewrite IH. apply perm_swap.
Qed.

Lemma sorted_by_perm l : Permutation (sorted_by key l) l.
Proof.
  induction l as [|x l IH]; simpl; [reflexivity|].
  rewrite insert_by_perm. constructor. exact IH.
Qed.

Lemma insert_by_sorted x l : key_sorted key l -> key_sorted key (insert_by key x l).
Proof.
  unfold key_sorted. induction 1 as [|y l Hl IH Hy]; simpl.
  - repeat constructor.
  - destruct (py_leb (key x) (key y)) eqn:E.
    + constructor; [constructor; assumption|].
      constructor; [exact E|].
      eapply Forall_impl; [exact Hy|]. simpl. intros z Hz.
      eapply py_leb_trans; eassumption.
    + constructor; [exact IH|].
      rewrite insert_by_perm. constructor; [|exact Hy].
      destruct (py_leb_total (key x) (key y)); congruence.
Qed.

Lemma sorted_by_sorted l : key_sorted key (sorted_by key l).
Proof.
  induction l as [|x l IH]; simpl; [constructor|].
  apply insert_by_sorted, IH.
Qed.

Lemma insert_by_le x l :
  Forall (fun z => py_leb (key x) (key z) = true) l ->
  insert_by key x l = x :: l.
Proof. destruct 1 as [|y l Hy _]; simpl; [reflexivity|]. rewrite Hy. reflexivity. Qed.

(** Filtering on the key commutes with insertion and with sorting. *)
Lemma filter_insert_by (P : K -> bool) x l :
  key_sorted key l ->
  List.filter (fun y => P (key y)) (insert_by key x l) =
  if P (key x) then insert_by key x (List.filter (fun y => P (key y)) l)
  else List.filter (fun y => P (key y)) l.
Proof.
  unfold key_sorted. induction 1 as [|y l Hl IH Hy]; simpl.
  - destruct (P (key x)); reflexivity.
  - destruct (py_leb (key x) (key y)) eqn:E; simpl.
    + destruct (P (key x)) eqn:Px; [|reflexivity].
      symmetry. apply insert_by_le.
      destruct (P (key y)).
      * constructor; [exact E|].
        apply List.Forall_forall. intros z Hz. apply filter_In in Hz as [Hz _].
        rewrite List.Forall_forall in Hy.
        eapply py_leb_trans; [exact E|]. apply Hy. exact Hz.
      * apply List.Forall_forall. intros z Hz. apply filter_In in Hz as [Hz _].
        rewrite List.Forall_forall in Hy.
        eapply py_leb_trans; [exact E|]. apply Hy. exact Hz.
    + rewrite IH. destruct (P (key y)), (P (key x)); simpl;
        rewrite ?E; reflexivity.
Qed.

Lemma filter_sorted_by (P : K -> bool) l :
  List.filter (fun y => P (key y)) (sorted_by key l) =
  sorted_by key (List.filter (fun y => P (key y)) l).
Proof.
  induction l as [|x l IH]; simpl; [reflexivity|].
  rewrite filter_insert_by by apply sorted_by_sorted.
  rewrite IH. destruct (P (key x)); reflexivity.
Qed.

Lemma sorted_by_constant k l :
  Forall (fun x => key x = k) l -> sorted_by key l = l.
Proof.
  induction 1 as [|x l Hx Hl IH]; simpl; [reflexivity|].
  rewrite IH. apply insert_by_le.
  eapply Forall_impl; [exact Hl|]. simpl. intros z ->. rewrite Hx.
  apply py_leb_refl.
Qed.

(** Stability. *)
Lemma sorted_by_stable l : same_key_order key l (sorted_by key l).
Proof.
  intros k. unfold with_key.
  pose proof (filter_sorted_by (fun k' => bool_decide (k' = k)) l) as E.
  simpl in E. rewrite E. clear E.
  apply sorted_by_constant with (k := k).
  apply List.Forall_forall. intros x Hx. apply filter_In in Hx as [_ Hx].
  apply bool_decide_eq_true in Hx. exact Hx.
Qed.

(** A list in ascending order is determined by its elements of each key:
    there is one stable sort. *)
Lemma key_sorted_unique l1 l2 :
  key_sorted key l1 -> key_sorted key l2 -> same_key_order key l1 l2 -> l1 = l2.
Proof.
  unfold key_sorted, same_key_order, with_key.
  intros H1. revert l2. induction H1 as [|x l1 Hl1 IH Hx]; intros l2 H2 Hk.
  - destruct l2 as [|y l2]; [reflexivity|].
    specialize (Hk (key y)). simpl in Hk.
    rewrite bool_decide_eq_true_2 in Hk by reflexivity. discriminate.
  - destruct H2 as [|y l2 Hl2 Hy].
    { specialize (Hk (key x)). simpl in Hk.
      rewrite bool_decide_eq_true_2 in Hk by reflexivity. discriminate. }
    assert (key x = key y) as Exy.
    { apply py_leb_antisym.
      - pose proof (Hk (key y)) as Hk'. simpl in Hk'.
        rewrite (bool_decide_eq_true_2 (key y = key y)) in Hk' by reflexivity.
        destruct (bool_decide (key x = key y)) eqn:E.
        + apply bool_decide_eq_true in E. rewrite E. apply py_leb_refl.
        + assert (In y (List.filter (fun x0 => bool_decide (key x0 = key y)) l1)) as Hin.
          { rewrite <- Hk'. left. reflexivity. }
          apply filter_In in Hin as [Hin _].
          rewrite List.Forall_forall in Hx. apply Hx, Hin.
      - pose proof (Hk (key x)) as Hk'. simpl in Hk'.
        rewrite (bool_decide_eq_true_2 (key x = key x)) in Hk' by reflexivity.
        destruct (bool_decide (key y = key x)) eqn:E.
        + apply bool_decide_eq_true in E. rewrite E. apply py_leb_refl.
        + assert (In x (List.filter (fun x0 => bool_decide (key x0 = key x)) l2)) as Hin.
          { rewrite Hk'. left. reflexivity. }
          apply filter_In in Hin as [Hin _].
          rewrite List.Forall_forall in Hy. apply Hy, Hin. }
    assert (x = y) as ->.
    { pose proof (Hk (key x)) as Hk'. simpl in Hk'.
      rewrite (bool_decide_eq_true_2 (key x = key x)) in Hk' by reflexivity.
      rewrite (bool_decide_eq_true_2 (key y = key x)) in Hk' by congruence.
      congruence. }
    f_equal. apply IH; [exact Hl2|].
    intros k. specialize (Hk k). simpl in Hk.
    destruct (bool_decide (key y = k)); congruence.
Qed.

Lemma sorted_by_unique l out :
  key_sorted key out -> same_key_order key l out -> out = sorted_by key l.
Proof.
  intros Hs Hk. symmetry. apply key_sorted_unique.
  - apply sorted_by_sorted.
  - exact Hs.
  - intros k. rewrite Hk. symmetry. apply sorted_by_stable.
Qed.

(** Computing the keys first does not change the result. *)
Lemma sorted_by_decorated l :
  map snd (sorted_by fst (zip (map key l) l)) = sorted_by key l.
Proof.
  assert (forall x l', map snd (insert_by fst (key x, x) (map (fun y => (key y, y)) l'))
                       = insert_by key x l') as Hins.
  { intros x l'. induction l' as [|y l' IH]; simpl; [reflexivity|].
    destruct (py_leb (key x) (key y)); simpl.
    - rewrite map_map. simpl. rewrite map_id. reflexivity.
    - rewrite IH. reflexivity. }
  assert (forall l', sorted_by fst (zip (map key l') l')
                     = map (fun y => (key y, y)) (sorted_by key l')) as Hs.
  { intros l'. induction l' as [|x l' IH]; simpl; [reflexivity|].
    rewrite IH. clear IH. generalize (sorted_by key l'). intros s.
    induction s as [|y s IH]; simpl; [reflexivity|].
    destruct (py_leb (key x) (key y)); simpl; [reflexivity|].
    rewrite IH. reflexivity. }
  rewrite Hs, map_map. simpl. apply map_id.
Qed.
End SortedFacts.

#[export] Instance py_le_antisym `{PyOrd K} :
  AntiSymm (=) (fun a b : K => py_leb a b = true).
Proof. intros a b. apply py_leb_antisym. Qed.

Section SortedMore.
Context {A K : Type} `{PyOrd K} (key : A -> K).

Lemma map_insert_by x l :
  map key (insert_by key x l) = insert_by id (key x) (map key l).
Proof.
  induction l as [|y l IH]; simpl; [reflexivity|].
  unfold id. destruct (py_leb (key x) (key y)); simpl; [reflexivity|].
  rewrite IH. reflexivity.
Qed.

Lemma map_sorted_by l : map key (sorted_by key l) = sorted_by id (map key l).
Proof.
  induction l as [|x l IH]; simpl; [reflexivity|].
  rewrite map_insert_by, IH. reflexivity.
Qed.

(** The keys of the result depend only on the multiset of the input. *)
Lemma sorted_by_keys_perm l l' :
  Permutation l l' ->
  map key (sorted_by key l) = map key (sorted_by key l').
Proof.
  intros Hp. rewrite !map_sorted_by.
  apply (StronglySorted_unique (fun a b : K => py_leb a b = true)).
  - apply (sorted_by_sorted id).
  - apply (sorted_by_sorted id).
  - rewrite !(sorted_by_perm id). apply Permutation_map, Hp.
Qed.

(** Two lists with the same keys at the same places, and the same
    elements of key [k], agree wherever the key is [k]. *)
Lemma same_place (k : K) (a b : list A) :
  map key a = map key b ->
  with_key key k a = with_key key k b ->
  forall n x, a !! n = Some x -> key x = k -> b !! n = Some x.
Proof.
  unfold with_key. revert b.
  induction a as [|y a IH]; intros [|z b] Hm Hk n x Hn Hx;
    try discriminate.
  simpl in Hm. injection Hm as Hyz Hm. simpl in Hk. rewrite <- Hyz in Hk.
  destruct n as [|n]; simpl in *.
  - injection Hn as ->.
    rewrite bool_decide_eq_true_2 in Hk by exact Hx. congruence.
  - apply IH; try assumption.
    destruct (bool_decide (key y = k)); congruence.
Qed.
End SortedMore.

(** ** Lists *)

Lemma zip_map_same {A B C} (f : A -> B) (g : A -> C) (l : list A) :
  zip (map f l) (map g l) = map (fun x => (f x, g x)) l.
Proof. induction l as [|x l IH]; simpl; [reflexivity | rewrite IH; reflexivity]. Qed.

Lemma zip_replicate {A} (l : list A) (x : string) n :
  n = length l -> zip l (replicate n x) = map (fun a => (a, x)) l.
Proof.
  intros ->. induction l as [|a l IH]; simpl; [reflexivity | rewrite IH; reflexivity].
Qed.

Lemma zip_replicate_app {A} (l1 l2 : list A) (x y : string) n :
  zip (l1 ++ l2) (replicate (length l1) x ++ replicate n y)
  = map (fun a => (a, x)) l1 ++ zip l2 (replicate n y).
Proof. induction l1 as [|a l1 IH]; simpl; [reflexivity | rewrite IH; reflexivity]. Qed.

Lemma zip_app {A B} (l1 l2 : list A) (k1 k2 : list B) :
  length l1 = length k1 -> zip (l1 ++ l2) (k1 ++ k2) = zip l1 k1 ++ zip l2 k2.
Proof.
  revert k1. induction l1 as [|a l1 IH]; intros [|b k1]; simpl; try discriminate.
  - reflexivity.
  - intros [= Hl]. rewrite IH by exact Hl. reflexivity.
Qed.

(** ** Concatenation of strings *)

Lemma app_cons c (s t : string) : String c s +:+ t = String c (s +:+ t).
Proof. reflexivity. Qed.

Lemma app_assoc (s t u : string) : (s +:+ t) +:+ u = s +:+ (t +:+ u).
Proof.
  induction s as [|c s IH]; [reflexivity|].
  rewrite !app_cons, IH. reflexivity.
Qed.

(** ** Comprehensions that may raise *)

Lemma rmap_ok {A B} (f : A -> result B) l ys :
  rmap f l = Ok ys <-> Forall2 (fun x y => f x = Ok y) l ys.
Proof.
  revert ys. induction l as [|x l IH]; intros ys; simpl.
  - split.
    + intros [= <-]. constructor.
    + intros Hf. inversion Hf. reflexivity.
  - split.
    + destruct (f x) as [y|e] eqn:E; simpl; [|discriminate].
      destruct (rmap f l) as [ys'|e]; simpl; [|discriminate].
      intros [= <-]. constructor; [exact E|]. apply IH. reflexivity.
    + intros Hf. inversion Hf as [|? y ? ys' Hy Hys]; subst.
      rewrite Hy. simpl. apply IH in Hys. rewrite Hys. reflexivity.
Qed.

Lemma rmap_total {A B} (f : A -> result B) (g : A -> B) l :
  Forall (fun x => f x = Ok (g x)) l -> rmap f l = Ok (map g l).
Proof.
  induction 1 as [|x l Hx _ IH]; simpl; [reflexivity|].
  rewrite Hx. simpl. rewrite IH. reflexivity.
Qed.

Lemma rmap_defined {A B} (f : A -> result B) l :
  Forall (fun x => exists y, f x = Ok y) l -> exists ys, rmap f l = Ok ys.
Proof.
  induction 1 as [|x l [y Hy] _ [ys IH]]; simpl; [eexists; reflexivity|].
  rewrite Hy. simpl. rewrite IH. eexists; reflexivity.
Qed.

(** One element on which the body raises makes the comprehension raise. *)
Lemma rmap_raises {A B} (f : A -> result B) l x e :
  In x l -> f x = Raise e -> exists e', rmap f l = Raise e'.
Proof.
  induction l as [|y l IH]; simpl; [intros []|].
  intros [->|Hin] Hx.
  - rewrite Hx. eexists; reflexivity.
  - destruct (f y); simpl; [|eexists; reflexivity].
    destruct (IH Hin Hx) as [e' ->]. eexists; reflexivity.
Qed.

(** When the body raises only [e0], so does the comprehension. *)
Lemma rmap_raises_only {A B} (f : A -> result B) l e0 :
  (forall x e, f x = Raise e -> e = e0) ->
  forall e, rmap f l = Raise e -> e = e0.
Proof.
  intros Hf. induction l as [|y l IH]; simpl; [discriminate|].
  intros e. destruct (f y) eqn:E; simpl.
  - destruct (rmap f l); simpl; [discriminate|].
    intros [= <-]. apply IH. reflexivity.
  - intros [= <-]. eapply Hf, E.
Qed.

Lemma bind_Ok {A B} (a : A) (k : A -> result B) : (Ok a ≫= k) = k a.
Proof. reflexivity. Qed.

Lemma bind_Raise {A B} (e : exn) (k : A -> result B) :
  (Raise e ≫= k) = Raise e.
Proof. reflexivity. Qed.

Lemma rmap_raises_all {A B} (f : A -> result B) l e0 :
  Exists (fun x => is_ok (f x) = false) l ->
  (forall x e, f x = Raise e -> e = e0) ->
  rmap f l = Raise e0.
Proof.
  intros He Honly. apply Exists_exists in He as (x & Hx & Hf).
  destruct (f x) as [y|e] eqn:E; [discriminate|].
  destruct (rmap_raises f l x e) as [e' He']; [apply list_elem_of_In, Hx | exact E|].
  rewrite He'. f_equal. eapply rmap_raises_only; eassumption.
Qed.

Lemma is_ok_defined {A} (r : result A) : is_ok r = true -> exists a, r = Ok a.
Proof. destruct r; [eexists; reflexivity | discriminate]. Qed.

Lemma sorted_key_total {A K} `{PyOrd K} (key : A -> result K) (k : A -> K) l :
  Forall (fun x => key x = Ok (k x)) l ->
  sorted_key key l = Ok (sorted_by k l).
Proof.
  intros Hl. unfold sorted_key. rewrite (rmap_total _ k) by exact Hl.
  simpl. rewrite sorted_by_decorated. reflexivity.
Qed.

(** ** When a descriptor can be rendered *)

Lemma operand_tuple_kinded o :
  is_Some (o_kind o) -> operand_tuple o = Ok (operand_pair o).
Proof.
  intros [kind Hk]. unfold operand_tuple, operand_pair. rewrite Hk. reflexivity.
Qed.

Lemma operand_tuples_kinded inst :
  kinded_operands inst ->
  rmap operand_tuple (get_list (i_operands inst))
  = Ok (map operand_pair (get_list (i_operands inst))).
Proof.
  intros Hk. apply rmap_total. eapply Forall_impl; [exact Hk|].
  intros o. apply operand_tuple_kinded.
Qed.

Lemma operand_tuples_unkinded inst :
  ~ kinded_operands inst ->
  rmap operand_tuple (get_list (i_operands inst)) = Raise KeyError.
Proof.
  intros Hk. apply rmap_raises_all.
  - apply not_Forall_Exists in Hk; [|intros o; apply _].
    eapply Exists_impl; [exact Hk|]. intros o Ho. simpl in Ho.
    unfold operand_tuple.
    destruct (o_kind o) as [kind|] eqn:Ek; [|reflexivity].
    exfalso. apply Ho. eexists. reflexivity.
  - intros o e. unfold operand_tuple. destruct (o_kind o); simpl; congruence.
Qed.

Lemma kinded_operands_dec inst : kinded_operands inst \/ ~ kinded_operands inst.
Proof. destruct (decide (kinded_operands inst)); auto. Qed.

Lemma startswith_Op opname :
  startswith "Op" opname = true -> opname = "Op" +:+ drop_chars 2 opname.
Proof.
  unfold startswith.
  destruct opname as [|a [|b s]]; cbn [String.prefix]; try discriminate.
  - destruct (ascii_dec _ a); discriminate.
  - destruct (ascii_dec _ a) as [<-|]; [|discriminate].
    destruct (ascii_dec _ b) as [<-|]; [|discriminate]. reflexivity.
Qed.

Lemma ExtInst_name opname :
  startswith "Op" opname = true ->
  (drop_chars 2 opname = "ExtInst" <-> opname = "OpExtInst").
Proof.
  intros Hs. split.
  - intros Hd. rewrite (startswith_Op _ Hs), Hd. reflexivity.
  - intros ->. reflexivity.
Qed.

Lemma InstInitializer_init_cases opname caps exts operands version lastVersion :
  match InstInitializer_init opname caps exts operands version lastVersion with
  | Ok d => startswith "Op" opname = true /\
            (opname = "OpExtInst" -> operands <> []) /\
            ii_opname d = drop_chars 2 opname
  | Raise e =>
      (e = AssertionError /\ startswith "Op" opname = false) \/
      (e = IndexError /\ opname = "OpExtInst" /\ operands = [])
  end.
Proof.
  unfold InstInitializer_init.
  destruct (startswith "Op" opname) eqn:Hs; [|left; auto].
  pose proof (ExtInst_name _ Hs) as Hn.
  remember (drop_chars 2 opname) as name eqn:En. clear En.
  unfold fix_syntax, assert. rewrite bind_Ok.
  destruct (decide (name = "ExtInst")) as [Hd|Hd].
  - apply Hn in Hd. unfold last_item.
    destruct operands as [|o operands].
    + right. auto.
    + destruct (last _) eqn:El.
      * rewrite bind_Ok.
        destruct (decide _); simpl; repeat split; auto; discriminate.
      * exfalso. simpl in El. apply last_None in El. discriminate.
  - simpl. split; [reflexivity|]. split; [|reflexivity].
    intros He. exfalso. apply Hd, Hn, He.
Qed.

Lemma renderable_instruction_ok inst :
  renderable_instruction inst <-> is_ok (generate_instruction inst false) = true.
Proof.
  unfold renderable_instruction, generate_instruction.
  destruct (kinded_operands_dec inst) as [Hk|Hk].
  - rewrite (operand_tuples_kinded _ Hk), bind_Ok.
    destruct (i_opname inst) as [opname|].
    + pose proof (InstInitializer_init_cases opname (get_list (i_capabilities inst))
                    (get_list (i_extensions inst))
                    (map operand_pair (get_list (i_operands inst)))
                    (i_version inst) (i_lastVersion inst)) as Hc.
      destruct (InstInitializer_init _ _ _ _ _ _) as [d|e]; simpl.
      * split; [reflexivity|]. intros _. split; [exact Hk|]. exists opname.
        destruct Hc as (Hs & Ho & _). split; [reflexivity|]. split; [exact Hs|].
        intros He Hnil. apply (Ho He). rewrite Hnil. reflexivity.
      * split; [|discriminate]. intros (_ & name & [= <-] & Hs & Ho).
        destruct Hc as [[_ Hc]|(_ & He & Hnil)]; [congruence|].
        exfalso. apply (Ho He).
        destruct (get_list (i_operands inst)); [reflexivity | discriminate].
    + split; [|discriminate]. intros (_ & name & Hn & _). discriminate.
  - rewrite (operand_tuples_unkinded _ Hk). simpl.
    split; [|discriminate]. intros [Hk' _]. contradiction.
Qed.

(** A rendered descriptor names its instruction. *)
Lemma generate_instruction_names i row :
  generate_instruction i false = Ok row -> names_instruction i row.
Proof.
  intros Hrow.
  assert (renderable_instruction i) as (Hk & opname & Hn & _)
    by (apply renderable_instruction_ok; rewrite Hrow; reflexivity).
  unfold generate_instruction in Hrow.
  rewrite (operand_tuples_kinded _ Hk), bind_Ok, Hn in Hrow.
  pose proof (InstInitializer_init_cases opname (get_list (i_capabilities i))
                (get_list (i_extensions i))
                (map operand_pair (get_list (i_operands i)))
                (i_version i) (i_lastVersion i)) as Hc.
  destruct (InstInitializer_init _ _ _ _ _ _) as [d|e]; [|discriminate].
  destruct Hc as (_ & _ & Hd). injection Hrow as <-.
  unfold names_instruction, InstInitializer_str. rewrite Hn, Hd. simpl default.
  eexists. unfold join. cbn [String.concat].
  rewrite !app_assoc. reflexivity.
Qed.

(** ** The instruction table *)

Lemma instruction_key_named i :
  is_ok (instruction_key i) = true -> instruction_key i = Ok (inst_key i).
Proof.
  unfold instruction_key, inst_key.
  destruct (i_opcode i), (i_opname i); simpl; try discriminate. reflexivity.
Qed.

Lemma sorted_key_ok {A K} `{PyOrd K} (key : A -> result K) l out :
  sorted_key key l = Ok out -> Forall (fun x => is_ok (key x) = true) l.
Proof.
  unfold sorted_key. destruct (rmap key l) as [keys|] eqn:E; [|discriminate].
  intros _. apply rmap_ok in E. clear out.
  induction E as [|x y l ys Hxy _ IH]; constructor; [|exact IH].
  rewrite Hxy. reflexivity.
Qed.

Lemma sort_instructions_spec l out :
  sorted_key instruction_key l = Ok out ->
  Forall (fun i => instruction_key i = Ok (inst_key i)) l /\
  out = sorted_by inst_key l.
Proof.
  intros Hs.
  assert (Forall (fun i => instruction_key i = Ok (inst_key i)) l) as Hl.
  { eapply Forall_impl; [exact (sorted_key_ok instruction_key _ _ Hs)|].
    intros i. apply instruction_key_named. }
  split; [exact Hl|].
  rewrite (sorted_key_total _ inst_key) in Hs by exact Hl. congruence.
Qed.

Lemma generate_instruction_table_inv l text :
  generate_instruction_table l = Ok text ->
  exists rows,
    Forall (fun i => instruction_key i = Ok (inst_key i)) l /\
    Forall2 (fun i row => generate_instruction i false = Ok row)
            (sorted_by inst_key l) rows /\
    text = instruction_table_text (sorted_by inst_key l) rows.
Proof.
  unfold generate_instruction_table.
  destruct (sorted_key instruction_key l) as [out|] eqn:Hs; simpl; [|discriminate].
  apply sort_instructions_spec in Hs as [Hl ->].
  destruct (rmap _ (sorted_by inst_key l)) as [rows|] eqn:Hr; simpl; [|discriminate].
  intros [= <-]. exists rows. split; [exact Hl|]. split.
  - apply rmap_ok in Hr. exact Hr.
  - reflexivity.
Qed.

Lemma generate_instruction_table_intro l rows :
  Forall (fun i => instruction_key i = Ok (inst_key i)) l ->
  Forall2 (fun i row => generate_instruction i false = Ok row)
          (sorted_by inst_key l) rows ->
  generate_instruction_table l
  = Ok (instruction_table_text (sorted_by inst_key l) rows).
Proof.
  intros Hl Hr. unfold generate_instruction_table.
  rewrite (sorted_key_total _ inst_key) by exact Hl. simpl.
  apply rmap_ok in Hr. rewrite Hr. reflexivity.
Qed.

Lemma generate_instruction_named i :
  is_Some (i_opcode i) ->
  is_ok (generate_instruction i false) = true ->
  instruction_key i = Ok (inst_key i).
Proof.
  intros [opcode Ho] Hok.
  apply renderable_instruction_ok in Hok as (_ & opname & Hn & _).
  unfold instruction_key, inst_key. rewrite Ho, Hn. reflexivity.
Qed.

(** The table is rendered when every instruction has its opcode and a
    descriptor. *)
Lemma generate_instruction_table_defined l :
  Forall (fun i => is_Some (i_opcode i) /\
                   is_ok (generate_instruction i false) = true) l ->
  exists rows,
    Forall2 (fun i row => generate_instruction i false = Ok row)
            (sorted_by inst_key l) rows /\
    generate_instruction_table l
    = Ok (instruction_table_text (sorted_by inst_key l) rows).
Proof.
  intros Hl.
  assert (Forall (fun i => exists row, generate_instruction i false = Ok row)
                 (sorted_by inst_key l)) as Hdef.
  { rewrite (sorted_by_perm inst_key l).
    eapply Forall_impl; [exact Hl|]. intros i [_ Hi]. apply is_ok_defined, Hi. }
  destruct (rmap_defined _ _ Hdef) as [rows Hrows]. apply rmap_ok in Hrows.
  exists rows. split; [exact Hrows|].
  apply generate_instruction_table_intro; [|exact Hrows].
  eapply Forall_impl; [exact Hl|]. intros i [Ho Hi].
  apply generate_instruction_named; assumption.
Qed.

Lemma generate_instruction_table_raises l :
  Exists (fun i => is_ok (generate_instruction i false) = false) l ->
  exists e, generate_instruction_table l = Raise e.
Proof.
  intros He. destruct (generate_instruction_table l) as [text|e] eqn:Ht;
    [|eexists; reflexivity].
  apply generate_instruction_table_inv in Ht as (rows & _ & Hrows & _).
  apply Exists_exists in He as (i & Hi & Hno).
  assert (i ∈ sorted_by inst_key l) as Hin by (rewrite (sorted_by_perm inst_key l); exact Hi).
  apply list_elem_of_lookup in Hin as [n Hn].
  destruct (Forall2_lookup_l _ _ _ _ _ Hrows Hn) as (r & _ & Hr).
  rewrite Hr in Hno. discriminate.
Qed.

Lemma rendered_rows_name l rows :
  Forall2 (fun i row => generate_instruction i false = Ok row) l rows ->
  Forall2 (fun i row => generate_instruction i false = Ok row /\
                        names_instruction i row) l rows.
Proof.
  intros H. eapply Forall2_impl; [exact H|].
  intros i row Hrow. split; [exact Hrow | apply generate_instruction_names, Hrow].
Qed.

(** C4.  For every instruction list whose instructions have an opcode and
    can be rendered, [generate_instruction_table] renders the table: the
    capability and extension arrays, then the array
    [kOpcodeTableEntries] whose entries are the descriptors [rows], one
    for each instruction of [ordered] and in that order, each starting
    with the name of its instruction.  [ordered] is the stable sort of
    the input by (opcode, name) ascending: a permutation of the input,
    in ascending order of keys, in which the entries of equal key keep
    their declaration order, and it is the only such list.  Permuting,
    in the input, the entries of one key [k0] permutes those entries in
    the output the same way and leaves every other entry, and its
    descriptor, at its place. *)
Theorem generate_instruction_table_stable_order (inst_table : list Instruction) :
  Forall (fun i => is_Some (i_opcode i) /\ renderable_instruction i) inst_table ->
  exists text ordered rows,
    generate_instruction_table inst_table = Ok text /\
    text = instruction_table_text ordered rows /\
    Forall2 (fun i row => generate_instruction i false = Ok row /\
                          names_instruction i row) ordered rows /\
    Forall (fun i => instruction_key i = Ok (inst_key i)) inst_table /\
    Permutation ordered inst_table /\
    key_sorted inst_key ordered /\
    same_key_order inst_key inst_table ordered /\
    (forall out,
        key_sorted inst_key out -> same_key_order inst_key inst_table out ->
        out = ordered) /\
    (forall inst_table' k0,
        Permutation inst_table inst_table' ->
        (forall k, k <> k0 ->
                   with_key inst_key k inst_table' = with_key inst_key k inst_table) ->
        exists ordered' rows',
          generate_instruction_table inst_table'
          = Ok (instruction_table_text ordered' rows') /\
          Forall2 (fun i row => generate_instruction i false = Ok row /\
                                names_instruction i row) ordered' rows' /\
          with_key inst_key k0 ordered' = with_key inst_key k0 inst_table' /\
          forall n i,
            ordered !! n = Some i -> inst_key i <> k0 ->
            ordered' !! n = Some i /\ rows' !! n = rows !! n).
Proof.
  intros Hwf.
  assert (Forall (fun i => is_Some (i_opcode i) /\
                           is_ok (generate_instruction i false) = true)
                 inst_table) as Hall.
  { eapply Forall_impl; [exact Hwf|]. intros i [Ho Hr].
    split; [exact Ho | apply renderable_instruction_ok, Hr]. }
  destruct (generate_instruction_table_defined _ Hall) as (rows & Hrows & Ht).
  exists (instruction_table_text (sorted_by inst_key inst_table) rows),
    (sorted_by inst_key inst_table), rows.
  split; [exact Ht|]. split; [reflexivity|].
  split; [apply rendered_rows_name, Hrows|].
  split.
  { eapply Forall_impl; [exact Hall|]. intros i [Ho Hi].
    apply generate_instruction_named; assumption. }
  split; [apply sorted_by_perm|]. split; [apply sorted_by_sorted|].
  split; [apply sorted_by_stable|].
  split; [intros out Hs Hk; apply sorted_by_unique; assumption|].
  intros l' k0 Hp Hother.
  assert (Forall (fun i => is_Some (i_opcode i) /\
                           is_ok (generate_instruction i false) = true) l')
    as Hall'.
  { rewrite <- Hp. exact Hall. }
  destruct (generate_instruction_table_defined _ Hall') as (rows' & Hrows' & Ht').
  exists (sorted_by inst_key l'), rows'.
  split; [exact Ht'|]. split; [apply rendered_rows_name, Hrows'|].
  split; [apply sorted_by_stable|].
  intros n i Hn Hi.
  assert (sorted_by inst_key l' !! n = Some i) as Hn'.
  { apply (same_place inst_key (inst_key i) (sorted_by inst_key inst_table));
      try assumption; try reflexivity.
    - apply sorted_by_keys_perm, Hp.
    - rewrite !(sorted_by_stable inst_key). symmetry. apply Hother, Hi. }
  split; [exact Hn'|].
  destruct (Forall2_lookup_l _ _ _ _ _ Hrows Hn) as (r & -> & Hr).
  destruct (Forall2_lookup_l _ _ _ _ _ Hrows' Hn') as (r' & -> & Hr').
  congruence.
Qed.

(** ** [sorted(set(l))] *)

Section SortedSet.
Context {K : Type} `{PyOrd K}.

Lemma sorted_set_elem (l : list K) x : x ∈ sorted_set l <-> x ∈ l.
Proof.
  unfold sorted_set. rewrite (sorted_by_perm id). apply elem_of_remove_dups.
Qed.

Lemma sorted_set_NoDup (l : list K) : NoDup (sorted_set l).
Proof.
  unfold sorted_set. rewrite (sorted_by_perm id). apply NoDup_remove_dups.
Qed.

Lemma sorted_set_sorted (l : list K) : key_sorted id (sorted_set l).
Proof. apply (sorted_by_sorted id). Qed.

(** The result depends only on the set: the order in which the set is
    enumerated does not matter. *)
Lemma sorted_set_ext (l l' : list K) :
  (forall x, x ∈ l <-> x ∈ l') -> sorted_set l = sorted_set l'.
Proof.
  intros Hl.
  apply (StronglySorted_unique (fun a b : K => py_leb a b = true)).
  - apply sorted_set_sorted.
  - apply sorted_set_sorted.
  - apply NoDup_Permutation; try apply sorted_set_NoDup.
    intros x. rewrite !sorted_set_elem. apply Hl.
Qed.

Lemma sorted_set_perm (l s : list K) :
  NoDup s -> (forall x, x ∈ s <-> x ∈ l) -> sorted_by id s = sorted_set l.
Proof.
  intros Hs Hl.
  apply (StronglySorted_unique (fun a b : K => py_leb a b = true)).
  - apply (sorted_by_sorted id).
  - apply sorted_set_sorted.
  - apply NoDup_Permutation.
    + rewrite (sorted_by_perm id). exact Hs.
    + apply sorted_set_NoDup.
    + intros x. rewrite sorted_set_elem, (sorted_by_perm id). apply Hl.
Qed.

Lemma sorted_set_idemp_app (l l' : list K) :
  sorted_set (sorted_set l ++ l') = sorted_set (l ++ l').
Proof.
  apply sorted_set_ext. intros x.
  rewrite !elem_of_app, sorted_set_elem. reflexivity.
Qed.
End SortedSet.

(** ** Pooled arrays *)

Lemma elem_of_pooled (seqs : list (list string)) t :
  t ∈ pooled seqs <-> t ∈ seqs /\ t <> [].
Proof.
  unfold pooled. rewrite sorted_set_elem, list_elem_of_In, filter_In,
    <- list_elem_of_In.
  destruct t; simpl; split; intros [? ?]; split; congruence.
Qed.

Lemma capability_array_name_cons c caps :
  get_capability_array_name (c :: caps)
  = "pygen_variable_caps_" +:+ join EmptyString (c :: caps).
Proof. reflexivity. Qed.

Lemma extension_array_name_cons e exts :
  get_extension_array_name (e :: exts)
  = "pygen_variable_exts_" +:+ join EmptyString (e :: exts).
Proof. reflexivity. Qed.

Lemma capability_array_name_eq t1 t2 :
  t1 <> [] -> t2 <> [] ->
  get_capability_array_name t1 = get_capability_array_name t2 <->
  join EmptyString t1 = join EmptyString t2.
Proof.
  destruct t1 as [|a t1], t2 as [|b t2]; try congruence. intros _ _.
  rewrite !capability_array_name_cons. split.
  - apply String.app_inj.
  - intros ->. reflexivity.
Qed.

Lemma extension_array_name_eq t1 t2 :
  t1 <> [] -> t2 <> [] ->
  get_extension_array_name t1 = get_extension_array_name t2 <->
  join EmptyString t1 = join EmptyString t2.
Proof.
  destruct t1 as [|a t1], t2 as [|b t2]; try congruence. intros _ _.
  rewrite !extension_array_name_cons. split.
  - apply String.app_inj.
  - intros ->. reflexivity.
Qed.

Lemma join_pair a b : join EmptyString [a; b] = a +:+ b.
Proof.
  unfold join. simpl. reflexivity.
Qed.

(** C5, as amended.  One array is declared for every distinct non-empty
    tuple of the model, in ascending order of the tuples, and none for
    the empty tuple; equal sequences get
    the same reference; the empty sequence gets [nullptr], which no
    non-empty sequence gets; and two non-empty sequences get distinct
    references exactly when the concatenations of their names differ: so
    do [(a, b)] and [(b, a)] whenever [ab] and [ba] differ. *)
Theorem array_pooling (seqs : list (list string)) :
  generate_capability_arrays seqs = join nl (map capability_array (pooled seqs)) /\
  generate_extension_arrays seqs = join nl (map extension_array (pooled seqs)) /\
  NoDup (pooled seqs) /\
  key_sorted id (pooled seqs) /\
  (forall t, t ∈ pooled seqs <-> t ∈ seqs /\ t <> []) /\
  (forall t1 t2 : list string,
      t1 = t2 ->
      get_capability_array_name t1 = get_capability_array_name t2 /\
      get_extension_array_name t1 = get_extension_array_name t2) /\
  (get_capability_array_name [] = "nullptr" /\
   get_extension_array_name [] = "nullptr") /\
  (forall t, t <> [] ->
             get_capability_array_name t <> "nullptr" /\
             get_extension_array_name t <> "nullptr") /\
  (forall t1 t2, t1 <> [] -> t2 <> [] ->
      (get_capability_array_name t1 = get_capability_array_name t2 <->
       join EmptyString t1 = join EmptyString t2) /\
      (get_extension_array_name t1 = get_extension_array_name t2 <->
       join EmptyString t1 = join EmptyString t2)) /\
  (forall a b, a +:+ b <> b +:+ a ->
      get_capability_array_name [a; b] <> get_capability_array_name [b; a] /\
      get_extension_array_name [a; b] <> get_extension_array_name [b; a]).
Proof.
  split; [reflexivity|]. split; [reflexivity|].
  split; [apply sorted_set_NoDup|].
  split; [apply sorted_set_sorted|].
  split; [apply elem_of_pooled|].
  split; [intros t1 t2 ->; split; reflexivity|].
  split; [split; reflexivity|].
  split.
  { intros [|c t] Ht; [congruence|].
    rewrite capability_array_name_cons, extension_array_name_cons.
    split; discriminate. }
  split.
  { intros t1 t2 H1 H2. split.
    - apply capability_array_name_eq; assumption.
    - apply extension_array_name_eq; assumption. }
  intros a b Hab. split.
  - rewrite capability_array_name_eq, !join_pair by discriminate. exact Hab.
  - rewrite extension_array_name_eq, !join_pair by discriminate. exact Hab.
Qed.

(** C5, counterexample.  The tuples [(A, AA)] and [(AA, A)] differ only in
    the order of their elements and each gets a declaration, yet both
    resolve to the reference [pygen_variable_caps_AAA]. *)
Lemma reordered_tuples_share_a_reference :
  ["A"; "AA"] <> ["AA"; "A"] /\
  Permutation ["A"; "AA"] ["AA"; "A"] /\
  pooled [["A"; "AA"]; ["AA"; "A"]] = [["A"; "AA"]; ["AA"; "A"]] /\
  get_capability_array_name ["A"; "AA"] = "pygen_variable_caps_AAA" /\
  get_capability_array_name ["AA"; "A"] = "pygen_variable_caps_AAA" /\
  get_extension_array_name ["A"; "AA"] = get_extension_array_name ["AA"; "A"] /\
  generate_capability_arrays [["A"; "AA"]; ["AA"; "A"]]
  = "static const SpvCapability pygen_variable_caps_AAA[] = {SpvCapabilityA, SpvCapabilityAA};"
      +:+ nl +:+
    "static const SpvCapability pygen_variable_caps_AAA[] = {SpvCapabilityAA, SpvCapabilityA};".
Proof.
  split; [discriminate|]. split; [apply perm_swap|].
  repeat split; vm_compute; reflexivity.
Qed.

(** ** Strings *)

Lemma replace_char_app a b (s t : string) :
  replace_char a b (s +:+ t) = replace_char a b s +:+ replace_char a b t.
Proof.
  induction s as [|c s IH]; [reflexivity|].
  rewrite app_cons. simpl. rewrite IH. reflexivity.
Qed.

Lemma replace_dot_digits (s : string) :
  digits s = true -> replace_char "." "," s = s.
Proof.
  induction s as [|c s IH]; simpl; [reflexivity|].
  intros Hd. apply andb_prop in Hd as [Hc Hs]. rewrite (IH Hs).
  destruct (Ascii.eqb_spec c "."); [subst; discriminate | reflexivity].
Qed.

Lemma digits_not_None (x y : string) :
  digits x = true -> x +:+ "." +:+ y <> "None".
Proof.
  destruct x as [|c x]; [discriminate|].
  rewrite app_cons. simpl. intros Hd [= -> _]. discriminate.
Qed.


(** ** Version words *)

(** C3, as amended.  An absent minimum version encodes to the word of
    version 1.0; the minimum version [None] (capitalised as in the
    grammar) encodes to [0xffffffffu]; a minimum version [X.Y] encodes to
    the word of (X, Y); an absent maximum version encodes to
    [0xffffffffu].  The descriptors of instructions and of enumerants
    carry these encodings. *)
Theorem version_encoding :
  convert_min_required_version None = "SPV_SPIRV_VERSION_WORD(1, 0)" /\
  convert_min_required_version (Some "None") = "0xffffffffu" /\
  (forall x y,
      digits x = true -> digits y = true ->
      convert_min_required_version (Some (x +:+ "." +:+ y))
      = "SPV_SPIRV_VERSION_WORD(" +:+ x +:+ "," +:+ y +:+ ")") /\
  convert_min_required_version (Some "1.3") = "SPV_SPIRV_VERSION_WORD(1,3)" /\
  convert_max_required_version None = "0xffffffffu" /\
  (forall opname caps exts operands version lastVersion d,
      InstInitializer_init opname caps exts operands version lastVersion = Ok d ->
      ii_version d = convert_min_required_version version /\
      ii_lastVersion d = convert_max_required_version lastVersion) /\
  (forall enumerant value caps exts parameters version lastVersion d,
      EnumerantInitializer_init enumerant value caps exts parameters
        version lastVersion = Ok d ->
      ei_version d = convert_min_required_version version /\
      ei_lastVersion d = convert_max_required_version lastVersion).
Proof.
  split; [reflexivity|]. split; [reflexivity|]. split.
  { intros x y Hx Hy. unfold convert_min_required_version.
    rewrite decide_False by (apply digits_not_None, Hx).
    rewrite !replace_char_app, (replace_dot_digits x), (replace_dot_digits y)
      by assumption.
    change (replace_char "." "," ".") with ",".
    rewrite !app_assoc. reflexivity. }
  split; [reflexivity|]. split; [reflexivity|]. split.
  - intros opname caps exts operands version lastVersion d.
    unfold InstInitializer_init.
    destruct (assert _); simpl; [|discriminate].
    destruct (fix_syntax _ _); simpl; [|discriminate].
    intros [= <-]. split; reflexivity.
  - intros enumerant value caps exts parameters version lastVersion d.
    unfold EnumerantInitializer_init.
    destruct (rmap _ _); simpl; [|discriminate].
    intros [= <-]. split; reflexivity.
Qed.

(** C3, counterexample.  The lower-case literal [none] is not the marker:
    it is encoded like any other version string. *)
Lemma lower_case_none_is_not_the_marker :
  convert_min_required_version (Some "none") = "SPV_SPIRV_VERSION_WORD(none)" /\
  convert_min_required_version (Some "none") <> "0xffffffffu".
Proof. split; [reflexivity | discriminate]. Qed.

(** ** The fix-up of [ExtInst] *)

Lemma last_snoc_inv {A} (l : list A) x :
  last l = Some x -> l = removelast l ++ [x].
Proof.
  intros Hl. destruct (decide (l = [])) as [->|Hne]; [discriminate|].
  rewrite (app_removelast_last x Hne) at 1. f_equal. f_equal.
  rewrite last_lookup in Hl. clear Hne.
  induction l as [|y [|z l] IH]; simpl in *; try congruence.
  apply IH. exact Hl.
Qed.

Lemma fix_syntax_spec opname operands :
  (opname = "ExtInst" -> operands <> []) ->
  exists fixed,
    fix_syntax opname operands = Ok fixed /\
    (opname = "ExtInst" ->
       (exists l, operands = l ++ ["SPV_OPERAND_TYPE_VARIABLE_ID"] /\ fixed = l) \/
       (last operands <> Some "SPV_OPERAND_TYPE_VARIABLE_ID" /\ fixed = operands)) /\
    (opname <> "ExtInst" -> fixed = operands).
Proof.
  intros Hne. unfold fix_syntax, last_item. case_decide as Hop.
  - destruct (last operands) as [o|] eqn:Hl.
    + simpl. case_decide as Ho; subst.
      * eexists; split; [reflexivity|]. split; [|congruence].
        intros _. left. eexists; split; [|reflexivity].
        apply last_snoc_inv, Hl.
      * eexists; split; [reflexivity|]. split; [|congruence].
        intros _. right. split; [congruence | reflexivity].
    + apply last_None in Hl. elim (Hne Hop Hl).
  - eexists; split; [reflexivity|]. split; [congruence | reflexivity].
Qed.

(** What the fix-up does.  For an instruction whose name starts with
    [Op] (and, for [OpExtInst], whose operand list is not empty) the
    descriptor is built, and: for [ExtInst], and only for it, one
    trailing [SPV_OPERAND_TYPE_VARIABLE_ID] is dropped from the converted
    operand types; the operand types of every other instruction are the
    converted ones, unchanged. *)
Lemma ext_inst_fix_up (opname : string) (caps exts : list string)
    (operands : list (string * string)) (version lastVersion : option string) :
  startswith "Op" opname = true ->
  (drop_chars 2 opname = "ExtInst" -> operands <> []) ->
  let converted := map convert_operand_kind operands in
  exists d,
    InstInitializer_init opname caps exts operands version lastVersion = Ok d /\
    ii_opname d = drop_chars 2 opname /\
    (ii_opname d = "ExtInst" ->
       (exists l, converted = l ++ ["SPV_OPERAND_TYPE_VARIABLE_ID"] /\
                  ii_operands d = l) \/
       (last converted <> Some "SPV_OPERAND_TYPE_VARIABLE_ID" /\
        ii_operands d = converted)) /\
    (ii_opname d = "ExtInst" ->
       (last (ii_operands d) = Some "SPV_OPERAND_TYPE_VARIABLE_ID" <->
        exists l, converted = l ++ ["SPV_OPERAND_TYPE_VARIABLE_ID";
                                    "SPV_OPERAND_TYPE_VARIABLE_ID"])) /\
    (ii_opname d <> "ExtInst" -> ii_operands d = converted).
Proof.
  intros Hop Hne converted. unfold InstInitializer_init. rewrite Hop.
  remember (drop_chars 2 opname) as name eqn:En. simpl. fold converted.
  destruct (fix_syntax_spec name converted) as (fixed & -> & He & Ho).
  { intros E Hc. apply Hne; [exact E|]. eapply map_eq_nil, Hc. }
  simpl. eexists; split; [reflexivity|]. simpl.
  split; [reflexivity|]. split; [exact He|]. split; [|exact Ho].
  intros E. destruct (He E) as [(l & Hl & ->)|[Hl ->]]; split.
  - intros Hlast. exists (removelast l).
    rewrite Hl. rewrite (last_snoc_inv _ _ Hlast) at 1.
    rewrite <- List.app_assoc. reflexivity.
  - intros (l' & Hl'). rewrite Hl' in Hl.
    change [?x; ?y] with ([x] ++ [y]) in Hl. rewrite List.app_assoc in Hl.
    apply app_inj_tail in Hl as [<- _]. apply last_snoc.
  - intros Hlast. congruence.
  - intros (l' & Hl'). elim Hl. rewrite Hl'.
    change [?x; ?y] with ([x] ++ [y]). rewrite List.app_assoc. apply last_snoc.
Qed.

(** C6.  [fix_syntax] is documented to make sure that [ExtInst] does not
    end with the variadic-id type, but it drops one operand type, once:
    with two trailing variadic id-references the descriptor of
    [OpExtInst] still ends with [SPV_OPERAND_TYPE_VARIABLE_ID]. *)
Theorem ext_inst_may_end_with_variable_id :
  ii_operands <$>
    InstInitializer_init "OpExtInst" [] [] [("IdRef", "*"); ("IdRef", "*")]
      None None
  = Ok ["SPV_OPERAND_TYPE_VARIABLE_ID"] /\
  generate_instruction
    {| i_opname := Some "OpExtInst"; i_opcode := Some 12;
       i_capabilities := None; i_extensions := None;
       i_operands :=
         Some [ {| o_kind := Some "IdRef"; o_quantifier := Some "*" |};
                {| o_kind := Some "IdRef"; o_quantifier := Some "*" |} ];
       i_version := None; i_lastVersion := None |} false
  = Ok ("{" +:+ dquote +:+ "ExtInst" +:+ dquote
          +:+ ", SpvOpExtInst, 0, nullptr, 1, {SPV_OPERAND_TYPE_VARIABLE_ID}, "
          +:+ "0, 0, 0, nullptr, SPV_SPIRV_VERSION_WORD(1, 0), 0xffffffffu}").
Proof. split; vm_compute; reflexivity. Qed.

(** ** Extended instruction descriptors *)


(** ** The enumerants of one operand kind *)

Lemma mapM_as_int_VInt (ns : list Z) : mapM as_int (map VInt ns) = Some ns.
Proof.
  induction ns as [|n ns IH]; [reflexivity|].
  simpl. rewrite IH. reflexivity.
Qed.

Lemma well_valued_value category e :
  well_valued category e -> is_Some (e_value e).
Proof.
  unfold well_valued. case_decide.
  - intros ->. eexists; reflexivity.
  - intros (s & -> & _). eexists; reflexivity.
Qed.

Lemma hex_key_well_valued category e :
  category <> Some "ValueEnum" -> well_valued category e ->
  hex_key e = Ok (numeric_value category e).
Proof.
  intros Hc. unfold well_valued. rewrite decide_False by exact Hc.
  intros (s & Hv & Hs). unfold hex_key. rewrite Hv. exact Hs.
Qed.

(** The enumerants are sorted by their numbers. *)
Lemma sort_enumerants_defined category l :
  Forall (well_valued category) l ->
  sort_enumerants category l = Ok (sorted_by (numeric_value category) l).
Proof.
  intros Hw. unfold sort_enumerants. case_decide as Hc.
  - unfold sorted_by_value.
    rewrite (rmap_total _ (fun e => VInt (numeric_value category e))).
    + simpl. rewrite <- (map_map (numeric_value category) VInt).
      rewrite mapM_as_int_VInt, sorted_by_decorated. reflexivity.
    + eapply Forall_impl; [exact Hw|]. intros e He.
      unfold well_valued in He. rewrite decide_True in He by exact Hc.
      rewrite He. reflexivity.
  - apply sorted_key_total.
    eapply Forall_impl; [exact Hw|]. intros e. apply hex_key_well_valued, Hc.
Qed.

Lemma convert_parameters_defined (ps : list Param) :
  Forall (fun p => is_Some (p_kind p)) ps ->
  exists ys,
    rmap convert_parameter
         (zip (map p_kind ps) (replicate (length (map p_kind ps)) EmptyString))
    = Ok ys.
Proof.
  intros Hp. apply rmap_defined. rewrite zip_replicate by reflexivity.
  induction Hp as [|p ps [k Hk] _ IH]; simpl; constructor; [|exact IH].
  unfold convert_parameter. simpl. rewrite Hk. eexists; reflexivity.
Qed.

Lemma generate_enum_operand_kind_entry_defined category e m :
  renderable_enumerant category e ->
  exists d, generate_enum_operand_kind_entry e m = Ok d.
Proof.
  intros ([name Hn] & Hw & Hp). apply well_valued_value in Hw as [v Hv].
  unfold generate_enum_operand_kind_entry, EnumerantInitializer_init.
  rewrite Hn, Hv.
  destruct (convert_parameters_defined _ Hp) as [ys ->].
  eexists; reflexivity.
Qed.




(** ** Merging the extensions of aliases *)

Lemma rfold_app {A S} (f : S -> A -> result S) l1 l2 s :
  rfold f (l1 ++ l2) s = (s' ← rfold f l1 s; rfold f l2 s').
Proof.
  revert s. induction l1 as [|x l1 IH]; intros s; simpl; [reflexivity|].
  destruct (f s x); simpl; [apply IH | reflexivity].
Qed.

Lemma rfold_members (kinds : list OperandKind) s :
  rfold (fun exts kind_entry =>
           rfold (collect_extensions (k_kind kind_entry))
                 (get_list (k_enumerants kind_entry)) exts)
        kinds s
  = rfold (fun exts m => collect_extensions m.1 exts m.2) (members kinds) s.
Proof.
  revert s. induction kinds as [|k kinds IH]; intros s; [reflexivity|].
  unfold members. simpl. fold (members kinds). rewrite rfold_app.
  assert (forall es s0,
             rfold (fun exts m => collect_extensions m.1 exts m.2)
                   (map (fun e => (k_kind k, e)) es) s0
             = rfold (collect_extensions (k_kind k)) es s0) as ->.
  { induction es as [|e es IHes]; intros s0; simpl; [reflexivity|].
    destruct (collect_extensions (k_kind k) s0 e); simpl; [apply IHes | reflexivity]. }
  destruct (rfold _ (get_list (k_enumerants k)) s); simpl; [apply IH | reflexivity].
Qed.

Lemma group_extensions_app key ms1 ms2 :
  group_extensions key (ms1 ++ ms2)
  = group_extensions key ms1 ++ group_extensions key ms2.
Proof. unfold group_extensions. apply flat_map_app. Qed.

Lemma group_extensions_elem key ms x :
  x ∈ group_extensions key ms <->
  exists m, m ∈ ms /\ member_key m = Ok key /\ x ∈ get_list (e_extensions m.2).
Proof.
  unfold group_extensions. rewrite list_elem_of_In, in_flat_map. split.
  - intros (m & Hm & Hx). exists m. rewrite list_elem_of_In. split; [exact Hm|].
    case_decide; [|inversion Hx]. split; [assumption|].
    apply list_elem_of_In, Hx.
  - intros (m & Hm & Hk & Hx). exists m. rewrite <- list_elem_of_In.
    split; [exact Hm|]. rewrite decide_True by exact Hk.
    apply list_elem_of_In, Hx.
Qed.

Lemma group_extensions_none key ms :
  (forall m, m ∈ ms -> member_key m <> Ok key) -> group_extensions key ms = [].
Proof.
  intros Hn. induction ms as [|m ms IH]; [reflexivity|].
  unfold group_extensions. simpl. fold (group_extensions key ms).
  rewrite decide_False by (apply Hn; left). simpl. apply IH.
  intros m' Hm'. apply Hn. right. exact Hm'.
Qed.

Lemma collect_extensions_collected ms exts m exts' :
  collected ms exts ->
  collect_extensions m.1 exts m.2 = Ok exts' ->
  collected (ms ++ [m]) exts'.
Proof.
  intros (Hval & Hdom & Hback). unfold collect_extensions.
  fold (member_key m). destruct (member_key m) as [key0|] eqn:Hk; simpl; [|discriminate].
  intros [= <-].
  assert (group_extensions key0 [m] = get_list (e_extensions m.2)) as Hg0.
  { unfold group_extensions. simpl. rewrite decide_True by exact Hk.
    apply app_nil_r. }
  split; [|split].
  - intros key l. rewrite group_extensions_app.
    destruct (decide (key0 = key)) as [<-|Hne].
    + rewrite lookup_insert_eq. intros [= <-]. rewrite Hg0.
      destruct (exts !! key0) as [l0|] eqn:E.
      * rewrite (Hval _ _ E). apply sorted_set_idemp_app.
      * rewrite group_extensions_none; [reflexivity|].
        intros m' Hm' Hk'. pose proof (Hdom _ _ Hm' Hk') as [? ?]. congruence.
    + rewrite lookup_insert_ne by exact Hne. intros E.
      rewrite (group_extensions_none key [m]).
      * rewrite app_nil_r. apply Hval, E.
      * intros m' Hm'. apply list_elem_of_singleton in Hm' as ->. congruence.
  - intros m' key Hm' Hk'.
    destruct (decide (key0 = key)) as [<-|Hne].
    + rewrite lookup_insert_eq. eexists; reflexivity.
    + rewrite lookup_insert_ne by exact Hne.
      apply elem_of_app in Hm' as [Hm'|Hm'].
      * eapply Hdom; eassumption.
      * apply list_elem_of_singleton in Hm' as ->. congruence.
  - intros key. destruct (decide (key0 = key)) as [<-|Hne].
    + intros _. exists m. split; [apply elem_of_app; right; left | exact Hk].
    + rewrite lookup_insert_ne by exact Hne. intros Hs.
      destruct (Hback _ Hs) as (m' & Hm' & Hk').
      exists m'. split; [apply elem_of_app; left; exact Hm' | exact Hk'].
Qed.

Lemma rfold_collected ms0 ms exts exts' :
  collected ms0 exts ->
  rfold (fun exts m => collect_extensions m.1 exts m.2) ms exts = Ok exts' ->
  collected (ms0 ++ ms) exts'.
Proof.
  revert ms0 exts. induction ms as [|m ms IH]; intros ms0 exts Hc; simpl.
  - intros [= <-]. rewrite app_nil_r. exact Hc.
  - destruct (collect_extensions m.1 exts m.2) as [exts1|] eqn:E; simpl; [|discriminate].
    intros Hr. replace (ms0 ++ m :: ms) with ((ms0 ++ [m]) ++ ms)
      by (rewrite <- List.app_assoc; reflexivity).
    eapply IH; [|exact Hr]. eapply collect_extensions_collected; eassumption.
Qed.

Lemma collected_empty : collected [] ∅.
Proof.
  split; [|split].
  - intros key l. rewrite lookup_empty. discriminate.
  - intros m key Hm. inversion Hm.
  - intros key [? Hs]. rewrite lookup_empty in Hs. discriminate.
Qed.

Lemma assign_extensions_spec ms exts kind e e' :
  collected ms exts ->
  (kind, e) ∈ ms ->
  assign_extensions kind exts e = Ok e' ->
  same_but_extensions e e' /\
  exists key,
    merge_key kind (e_value e) = Ok key /\
    let union := sorted_set (group_extensions key ms) in
    get_list (e_extensions e') = union /\
    (union <> [] -> e_extensions e' = Some union) /\
    (union = [] -> e' = e).
Proof.
  intros (Hval & _ & _) Hm. unfold assign_extensions.
  destruct (merge_key kind (e_value e)) as [key|] eqn:Hk; simpl; [|discriminate].
  destruct (exts !! key) as [l|] eqn:El; simpl; [|discriminate].
  pose proof (Hval _ _ El) as Hl.
  destruct (0 <? length l)%nat eqn:Hlen; intros [= <-].
  - split; [repeat split|]. exists key. split; [reflexivity|]. simpl.
    rewrite <- Hl. split; [reflexivity|]. split; [reflexivity|].
    intros ->. discriminate.
  - apply Nat.ltb_ge in Hlen. destruct l; [|simpl in Hlen; lia].
    split; [repeat split|]. exists key. split; [reflexivity|]. simpl.
    rewrite <- Hl. split; [|split; [congruence | reflexivity]].
    destruct (get_list (e_extensions e)) as [|x xs] eqn:Ex; [reflexivity|].
    assert (x ∈ sorted_set (group_extensions key ms)) as Hx.
    { apply sorted_set_elem, group_extensions_elem.
      exists (kind, e). split; [exact Hm|]. split; [exact Hk|].
      simpl. rewrite Ex. left. }
    rewrite <- Hl in Hx. inversion Hx.
Qed.

Lemma elem_of_members kinds k e :
  k ∈ kinds -> e ∈ get_list (k_enumerants k) -> (k_kind k, e) ∈ members kinds.
Proof.
  intros Hk He. unfold members. apply list_elem_of_In, in_flat_map.
  exists k. split; [apply list_elem_of_In, Hk|].
  apply in_map, list_elem_of_In, He.
Qed.

Lemma Forall2_elem_l {A B} (P Q : A -> B -> Prop) l l' :
  Forall2 P l l' -> (forall x y, x ∈ l -> P x y -> Q x y) -> Forall2 Q l l'.
Proof.
  induction 1 as [|x y l l' Hxy _ IH]; intros Hl; constructor.
  - apply Hl; [left | exact Hxy].
  - apply IH. intros a b Ha. apply Hl. right. exact Ha.
Qed.

Lemma precondition_operand_kinds_spec (operand_kinds out : list OperandKind) :
  precondition_operand_kinds operand_kinds = Ok out ->
  Forall2 (fun k k' =>
     k_kind k' = k_kind k /\ k_category k' = k_category k /\
     Forall2 (fun e e' =>
        same_but_extensions e e' /\
        exists key,
          merge_key (k_kind k) (e_value e) = Ok key /\
          let union :=
            sorted_set (group_extensions key (members operand_kinds)) in
          get_list (e_extensions e') = union /\
          (union <> [] -> e_extensions e' = Some union) /\
          (union = [] -> e' = e))
       (get_list (k_enumerants k)) (get_list (k_enumerants k')))
    operand_kinds out.
Proof.
  intros Hp.
  unfold precondition_operand_kinds in Hp. rewrite rfold_members in Hp.
  destruct (rfold _ (members operand_kinds) ∅) as [exts|] eqn:Hf; simpl in Hp;
    [|discriminate].
  pose proof (rfold_collected [] _ _ _ collected_empty Hf) as Hc.
  simpl in Hc. apply rmap_ok in Hp.
  eapply Forall2_elem_l; [exact Hp|]. clear Hp.
  intros k k' Hk. simpl.
  destruct (k_enumerants k) as [es|] eqn:Ees.
  - destruct (rmap _ es) as [es'|] eqn:Hes; simpl; [|discriminate].
    intros [= <-]. simpl. split; [reflexivity|]. split; [reflexivity|].
    apply rmap_ok in Hes. eapply Forall2_elem_l; [exact Hes|].
    intros e e' He Ha. eapply assign_extensions_spec; try eassumption.
    apply elem_of_members; [exact Hk|]. rewrite Ees. exact He.
  - intros [= <-]. split; [reflexivity|]. split; [reflexivity|].
    rewrite Ees. constructor.
Qed.

Lemma named_members kinds :
  Forall (fun k => get_list (k_enumerants k) <> [] -> is_Some (k_kind k)) kinds ->
  Forall (fun m : option string * Enumerant => is_Some m.1) (members kinds).
Proof.
  intros Hk. apply List.Forall_forall. intros m Hm.
  apply in_flat_map in Hm as (k & Hin & Hm).
  apply in_map_iff in Hm as (e & <- & He). simpl.
  rewrite List.Forall_forall in Hk. apply (Hk k Hin).
  intros Hnil. rewrite Hnil in He. inversion He.
Qed.

Lemma rfold_collect_defined ms exts :
  Forall (fun m : option string * Enumerant => is_Some m.1) ms ->
  exists exts',
    rfold (fun exts m => collect_extensions m.1 exts m.2) ms exts = Ok exts'.
Proof.
  intros Hm. revert exts.
  induction Hm as [|m ms [kind Hkind] _ IH]; intros exts; simpl.
  - eexists; reflexivity.
  - unfold collect_extensions at 1. rewrite Hkind. simpl. apply IH.
Qed.

Lemma assign_extensions_defined ms exts kind e :
  collected ms exts -> (kind, e) ∈ ms -> is_Some kind ->
  exists e', assign_extensions kind exts e = Ok e'.
Proof.
  intros (_ & Hdom & _) Hm [k ->]. unfold assign_extensions. simpl.
  destruct (Hdom (Some k, e) (k +:+ "." +:+ str_opt_value (e_value e)) Hm eq_refl)
    as [l Hl].
  rewrite Hl. simpl.
  destruct (0 <? length l)%nat; eexists; reflexivity.
Qed.

(** The merge succeeds when every kind that has enumerants has a name. *)
Lemma precondition_operand_kinds_defined operand_kinds :
  Forall (fun k => get_list (k_enumerants k) <> [] -> is_Some (k_kind k))
         operand_kinds ->
  exists out, precondition_operand_kinds operand_kinds = Ok out.
Proof.
  intros Hk. unfold precondition_operand_kinds. rewrite rfold_members.
  destruct (rfold_collect_defined (members operand_kinds) ∅ (named_members _ Hk))
    as [exts Hf].
  rewrite Hf. simpl.
  pose proof (rfold_collected [] _ _ _ collected_empty Hf) as Hc. simpl in Hc.
  apply rmap_defined. apply List.Forall_forall. intros k Hin.
  destruct (k_enumerants k) as [es|] eqn:Ees; [|eexists; reflexivity].
  assert (exists es', rmap (assign_extensions (k_kind k) exts) es = Ok es')
    as [es' ->]; [|eexists; reflexivity].
  apply rmap_defined, List.Forall_forall. intros e He.
  eapply assign_extensions_defined; [exact Hc| |].
  - apply elem_of_members; [apply list_elem_of_In, Hin|].
    rewrite Ees. apply list_elem_of_In, He.
  - rewrite List.Forall_forall in Hk. apply (Hk k Hin).
    rewrite Ees. simpl. intros ->. inversion He.
Qed.

(** C1, as amended.  When every operand kind that has enumerants has a
    name, [precondition_operand_kinds] returns the kinds and enumerants
    of the input, changed only in their extension lists.  The enumerants
    are grouped by the string [kind.value] (those of one kind that share
    a value are in one group); the extension list of every member of a
    group is the union of the lists of the group, without duplicates and
    in ascending order of the names (not in declaration order).  A
    member is overwritten with that list when the list is not empty and
    is left as it was otherwise. *)
Theorem precondition_operand_kinds_merges (operand_kinds : list OperandKind) :
  Forall (fun k => get_list (k_enumerants k) <> [] -> is_Some (k_kind k))
         operand_kinds ->
  exists out,
    precondition_operand_kinds operand_kinds = Ok out /\
    Forall2 (fun k k' =>
       k_kind k' = k_kind k /\ k_category k' = k_category k /\
       Forall2 (fun e e' =>
          same_but_extensions e e' /\
          exists key,
            merge_key (k_kind k) (e_value e) = Ok key /\
            let union :=
              sorted_set (group_extensions key (members operand_kinds)) in
            get_list (e_extensions e') = union /\
            (union <> [] -> e_extensions e' = Some union) /\
            (union = [] -> e' = e))
         (get_list (k_enumerants k)) (get_list (k_enumerants k')))
      operand_kinds out /\
    (forall key,
        let union := sorted_set (group_extensions key (members operand_kinds)) in
        NoDup union /\ key_sorted id union /\
        forall x, x ∈ union <->
                  exists m, m ∈ members operand_kinds /\ member_key m = Ok key /\
                            x ∈ get_list (e_extensions m.2)) /\
    (forall k e1 e2,
        e_value e1 = e_value e2 ->
        merge_key (k_kind k) (e_value e1) = merge_key (k_kind k) (e_value e2)).
Proof.
  intros Hk. destruct (precondition_operand_kinds_defined _ Hk) as [out Hp].
  exists out. split; [exact Hp|]. split; [|split].
  - apply precondition_operand_kinds_spec, Hp.
  - intros key union. split; [apply sorted_set_NoDup|].
    split; [apply sorted_set_sorted|].
    intros x. unfold union. rewrite sorted_set_elem. apply group_extensions_elem.
  - intros k e1 e2 ->. reflexivity.
Qed.

Lemma rfold_raises {A S} (f : S -> A -> result S) l x e s :
  In x l -> (forall s', f s' x = Raise e) ->
  (forall s' y e', f s' y = Raise e' -> e' = e) ->
  rfold f l s = Raise e.
Proof.
  intros Hin Hx Honly. revert s.
  induction l as [|y l IH]; intros s; simpl; [elim Hin|].
  destruct Hin as [->|Hin].
  - rewrite Hx. reflexivity.
  - destruct (f s y) as [s'|e'] eqn:E; simpl.
    + apply IH, Hin.
    + f_equal. eapply Honly, E.
Qed.

Lemma collect_extensions_raises kind exts e x :
  collect_extensions kind exts e = Raise x -> x = TypeError.
Proof.
  unfold collect_extensions, merge_key. destruct kind; simpl; congruence.
Qed.

Lemma precondition_operand_kinds_unnamed operand_kinds :
  Exists unnamed_with_enumerants operand_kinds ->
  precondition_operand_kinds operand_kinds = Raise TypeError.
Proof.
  intros He. apply Exists_exists in He as (k & Hk & Hne & Hnone).
  unfold precondition_operand_kinds. rewrite rfold_members.
  destruct (get_list (k_enumerants k)) as [|e es] eqn:Ees; [congruence|].
  rewrite (rfold_raises _ (members operand_kinds) (None, e) TypeError); [reflexivity| | |].
  - unfold members. apply in_flat_map. exists k.
    split; [apply list_elem_of_In, Hk|]. rewrite Hnone, Ees. left. reflexivity.
  - intros s'. reflexivity.
  - intros s' y e'. apply collect_extensions_raises.
Qed.

(** ** The extension registry *)

Lemma get_extension_list_collision instructions operand_kinds item :
  item ∈ split EXTENSIONS_FROM_SPIRV_REGISTRY_AND_NOT_FROM_GRAMMARS ->
  item ∈ declared_extensions instructions operand_kinds ->
  get_extension_list instructions operand_kinds = Raise AssertionError.
Proof.
  intros Hs Hd. unfold get_extension_list.
  set (check := fun item : string => assert _).
  destruct (rmap_raises check
              (split EXTENSIONS_FROM_SPIRV_REGISTRY_AND_NOT_FROM_GRAMMARS)
              item AssertionError) as [e He].
  - apply list_elem_of_In, Hs.
  - unfold check, assert. rewrite bool_decide_eq_true_2 by exact Hd. reflexivity.
  - rewrite He. simpl. f_equal.
    apply (rmap_raises_only check _ AssertionError) in He; [exact He|].
    intros x e'. unfold check, assert. destruct (negb _); congruence.
Qed.

Lemma declared_extensions_ext i1 i2 k1 k2 :
  map i_extensions i1 = map i_extensions i2 ->
  map k_enumerants k1 = map k_enumerants k2 ->
  declared_extensions i1 k1 = declared_extensions i2 k2.
Proof.
  intros Hi Hk. unfold declared_extensions, all_enumerants.
  rewrite Hi. do 4 f_equal.
  rewrite <- !(map_map k_enumerants get_list), Hk. reflexivity.
Qed.

(** ** Prefixing keeps everything but the names of the kinds *)

Lemma prefix_kinds_spec prefix (l : list OperandKind) acc
    (m m' : gmap string string) kinds :
  rfold (fun '(kinds, old_to_new) operand_kind =>
           old_name ← subscript (k_kind operand_kind);
           let new_name := prefix +:+ old_name in
           Ok (kinds ++ [set_kind operand_kind new_name],
               <[old_name := new_name]> old_to_new))
        l (acc, m) = Ok (kinds, m') ->
  exists new, kinds = acc ++ new /\ Forall2 renamed_kind l new.
Proof.
  revert acc m. induction l as [|k l IH]; intros acc m; simpl.
  - intros [= <- <-]. exists []. rewrite app_nil_r. split; [reflexivity | constructor].
  - destruct (k_kind k) as [old|] eqn:Ek; simpl; [|discriminate].
    intros Hr. apply IH in Hr as (new & -> & Hnew).
    exists (set_kind k (prefix +:+ old) :: new). split.
    + rewrite <- List.app_assoc. reflexivity.
    + constructor; [|exact Hnew].
      unfold renamed_kind. rewrite Ek. simpl. eauto.
Qed.

Lemma prefix_instructions_extensions (rename : Operand -> result Operand)
    insts insts' :
  rmap (fun instruction =>
          match i_operands instruction with
          | Some operands =>
              operands ← rmap rename operands;
              Ok (set_operands instruction (Some operands))
          | None => Ok instruction
          end) insts = Ok insts' ->
  map i_extensions insts' = map i_extensions insts.
Proof.
  revert insts'. induction insts as [|i insts IH]; intros insts'; simpl.
  - intros [= <-]. reflexivity.
  - destruct (i_operands i) as [ops|].
    + destruct (rmap rename ops) as [ops'|]; simpl; [|discriminate].
      destruct (rmap _ insts) as [rest|]; simpl; [|discriminate].
      intros [= <-]. simpl. f_equal. apply IH. reflexivity.
    + simpl. destruct (rmap _ insts) as [rest|]; simpl; [|discriminate].
      intros [= <-]. simpl. f_equal. apply IH. reflexivity.
Qed.

Lemma prefix_operand_kind_names_spec prefix g g' :
  prefix_operand_kind_names prefix g = Ok g' ->
  exists insts kinds insts' kinds',
    g_instructions g = Some insts /\ g_operand_kinds g = Some kinds /\
    g_instructions g' = Some insts' /\ g_operand_kinds g' = Some kinds' /\
    map i_extensions insts' = map i_extensions insts /\
    Forall2 renamed_kind kinds kinds'.
Proof.
  unfold prefix_operand_kind_names.
  destruct (g_operand_kinds g) as [kinds|]; simpl; [|discriminate].
  destruct (rfold _ kinds _) as [[kinds' m]|] eqn:Hr; simpl; [|discriminate].
  destruct (g_instructions g) as [insts|]; simpl; [|discriminate].
  destruct (rmap _ insts) as [insts'|] eqn:Hi; simpl; [|discriminate].
  intros [= <-]. simpl.
  apply prefix_kinds_spec in Hr as (new & -> & Hnew).
  eexists insts, kinds, insts', new. repeat split; try reflexivity; [|exact Hnew].
  eapply prefix_instructions_extensions, Hi.
Qed.

Lemma renamed_kinds_enumerants kinds kinds' :
  Forall2 renamed_kind kinds kinds' ->
  map k_enumerants kinds' = map k_enumerants kinds.
Proof.
  induction 1 as [|k k' l l' (_ & _ & _ & He) _ IH]; simpl; [reflexivity|].
  rewrite He, IH. reflexivity.
Qed.

(** ** [main] *)

Lemma read_grammar_loads json_loads fs path g :
  loads json_loads fs path g ->
  read_grammar json_loads path fs = (fs, Done g).
Proof.
  intros (p & text & -> & Hp & Hg).
  unfold read_grammar, the_path, read_file, lift, mbind, IO_bind, mret, IO_ret.
  rewrite Hp, Hg. reflexivity.
Qed.

Lemma check_args_files args fs :
  check_args args fs = (fs, Done tt) \/
  check_args args fs = (fs, Abort (PyExn SystemExit)).
Proof.
  unfold check_args, when, exit, mbind, IO_bind, mret, IO_ret.
  repeat match goal with
         | |- context [if ?b then _ else _] => destruct b
         end; auto.
Qed.

(** What [main] does once the arguments are accepted and the three
    grammars are read. *)
Lemma main_after_loading json_loads args fs core dbg cl :
  loads json_loads fs (spirv_core_grammar args) core ->
  loads json_loads fs (extinst_debuginfo_grammar args) dbg ->
  loads json_loads fs (extinst_cldebuginfo100_grammar args) cl ->
  main json_loads args fs = (fs, Abort (PyExn SystemExit)) \/
  (check_args args fs = (fs, Done tt) /\
   match merge_grammars core dbg cl with
   | Raise e => main json_loads args fs = (fs, Abort (PyExn e))
   | Ok _ => True
   end).
Proof.
  intros H1 H2 H3. unfold main.
  destruct (check_args_files args fs) as [Hc|Hc].
  - right. split; [exact Hc|].
    destruct (merge_grammars core dbg cl) as [r|e] eqn:Hm; [exact I|].
    unfold mbind at 1, IO_bind at 1. rewrite Hc.
    destruct H1 as (p & text & Hp & Hf & Hg). rewrite Hp.
    unfold mbind at 1, IO_bind at 1. unfold main_core.
    unfold mbind at 1, IO_bind at 1.
    rewrite (read_grammar_loads json_loads fs _ core)
      by (exists p, text; rewrite <- Hp; auto).
    unfold mbind at 1, IO_bind at 1.
    rewrite (read_grammar_loads json_loads fs _ dbg) by exact H2.
    unfold mbind at 1, IO_bind at 1.
    rewrite (read_grammar_loads json_loads fs _ cl) by exact H3.
    unfold mbind at 1, IO_bind at 1. rewrite Hm. reflexivity.
  - left. unfold mbind at 1, IO_bind at 1. rewrite Hc. reflexivity.
Qed.

Lemma merge_grammars_inv core dbg cl insts extensions kinds :
  merge_grammars core dbg cl = Ok (insts, extensions, kinds) ->
  exists cl_insts cl_kinds merged,
    g_instructions core = Some insts /\
    map i_extensions cl_insts = map i_extensions (get_list (g_instructions cl)) /\
    Forall2 renamed_kind (get_list (g_operand_kinds cl)) cl_kinds /\
    merged = get_list (g_operand_kinds core) ++ get_list (g_operand_kinds dbg)
               ++ cl_kinds /\
    get_extension_list
      (insts ++ get_list (g_instructions dbg) ++ cl_insts) merged = Ok extensions /\
    precondition_operand_kinds merged = Ok kinds.
Proof.
  unfold merge_grammars.
  destruct (prefix_operand_kind_names _ cl) as [cl'|] eqn:Hp; simpl; [|discriminate].
  apply prefix_operand_kind_names_spec in Hp
    as (i3 & k3 & i3' & k3' & Hi3 & Hk3 & Hi3' & Hk3' & Hext & Hren).
  rewrite Hi3', Hk3'.
  destruct (g_instructions core) as [i1|]; simpl; [|discriminate].
  destruct (g_instructions dbg) as [i2|]; simpl; [|discriminate].
  destruct (g_operand_kinds core) as [k1|]; simpl; [|discriminate].
  destruct (g_operand_kinds dbg) as [k2|]; simpl; [|discriminate].
  destruct (get_extension_list _ _) as [exts|] eqn:He; simpl; [|discriminate].
  destruct (precondition_operand_kinds _) as [kinds'|] eqn:Hpre; simpl; [|discriminate].
  intros [= <- <- <-]. exists i3', k3', (k1 ++ k2 ++ k3').
  rewrite Hi3, Hk3. simpl. repeat split; assumption.
Qed.

Lemma merge_grammars_collision core dbg cl name :
  name ∈ split EXTENSIONS_FROM_SPIRV_REGISTRY_AND_NOT_FROM_GRAMMARS ->
  name ∈ declared_extensions (merged_instructions core dbg cl)
                             (merged_operand_kinds core dbg cl) ->
  exists e, merge_grammars core dbg cl = Raise e.
Proof.
  intros Hs Hd.
  destruct (merge_grammars core dbg cl) as [[[insts exts] kinds]|e] eqn:Hm;
    [|eexists; reflexivity].
  apply merge_grammars_inv in Hm
    as (i3 & k3 & merged & Hi1 & Hi3 & Hk3 & -> & He & _).
  rewrite (get_extension_list_collision _ _ name Hs) in He; [discriminate|].
  erewrite declared_extensions_ext; [exact Hd| |].
  - unfold merged_instructions. rewrite Hi1, !map_app, Hi3. reflexivity.
  - unfold merged_operand_kinds.
    rewrite !map_app, (renamed_kinds_enumerants _ _ Hk3). reflexivity.
Qed.

(** C7.  When a name of the supplementary list is also declared as an
    extension by an instruction or an enumerant of the three merged
    grammars, [get_extension_list] fails on its assertion and [main]
    aborts with the files as they were: no output file has been created,
    and the name has not been merged away. *)
Theorem registry_collision_is_fatal (json_loads : string -> result Grammar)
    (args : Args) (fs : files) (core dbg cl : Grammar) (name : string) :
  loads json_loads fs (spirv_core_grammar args) core ->
  loads json_loads fs (extinst_debuginfo_grammar args) dbg ->
  loads json_loads fs (extinst_cldebuginfo100_grammar args) cl ->
  name ∈ split EXTENSIONS_FROM_SPIRV_REGISTRY_AND_NOT_FROM_GRAMMARS ->
  name ∈ declared_extensions (merged_instructions core dbg cl)
                             (merged_operand_kinds core dbg cl) ->
  get_extension_list (merged_instructions core dbg cl)
                     (merged_operand_kinds core dbg cl)
  = Raise AssertionError /\
  exists e, main json_loads args fs = (fs, Abort e).
Proof.
  intros H1 H2 H3 Hs Hd. split.
  - eapply get_extension_list_collision; eassumption.
  - destruct (main_after_loading json_loads args fs core dbg cl H1 H2 H3)
      as [Hm|[_ Hm]]; [eexists; exact Hm|].
    destruct (merge_grammars_collision core dbg cl name Hs Hd) as [e He].
    rewrite He in Hm. eexists; exact Hm.
Qed.

(** ** Malformed grammars *)

Lemma generate_instruction_table_unnamed insts :
  Exists (fun i => i_opname i = None) insts ->
  generate_instruction_table insts = Raise KeyError.
Proof.
  intros He. apply Exists_exists in He as (i & Hi & Hn).
  unfold generate_instruction_table, sorted_key.
  destruct (rmap_raises instruction_key insts i KeyError) as [e He].
  - apply list_elem_of_In, Hi.
  - unfold instruction_key. rewrite Hn. destruct (i_opcode i); reflexivity.
  - rewrite He. simpl. f_equal.
    apply (rmap_raises_only instruction_key insts KeyError) in He; [exact He|].
    intros x e'. unfold instruction_key.
    destruct (i_opcode x), (i_opname x); simpl; congruence.
Qed.

Lemma zip_sorted_perm {A K} `{PyOrd K} (keys : list K) (l : list A) :
  length keys = length l ->
  Permutation (map snd (sorted_by fst (zip keys l))) l.
Proof.
  intros Hl. rewrite (sorted_by_perm fst).
  change (map snd (zip keys l)) with ((zip keys l).*2).
  rewrite snd_zip by lia. reflexivity.
Qed.

Lemma sorted_key_perm {A K} `{PyOrd K} (key : A -> result K) l out :
  sorted_key key l = Ok out -> Permutation out l.
Proof.
  unfold sorted_key. destruct (rmap key l) as [keys|] eqn:E; simpl; [|discriminate].
  intros [= <-]. apply zip_sorted_perm.
  apply rmap_ok, Forall2_length in E. lia.
Qed.

Lemma sort_enumerants_perm category l out :
  sort_enumerants category l = Ok out -> Permutation out l.
Proof.
  unfold sort_enumerants. case_decide.
  - unfold sorted_by_value.
    destruct (rmap _ l) as [keys|] eqn:E; simpl; [|discriminate].
    apply rmap_ok, Forall2_length in E.
    destruct (mapM as_int keys) as [ns|] eqn:En.
    + intros [= <-]. apply zip_sorted_perm. apply length_mapM in En. lia.
    + destruct (mapM as_str keys) as [ss|] eqn:Es; [|discriminate].
      intros [= <-]. apply zip_sorted_perm. apply length_mapM in Es. lia.
  - apply sorted_key_perm.
Qed.

Lemma sort_enumerants_missing_value category l e :
  e ∈ l -> e_value e = None -> exists x, sort_enumerants category l = Raise x.
Proof.
  intros He Hv. unfold sort_enumerants. case_decide.
  - unfold sorted_by_value.
    destruct (rmap_raises (fun k => subscript (e_value k)) l e KeyError) as [x ->].
    + apply list_elem_of_In, He.
    + rewrite Hv. reflexivity.
    + eexists; reflexivity.
  - unfold sorted_key.
    destruct (rmap_raises hex_key l e KeyError) as [x ->].
    + apply list_elem_of_In, He.
    + unfold hex_key. rewrite Hv. reflexivity.
    + eexists; reflexivity.
Qed.

Lemma generate_enum_operand_kind_malformed k exts :
  k_kind k = None \/
  (exists e, e ∈ get_list (k_enumerants k) /\
             (e_enumerant e = None \/ e_value e = None)) ->
  exists x, generate_enum_operand_kind k exts = Raise x.
Proof.
  unfold generate_enum_operand_kind.
  intros [Hk|(e & He & Hm)]; [rewrite Hk; eexists; reflexivity|].
  destruct (k_kind k) as [kind|]; simpl; [|eexists; reflexivity].
  destruct (sort_enumerants _ _) as [entries|] eqn:Hs; simpl; [|eexists; reflexivity].
  destruct (e_value e) as [v|] eqn:Hv.
  - destruct Hm as [Hn|]; [|discriminate].
    set (m := extension_map_fill entries _).
    destruct (rmap_raises
                (fun e => row ← generate_enum_operand_kind_entry e m; Ok ("  " +:+ row))
                entries e AssertionError) as [x ->].
    + apply sort_enumerants_perm in Hs. apply list_elem_of_In. rewrite Hs. exact He.
    + unfold generate_enum_operand_kind_entry. rewrite Hn. reflexivity.
    + eexists; reflexivity.
  - destruct (sort_enumerants_missing_value (k_category k) _ e He Hv) as [x Hx].
    congruence.
Qed.

Lemma generate_enum_operand_kinds_raises enums exts k :
  k ∈ enums ->
  (forall exts', exists x, generate_enum_operand_kind k exts' = Raise x) ->
  exists x, generate_enum_operand_kinds enums exts = Raise x.
Proof.
  intros Hk Hr. revert exts.
  induction Hk as [k enums|k k' enums Hk IH]; intros exts; simpl.
  - destruct (Hr exts) as [x ->]. eexists; reflexivity.
  - destruct (generate_enum_operand_kind k' exts) as [[t exts']|]; simpl;
      [|eexists; reflexivity].
    destruct (IH Hr exts') as [x ->]. eexists; reflexivity.
Qed.

Lemma generate_operand_kind_table_malformed kinds :
  Exists malformed_kind kinds ->
  exists x, generate_operand_kind_table kinds = Raise x.
Proof.
  intros He. apply Exists_exists in He as (k & Hk & Ht & Hm).
  unfold generate_operand_kind_table.
  match goal with
  | |- context [generate_enum_operand_kinds ?enums ?exts] =>
      destruct (generate_enum_operand_kinds_raises enums exts k) as [x ->]
  end.
  - apply list_elem_of_In, filter_In. split; [apply list_elem_of_In, Hk | exact Ht].
  - intros exts'. apply generate_enum_operand_kind_malformed, Hm.
  - eexists; reflexivity.
Qed.

Lemma Forall2_Exists {A B} (R : A -> B -> Prop) (P : A -> Prop) (Q : B -> Prop) l l' :
  Forall2 R l l' -> (forall x y, R x y -> P x -> Q y) ->
  Exists P l -> Exists Q l'.
Proof.
  intros HR HPQ. induction HR as [|x y l l' Hxy _ IH]; intros He.
  - inversion He.
  - inversion He as [? ? Hx|? ? Hl]; subst.
    + left. eapply HPQ; eassumption.
    + right. apply IH, Hl.
Qed.

Lemma tabulated_category k k' :
  k_category k' = k_category k -> tabulated k' = tabulated k.
Proof. unfold tabulated. intros ->. reflexivity. Qed.

Lemma renamed_kind_malformed k k' :
  renamed_kind k k' -> malformed_kind k -> malformed_kind k'.
Proof.
  intros ([n Hn] & _ & Hc & He) [Ht Hm]. split.
  - rewrite (tabulated_category _ _ Hc). exact Ht.
  - right. rewrite He. destruct Hm as [Hm|Hm]; [congruence | exact Hm].
Qed.

Lemma precondition_malformed kinds out :
  precondition_operand_kinds kinds = Ok out ->
  Exists malformed_kind kinds -> Exists malformed_kind out.
Proof.
  intros Hp. apply precondition_operand_kinds_spec in Hp.
  eapply Forall2_Exists; [exact Hp|]. clear.
  intros k k' (Hk & Hc & Hes) [Ht Hm]. split.
  - rewrite (tabulated_category _ _ Hc). exact Ht.
  - destruct Hm as [Hm|(e & He & Hm)]; [left; congruence|]. right.
    apply list_elem_of_lookup in He as [n Hn].
    destruct (Forall2_lookup_l _ _ _ _ _ Hes Hn) as (e' & Hn' & (Hname & Hval & _) & _).
    exists e'. split; [eapply list_elem_of_lookup_2, Hn'|].
    rewrite Hname, Hval. exact Hm.
Qed.

(** What [main] leaves behind when one of the two tables cannot be
    rendered. *)
Lemma main_writes_tables json_loads args fs core dbg cl insts exts kinds
    core_out kinds_out :
  loads json_loads fs (spirv_core_grammar args) core ->
  loads json_loads fs (extinst_debuginfo_grammar args) dbg ->
  loads json_loads fs (extinst_cldebuginfo100_grammar args) cl ->
  check_args args fs = (fs, Done tt) ->
  merge_grammars core dbg cl = Ok (insts, exts, kinds) ->
  core_insts_output args = Some core_out ->
  operand_kinds_output args = Some kinds_out ->
  match generate_instruction_table insts with
  | Raise e =>
      main json_loads args fs = (<[core_out := EmptyString]> fs, Abort (PyExn e))
  | Ok table =>
      match generate_operand_kind_table kinds with
      | Raise e =>
          main json_loads args fs
          = (<[kinds_out := EmptyString]> (<[core_out := table]> fs),
             Abort (PyExn e))
      | Ok _ => True
      end
  end.
Proof.
  intros H1 H2 H3 Hc Hm Hco Hko.
  assert (read_grammar json_loads (spirv_core_grammar args) fs = (fs, Done core))
    as Hr1 by (apply read_grammar_loads, H1).
  destruct H1 as (p & _ & Hp & _).
  destruct (generate_instruction_table insts) as [table|e] eqn:Ht;
    [destruct (generate_operand_kind_table kinds) as [?|e] eqn:Hk; [exact I|] |].
  all: unfold main; unfold mbind at 1, IO_bind at 1; rewrite Hc, Hp;
    unfold mbind at 1, IO_bind at 1; unfold main_core;
    unfold mbind at 1, IO_bind at 1; rewrite Hr1;
    unfold mbind at 1, IO_bind at 1;
    rewrite (read_grammar_loads json_loads fs _ dbg) by exact H2;
    unfold mbind at 1, IO_bind at 1;
    rewrite (read_grammar_loads json_loads fs _ cl) by exact H3;
    unfold mbind at 1, IO_bind at 1; rewrite Hm; simpl lift; cbv iota beta;
    rewrite Hco, Hko;
    unfold make_path_to_file, the_path, write_file, mbind, IO_bind, mret, IO_ret;
    rewrite Ht.
  - rewrite Hk, insert_insert_eq. reflexivity.
  - reflexivity.
Qed.

Lemma merge_grammars_malformed core dbg cl insts exts kinds :
  merge_grammars core dbg cl = Ok (insts, exts, kinds) ->
  insts = get_list (g_instructions core) /\
  (Exists malformed_kind (merged_operand_kinds core dbg cl) ->
   Exists malformed_kind kinds).
Proof.
  intros Hm. apply merge_grammars_inv in Hm
    as (i3 & k3 & merged & Hi1 & _ & Hk3 & -> & _ & Hpre).
  split; [rewrite Hi1; reflexivity|].
  intros He. apply (precondition_malformed _ _ Hpre).
  unfold merged_operand_kinds in He.
  rewrite !Exists_app in He. rewrite !Exists_app.
  destruct He as [He|[He|He]]; auto. right. right.
  eapply Forall2_Exists; [exact Hk3 | | exact He].
  intros k k'. apply renamed_kind_malformed.
Qed.

Lemma merge_grammars_unnamed core dbg cl :
  Exists unnamed_with_enumerants (merged_operand_kinds core dbg cl) \/
  Exists (fun k => k_kind k = None) (get_list (g_operand_kinds cl)) ->
  exists e, merge_grammars core dbg cl = Raise e.
Proof.
  intros Hbad.
  destruct (merge_grammars core dbg cl) as [[[insts exts] kinds]|e] eqn:Hm;
    [exfalso | eauto].
  apply merge_grammars_inv in Hm as (i3 & k3 & merged & _ & _ & Hk3 & -> & _ & Hpre).
  assert (Forall (fun k => is_Some (k_kind k)) (get_list (g_operand_kinds cl)))
    as Hcl.
  { clear -Hk3. induction Hk3 as [|k k' ks ks' Hr _ IH]; constructor; [|exact IH].
    destruct Hr as [Hs _]. exact Hs. }
  assert (forall k, k ∈ get_list (g_operand_kinds cl) -> is_Some (k_kind k)) as Hsome.
  { intros k Hk. apply (proj1 (List.Forall_forall _ _) Hcl), list_elem_of_In, Hk. }
  assert (forall k, k ∈ get_list (g_operand_kinds cl) -> k_kind k <> None) as Hnn.
  { intros k Hk Hn. destruct (Hsome k Hk) as [x Hx]. congruence. }
  destruct Hbad as [Hbad|Hbad].
  - unfold merged_operand_kinds in Hbad.
    assert (Exists unnamed_with_enumerants
              (get_list (g_operand_kinds core) ++ get_list (g_operand_kinds dbg) ++ k3))
      as Hex.
    { apply Exists_app in Hbad as [Hbad|Hbad]; [apply Exists_app; left; exact Hbad|].
      apply Exists_app in Hbad as [Hbad|Hbad].
      - apply Exists_app; right. apply Exists_app; left; exact Hbad.
      - exfalso. apply Exists_exists in Hbad as (k & Hk & _ & Hn).
        exact (Hnn k Hk Hn). }
    rewrite (precondition_operand_kinds_unnamed _ Hex) in Hpre. discriminate.
  - apply Exists_exists in Hbad as (k & Hk & Hn). exact (Hnn k Hk Hn).
Qed.

(** C2, as amended.  With the three grammars read and both tables
    requested, [main] aborts when a required field is absent: the name
    of a core instruction; the name of an operand kind that has
    enumerants, that belongs to the OpenCL debug-info grammar, or that
    is a value or bit enumeration; or the name or the value of an
    enumerant of a value or bit enumeration.  No partial table is
    written: the files are as they were, or the instruction table is
    left empty, or the instruction table is complete and the operand
    kind table is left empty.  The files are as they were when the kind
    without a name has enumerants or belongs to the OpenCL debug-info
    grammar; otherwise a table written before the failure stays
    written. *)
Theorem malformed_grammar_aborts (json_loads : string -> result Grammar)
    (args : Args) (fs : files) (core dbg cl : Grammar)
    (core_out kinds_out : string) :
  loads json_loads fs (spirv_core_grammar args) core ->
  loads json_loads fs (extinst_debuginfo_grammar args) dbg ->
  loads json_loads fs (extinst_cldebuginfo100_grammar args) cl ->
  core_insts_output args = Some core_out ->
  operand_kinds_output args = Some kinds_out ->
  Exists (fun i => i_opname i = None) (get_list (g_instructions core)) \/
  Exists malformed_kind (merged_operand_kinds core dbg cl) \/
  Exists unnamed_with_enumerants (merged_operand_kinds core dbg cl) \/
  Exists (fun k => k_kind k = None) (get_list (g_operand_kinds cl)) ->
  exists fs' e,
    main json_loads args fs = (fs', Abort e) /\
    (fs' = fs \/
     fs' = <[core_out := EmptyString]> fs \/
     exists table,
       generate_instruction_table (get_list (g_instructions core)) = Ok table /\
       fs' = <[kinds_out := EmptyString]> (<[core_out := table]> fs)) /\
    (Exists unnamed_with_enumerants (merged_operand_kinds core dbg cl) \/
     Exists (fun k => k_kind k = None) (get_list (g_operand_kinds cl)) ->
     fs' = fs).
Proof.
  intros H1 H2 H3 Hco Hko Hbad.
  destruct (main_after_loading json_loads args fs core dbg cl H1 H2 H3)
    as [Hm|[Hc Hm]]; [eauto 8|].
  destruct (merge_grammars core dbg cl) as [[[insts exts] kinds]|e] eqn:Hmg;
    [clear Hm | eauto 8].
  assert (~ (Exists unnamed_with_enumerants (merged_operand_kinds core dbg cl) \/
             Exists (fun k => k_kind k = None) (get_list (g_operand_kinds cl))))
    as Hlate.
  { intros Hearly. destruct (merge_grammars_unnamed core dbg cl Hearly) as [e He].
    congruence. }
  pose proof (main_writes_tables json_loads args fs core dbg cl insts exts kinds
                core_out kinds_out H1 H2 H3 Hc Hmg Hco Hko) as Hw.
  apply merge_grammars_malformed in Hmg as [-> Hkinds].
  destruct (generate_instruction_table (get_list (g_instructions core)))
    as [table|e] eqn:Ht.
  2: { eexists _, _. split; [exact Hw|]. split; [auto | tauto]. }
  destruct Hbad as [Hbad|[Hbad|Hbad]]; [| |tauto].
  { rewrite (generate_instruction_table_unnamed _ Hbad) in Ht. discriminate. }
  destruct (generate_operand_kind_table_malformed kinds (Hkinds Hbad)) as [x Hx].
  rewrite Hx in Hw.
  eexists _, _. split; [exact Hw|]. split; [eauto | tauto].
Qed.

(** ** The operand kind table *)

(** With the three kinds present (once each), the table has one row per
    kind and one more row, with the optional identifier, for each of the
    three, and every array is emitted once. *)
Lemma kind_table_with_three_optional_kinds enums :
  length (List.filter is_optional_enum enums) = 3%nat ->
  kind_table_rows (with_optional_enums enums)
  = map (row_of EmptyString) enums
      ++ map (row_of "?") (List.filter is_optional_enum enums) /\
  emitted_entries (with_optional_enums enums) = map snd enums.
Proof.
  intros H3. unfold with_optional_enums. fold is_optional_enum.
  set (three := List.filter is_optional_enum enums) in *.
  split.
  - unfold kind_table_rows, zip3.
    rewrite length_app, H3, Nat.add_sub, !map_app.
    rewrite <- (length_map (fun e : string * string * string => e.1.1) enums) at 1.
    rewrite zip_replicate_app, zip_replicate by (rewrite length_map; symmetry; exact H3).
    rewrite !map_app, !map_map.
    rewrite zip_app, !zip_map_same by (rewrite !length_map; reflexivity).
    rewrite zip_app, !zip_map_same by (rewrite !length_map; reflexivity).
    reflexivity.
  - unfold emitted_entries.
    rewrite length_map, length_app, H3, Nat.add_sub, map_app.
    rewrite <- (length_map snd enums). apply take_app_length.
Qed.

(** ** Examples *)

(** C1, witness. *)
Lemma precondition_operand_kinds_merges_witness :
  exists out,
    precondition_operand_kinds ex_aliases = Ok out /\
    out = ex_aliases_merged.
Proof.
  destruct (precondition_operand_kinds_merges ex_aliases) as (out & Hp & _).
  - repeat constructor; eexists; reflexivity.
  - exists out. split; [exact Hp|].
    assert (Ok out = Ok ex_aliases_merged) as [= ->]; [|reflexivity].
    rewrite <- Hp. vm_compute. reflexivity.
Defined.

(** C1, counterexample.  The first alias declares [Y] and the second
    [X]: the union in declaration order is [Y, X], but both aliases end
    up with [X, Y]. *)
Lemma merged_extensions_are_sorted :
  precondition_operand_kinds ex_aliases = Ok ex_aliases_merged /\
  map e_extensions (all_enumerants ex_aliases_merged)
  = [Some ["X"; "Y"]; Some ["X"; "Y"]] /\
  declaration_order_union []
    (concat (map get_list (map e_extensions (all_enumerants ex_aliases))))
  = ["Y"; "X"].
Proof. repeat split; vm_compute; reflexivity. Qed.

(** C2, witness. *)
Lemma malformed_grammar_aborts_witness :
  exists fs' e,
    main (ex_json_loads ex_core_unnamed) ex_args ex_files = (fs', Abort e).
Proof.
  destruct (malformed_grammar_aborts (ex_json_loads ex_core_unnamed) ex_args
              ex_files ex_core_unnamed ex_empty_grammar ex_empty_grammar
              "core.inc" "kinds.inc")
    as (fs' & e & H & _).
  - exists "core.json", "core". repeat split; vm_compute; reflexivity.
  - exists "debuginfo.json", "debuginfo". repeat split; vm_compute; reflexivity.
  - exists "cldebuginfo.json", "cldebuginfo". repeat split; vm_compute; reflexivity.
  - reflexivity.
  - reflexivity.
  - right. left. left. split; [reflexivity|]. right.
    eexists. split; [left | left; reflexivity].
  - exists fs', e. exact H.
Defined.

(** C2, counterexample.  Five inputs with a missing name or value.  In
    the first the only enumerant of the core grammar has no name: [main]
    aborts on the assertion while it renders the operand kind table,
    after it has written the whole instruction table to [core.inc],
    which did not exist before.  In the other four [main] does not
    abort at all: the only instruction of the debug-info grammar, or of
    the OpenCL debug-info grammar, has no name; a kind of identifiers,
    without enumerants, has no name; an enumerant of a kind of literals
    has neither name nor value. *)
Lemma missing_fields_that_write_or_pass :
  ((main (ex_json_loads ex_core_unnamed) ex_args ex_files).2
   = Abort (PyExn AssertionError) /\
   ex_files !! "core.inc" = None /\
   (main (ex_json_loads ex_core_unnamed) ex_args ex_files).1 !! "core.inc"
   = Some ex_nop_table /\
   (main (ex_json_loads ex_core_unnamed) ex_args ex_files).1 !! "kinds.inc"
   = Some EmptyString) /\
  (main (ex_json_loads3 ex_core ex_unnamed_instruction ex_empty_grammar)
        ex_args ex_files).2 = Done tt /\
  (main (ex_json_loads3 ex_core ex_empty_grammar ex_unnamed_instruction)
        ex_args ex_files).2 = Done tt /\
  (main (ex_json_loads ex_core_unnamed_id) ex_args ex_files).2 = Done tt /\
  (main (ex_json_loads ex_core_literal_enumerant) ex_args ex_files).2 = Done tt.
Proof. repeat split; vm_compute; reflexivity. Qed.

(** C4, witness. *)
Lemma generate_instruction_table_stable_order_witness :
  exists ordered,
    generate_instruction_table ex_instructions = Ok ex_instructions_text /\
    Permutation ordered ex_instructions /\
    map i_extensions ordered = [None; None; Some ["SPV_KHR_undef"]].
Proof.
  destruct (generate_instruction_table_stable_order ex_instructions)
    as (text & ordered & rows & Ht & _ & _ & _ & Hp & _ & _ & Hu & _).
  - unfold ex_instructions.
    repeat (apply List.Forall_cons;
            [split; [eexists; reflexivity|];
             split; [apply List.Forall_nil|];
             eexists; split; [reflexivity|]; split; [reflexivity | discriminate] |]).
    apply List.Forall_nil.
  - exists ordered. split; [|split; [exact Hp|]].
    + vm_compute. reflexivity.
    + rewrite <- (Hu (sorted_by inst_key ex_instructions)).
      * vm_compute. reflexivity.
      * apply sorted_by_sorted.
      * apply sorted_by_stable.
Defined.

(** C7, witness. *)
Lemma registry_collision_is_fatal_witness :
  exists e,
    main (ex_json_loads ex_core_collision) ex_args ex_files = (ex_files, Abort e).
Proof.
  destruct (registry_collision_is_fatal (ex_json_loads ex_core_collision) ex_args
              ex_files ex_core_collision ex_empty_grammar ex_empty_grammar
              "SPV_AMD_gcn_shader")
    as (_ & H).
  - exists "core.json", "core". repeat split; vm_compute; reflexivity.
  - exists "debuginfo.json", "debuginfo". repeat split; vm_compute; reflexivity.
  - exists "cldebuginfo.json", "cldebuginfo". repeat split; vm_compute; reflexivity.
  - vm_compute. left.
  - vm_compute. left.
  - exact H.
Defined.


(** C9.  With [ImageOperands] but neither [AccessQualifier] nor
    [MemoryAccess] among the kinds, the last three rows are marked
    optional whatever they are and the last three arrays are dropped:
    [Dim] gets the optional identifier, [ImageOperands] has no row with
    its mandatory identifier, and no array is emitted. *)
Theorem optional_rows_assume_three_kinds :
  generate_operand_kind_table ex_two_kinds
  = Ok (nl +:+ nl +:+ nl +:+ nl
          +:+ "static const spv_operand_desc_group_t pygen_variable_OperandInfoTable[] = {"
          +:+ nl
          +:+ "  {SPV_OPERAND_TYPE_OPTIONAL_DIMENSIONALITY, "
          +:+ "ARRAY_SIZE(pygen_variable_DimEntries), pygen_variable_DimEntries},"
          +:+ nl
          +:+ "  {SPV_OPERAND_TYPE_OPTIONAL_IMAGE, "
          +:+ "ARRAY_SIZE(pygen_variable_ImageOperandsEntries), "
          +:+ "pygen_variable_ImageOperandsEntries},"
          +:+ nl
          +:+ "  {SPV_OPERAND_TYPE_OPTIONAL_IMAGE, "
          +:+ "ARRAY_SIZE(pygen_variable_ImageOperandsEntries), "
          +:+ "pygen_variable_ImageOperandsEntries}"
          +:+ nl +:+ "};").
Proof. vm_compute. reflexivity. Qed.

(** ** The merge as a function, and what it composes with *)

Lemma unnamed_or_named operand_kinds :
  Exists unnamed_with_enumerants operand_kinds \/
  Forall (fun k => get_list (k_enumerants k) <> [] -> is_Some (k_kind k))
         operand_kinds.
Proof.
  induction operand_kinds as [|k ks [IH|IH]].
  - right. constructor.
  - left. right. exact IH.
  - destruct (k_kind k) as [n|] eqn:Ek.
    + right. constructor; [|exact IH]. intros _. rewrite Ek. eexists; reflexivity.
    + destruct (get_list (k_enumerants k)) as [|e es] eqn:Ees.
      * right. constructor; [|exact IH]. intros H. elim H. exact Ees.
      * left. left. split; [rewrite Ees; discriminate | exact Ek].
Qed.

Lemma assign_extensions_merge operand_kinds exts kind e e' :
  collected (members operand_kinds) exts ->
  assign_extensions kind exts e = Ok e' ->
  e' = merge_enumerant operand_kinds kind e.
Proof.
  intros (Hval & _ & _). unfold assign_extensions, merge_enumerant.
  destruct (merge_key kind (e_value e)) as [key|]; simpl; [|discriminate].
  destruct (exts !! key) as [l|] eqn:El; simpl; [|discriminate].
  rewrite (Hval _ _ El). unfold merged_extensions.
  destruct (sorted_set _) as [|x u]; simpl; congruence.
Qed.

Lemma rmap_map {A B} (f : A -> result B) (g : A -> B) l ys :
  (forall x y, In x l -> f x = Ok y -> y = g x) ->
  rmap f l = Ok ys -> ys = map g l.
Proof.
  revert ys. induction l as [|x l IH]; intros ys Hf; simpl.
  - intros [= <-]. reflexivity.
  - destruct (f x) as [y|] eqn:E; simpl; [|discriminate].
    destruct (rmap f l) as [ys'|]; simpl; [|discriminate].
    intros [= <-]. f_equal.
    + apply Hf; [left; reflexivity | exact E].
    + apply IH; [|reflexivity]. intros a b Ha. apply Hf. right. exact Ha.
Qed.

(** The merge, when it returns, is [map (merge_kind _)]. *)
Lemma precondition_operand_kinds_map operand_kinds out :
  precondition_operand_kinds operand_kinds = Ok out ->
  out = map (merge_kind operand_kinds) operand_kinds.
Proof.
  unfold precondition_operand_kinds. rewrite rfold_members.
  destruct (rfold _ (members operand_kinds) ∅) as [exts|] eqn:Hf; simpl;
    [|discriminate].
  pose proof (rfold_collected [] _ _ _ collected_empty Hf) as Hc. simpl in Hc.
  apply rmap_map. intros k k' _. unfold merge_kind.
  destruct (k_enumerants k) as [es|]; [|congruence].
  destruct (rmap _ es) as [es'|] eqn:Hes; simpl; [|discriminate].
  intros [= <-]. do 2 f_equal.
  eapply rmap_map; [|exact Hes].
  intros e e' _. apply assign_extensions_merge, Hc.
Qed.

Lemma merge_enumerant_value operand_kinds kind e :
  e_value (merge_enumerant operand_kinds kind e) = e_value e.
Proof.
  unfold merge_enumerant. destruct (merge_key _ _); [|reflexivity].
  simpl. destruct (nonempty _); reflexivity.
Qed.

Lemma merge_enumerant_extensions operand_kinds kind e key :
  (kind, e) ∈ members operand_kinds ->
  merge_key kind (e_value e) = Ok key ->
  get_list (e_extensions (merge_enumerant operand_kinds kind e))
  = merged_extensions operand_kinds key.
Proof.
  intros Hm Hk. unfold merge_enumerant. rewrite Hk. simpl.
  destruct (merged_extensions operand_kinds key) as [|x u] eqn:Eu; simpl;
    [|reflexivity].
  destruct (get_list (e_extensions e)) as [|x xs] eqn:Ex; [reflexivity|].
  assert (x ∈ merged_extensions operand_kinds key) as Hx.
  { apply sorted_set_elem, group_extensions_elem.
    exists (kind, e). split; [exact Hm|]. split; [exact Hk|].
    simpl. rewrite Ex. left. }
  rewrite Eu in Hx. inversion Hx.
Qed.

Lemma members_merge_kind operand_kinds l :
  members (map (merge_kind operand_kinds) l)
  = map (fun m => (m.1, merge_enumerant operand_kinds m.1 m.2)) (members l).
Proof.
  unfold members. induction l as [|k l IH]; simpl; [reflexivity|].
  rewrite IH, map_app. f_equal.
  unfold merge_kind. destruct (k_enumerants k) as [es|] eqn:Ees; simpl;
    [|rewrite Ees; reflexivity].
  rewrite !map_map. reflexivity.
Qed.

Lemma group_extensions_merged operand_kinds key x :
  x ∈ group_extensions key
        (members (map (merge_kind operand_kinds) operand_kinds)) <->
  x ∈ group_extensions key (members operand_kinds).
Proof.
  rewrite !group_extensions_elem, members_merge_kind. split.
  - intros (m' & Hm' & Hk & Hx).
    apply list_elem_of_In, in_map_iff in Hm' as ([kind e] & <- & Hm).
    apply list_elem_of_In in Hm. simpl in *.
    unfold member_key in Hk. simpl in Hk. rewrite merge_enumerant_value in Hk.
    rewrite (merge_enumerant_extensions _ _ _ key Hm Hk) in Hx.
    apply sorted_set_elem, group_extensions_elem in Hx. exact Hx.
  - intros ([kind e] & Hm & Hk & Hx).
    exists (kind, merge_enumerant operand_kinds kind e). split; [|split].
    + apply list_elem_of_In, in_map_iff. exists (kind, e).
      split; [reflexivity | apply list_elem_of_In, Hm].
    + unfold member_key. simpl. rewrite merge_enumerant_value. exact Hk.
    + simpl. unfold member_key in Hk. simpl in Hk, Hx.
      rewrite (merge_enumerant_extensions _ _ _ key Hm Hk).
      apply sorted_set_elem, group_extensions_elem.
      exists (kind, e). auto.
Qed.

Lemma merged_extensions_merged operand_kinds key :
  merged_extensions (map (merge_kind operand_kinds) operand_kinds) key
  = merged_extensions operand_kinds key.
Proof.
  unfold merged_extensions. apply sorted_set_ext. intros x.
  apply group_extensions_merged.
Qed.

Lemma merge_enumerant_again operand_kinds kind e :
  merge_enumerant (map (merge_kind operand_kinds) operand_kinds) kind
    (merge_enumerant operand_kinds kind e)
  = merge_enumerant operand_kinds kind e.
Proof.
  unfold merge_enumerant at 1. rewrite merge_enumerant_value.
  unfold merge_enumerant.
  destruct (merge_key kind (e_value e)) as [key|]; [|reflexivity].
  simpl. rewrite merged_extensions_merged.
  destruct (nonempty (merged_extensions operand_kinds key)) eqn:Eu; rewrite ?Eu;
    reflexivity.
Qed.

Lemma merge_kind_again operand_kinds k :
  merge_kind (map (merge_kind operand_kinds) operand_kinds)
             (merge_kind operand_kinds k)
  = merge_kind operand_kinds k.
Proof.
  unfold merge_kind. destruct (k_enumerants k) as [es|] eqn:Ees; simpl.
  - unfold set_enumerants. simpl. do 2 f_equal.
    rewrite map_map. apply map_ext. intros e. apply merge_enumerant_again.
  - rewrite Ees. reflexivity.
Qed.

Lemma merge_kind_named operand_kinds k :
  k_kind (merge_kind operand_kinds k) = k_kind k /\
  (get_list (k_enumerants (merge_kind operand_kinds k)) <> [] ->
   get_list (k_enumerants k) <> []).
Proof.
  unfold merge_kind. destruct (k_enumerants k) as [es|] eqn:Ees; simpl.
  - split; [reflexivity|]. intros Hne ->. apply Hne. reflexivity.
  - split; [reflexivity|]. rewrite Ees. auto.
Qed.

(** X1.  Merging a second time changes nothing: whenever
    [precondition_operand_kinds] returns a list of kinds, it returns that
    same list on it. *)
Theorem precondition_operand_kinds_idempotent
    (operand_kinds out : list OperandKind) :
  precondition_operand_kinds operand_kinds = Ok out ->
  precondition_operand_kinds out = Ok out.
Proof.
  intros Hp.
  assert (Forall (fun k => get_list (k_enumerants k) <> [] -> is_Some (k_kind k))
                 operand_kinds) as Hnamed.
  { destruct (unnamed_or_named operand_kinds) as [He|Hn]; [|exact Hn].
    rewrite (precondition_operand_kinds_unnamed _ He) in Hp. discriminate. }
  apply precondition_operand_kinds_map in Hp. subst out.
  destruct (precondition_operand_kinds_defined
              (map (merge_kind operand_kinds) operand_kinds)) as [out' Hp'].
  { apply Forall_map. eapply Forall_impl; [exact Hnamed|].
    intros k Hk. simpl.
    destruct (merge_kind_named operand_kinds k) as [-> Hne]. auto. }
  rewrite Hp'. f_equal.
  apply precondition_operand_kinds_map in Hp'. rewrite Hp', map_map.
  apply map_ext. intros k. apply merge_kind_again.
Qed.

Lemma precondition_operand_kinds_idempotent_witness :
  precondition_operand_kinds ex_aliases_merged = Ok ex_aliases_merged.
Proof.
  apply (precondition_operand_kinds_idempotent ex_aliases).
  vm_compute. reflexivity.
Defined.

(** X2.  [precondition_operand_kinds] fails exactly when a kind that has
    at least one enumerant has no name, and then with [TypeError]; a kind
    without enumerants needs no name. *)
Theorem precondition_operand_kinds_errors (operand_kinds : list OperandKind) :
  (Exists unnamed_with_enumerants operand_kinds ->
   precondition_operand_kinds operand_kinds = Raise TypeError) /\
  (~ Exists unnamed_with_enumerants operand_kinds ->
   precondition_operand_kinds operand_kinds
   = Ok (map (merge_kind operand_kinds) operand_kinds)) /\
  (forall k, get_list (k_enumerants k) = [] -> merge_kind operand_kinds k = k).
Proof.
  split; [apply precondition_operand_kinds_unnamed|]. split.
  - intros Hno. destruct (unnamed_or_named operand_kinds) as [He|Hn]; [contradiction|].
    destruct (precondition_operand_kinds_defined _ Hn) as [out Hp].
    rewrite Hp. f_equal. apply precondition_operand_kinds_map, Hp.
  - intros k Hk. unfold merge_kind.
    destruct (k_enumerants k) as [[|e es]|] eqn:Ees; simpl in Hk;
      try discriminate; [|reflexivity].
    destruct k. simpl in *. subst. reflexivity.
Qed.

(** ** The extension registry *)

Lemma all_enumerants_members operand_kinds :
  all_enumerants operand_kinds = map snd (members operand_kinds).
Proof.
  unfold all_enumerants, members.
  induction operand_kinds as [|k ks IH]; simpl; [reflexivity|].
  rewrite map_app, IH, map_map. simpl. rewrite map_id. reflexivity.
Qed.

Lemma declared_extensions_elem instructions operand_kinds x :
  x ∈ declared_extensions instructions operand_kinds <->
  (exists i, i ∈ instructions /\ x ∈ get_list (i_extensions i)) \/
  (exists e, e ∈ all_enumerants operand_kinds /\ x ∈ get_list (e_extensions e)).
Proof.
  unfold declared_extensions.
  rewrite list_elem_of_In, in_concat. split.
  - intros (l & Hl & Hx). apply in_map_iff in Hl as (item & <- & Hitem).
    apply filter_In in Hitem as [Hitem _]. apply in_app_or in Hitem as [H|H];
      apply in_map_iff in H as (y & <- & Hy); [left|right];
      exists y; split; apply list_elem_of_In; assumption.
  - intros [(i & Hi & Hx)|(e & He & Hx)].
    + exists (get_list (i_extensions i)). split; [|apply list_elem_of_In, Hx].
      apply in_map, filter_In. split.
      * apply in_or_app. left. apply in_map, list_elem_of_In, Hi.
      * destruct (get_list (i_extensions i)); [inversion Hx | reflexivity].
    + exists (get_list (e_extensions e)). split; [|apply list_elem_of_In, Hx].
      apply in_map, filter_In. split.
      * apply in_or_app. right. apply in_map, list_elem_of_In, He.
      * destruct (get_list (e_extensions e)); [inversion Hx | reflexivity].
Qed.

Lemma rmap_ext {A B} (f g : A -> result B) l :
  (forall x, f x = g x) -> rmap f l = rmap g l.
Proof.
  intros Hfg. induction l as [|x l IH]; simpl; [reflexivity|].
  rewrite Hfg, IH. reflexivity.
Qed.

(** The registry depends only on the set of the declared extensions. *)
Lemma get_extension_list_ext i1 k1 i2 k2 :
  (forall x, x ∈ declared_extensions i1 k1 <-> x ∈ declared_extensions i2 k2) ->
  get_extension_list i1 k1 = get_extension_list i2 k2.
Proof.
  intros Hd. unfold get_extension_list.
  rewrite (rmap_ext _ (fun item =>
             assert (negb (bool_decide (item ∈ declared_extensions i2 k2))))).
  - destruct (rmap _ _); simpl; [|reflexivity]. f_equal.
    apply sorted_set_ext. intros x. rewrite !elem_of_app, Hd. reflexivity.
  - intros item. do 2 f_equal. apply bool_decide_ext, Hd.
Qed.

Lemma merged_enumerants_extensions operand_kinds x :
  (exists e, e ∈ all_enumerants (map (merge_kind operand_kinds) operand_kinds) /\
             x ∈ get_list (e_extensions e)) <->
  (exists e, e ∈ all_enumerants operand_kinds /\ x ∈ get_list (e_extensions e)).
Proof.
  rewrite !all_enumerants_members, members_merge_kind, map_map. simpl. split.
  - intros (e' & He' & Hx).
    apply list_elem_of_In, in_map_iff in He' as ([kind e] & <- & Hm). simpl in Hx.
    destruct (merge_key kind (e_value e)) as [key|err] eqn:Hk.
    + rewrite (merge_enumerant_extensions _ _ _ key) in Hx;
        [|apply list_elem_of_In, Hm | exact Hk].
      apply sorted_set_elem, group_extensions_elem in Hx as (m & Hm' & _ & Hx').
      exists m.2. split; [|exact Hx'].
      apply list_elem_of_In, in_map, list_elem_of_In, Hm'.
    + unfold merge_enumerant in Hx. rewrite Hk in Hx.
      exists e. split; [|exact Hx].
      apply list_elem_of_In. apply (in_map snd _ (kind, e)), Hm.
  - intros (e & He & Hx).
    apply list_elem_of_In, in_map_iff in He as ([kind e0] & <- & Hm). simpl in Hx.
    exists (merge_enumerant operand_kinds kind e0). split.
    + apply list_elem_of_In, in_map_iff. exists (kind, e0). split; [reflexivity | exact Hm].
    + destruct (merge_key kind (e_value e0)) as [key|err] eqn:Hk.
      * rewrite (merge_enumerant_extensions _ _ _ key);
          [|apply list_elem_of_In, Hm | exact Hk].
        apply sorted_set_elem, group_extensions_elem.
        exists (kind, e0). split; [apply list_elem_of_In, Hm|]. split; [exact Hk | exact Hx].
      * unfold merge_enumerant. rewrite Hk. exact Hx.
Qed.

(** X3.  The merge neither adds nor loses an extension: the registry
    computed from the merged kinds is the one computed from the kinds as
    declared, so that [main] could call [get_extension_list] on either
    side of [precondition_operand_kinds]. *)
Theorem get_extension_list_after_merge (instructions : list Instruction)
    (operand_kinds out : list OperandKind) :
  precondition_operand_kinds operand_kinds = Ok out ->
  get_extension_list instructions out
  = get_extension_list instructions operand_kinds.
Proof.
  intros Hp. apply precondition_operand_kinds_map in Hp. subst out.
  apply get_extension_list_ext. intros x.
  rewrite !declared_extensions_elem, merged_enumerants_extensions. reflexivity.
Qed.

Lemma get_extension_list_after_merge_witness :
  get_extension_list [] ex_aliases_merged = get_extension_list [] ex_aliases.
Proof.
  apply get_extension_list_after_merge.
  vm_compute. reflexivity.
Defined.

Lemma rmap_asserts {A} (c : A -> bool) (l : list A) :
  (forall x, In x l -> c x = true) ->
  rmap (fun x => assert (c x)) l = Ok (map (fun _ => tt) l).
Proof.
  intros Hc. induction l as [|x l IH]; simpl; [reflexivity|].
  rewrite (Hc x) by (left; reflexivity). simpl.
  rewrite IH by (intros y Hy; apply Hc; right; exact Hy). reflexivity.
Qed.

Lemma get_extension_list_defined instructions operand_kinds :
  (forall item,
      item ∈ split EXTENSIONS_FROM_SPIRV_REGISTRY_AND_NOT_FROM_GRAMMARS ->
      item ∉ declared_extensions instructions operand_kinds) ->
  get_extension_list instructions operand_kinds
  = Ok (sorted_set
          ((declared_extensions instructions operand_kinds
              ++ split EXTENSIONS_FROM_SPIRV_REGISTRY_AND_NOT_FROM_GRAMMARS)
             ++ ["SPV_VALIDATOR_ignore_type_decl_unique"])).
Proof.
  intros Hfree. unfold get_extension_list.
  rewrite (rmap_asserts
             (fun item => negb (bool_decide
                (item ∈ declared_extensions instructions operand_kinds)))).
  - reflexivity.
  - intros item Hitem. apply negb_true_iff, bool_decide_eq_false.
    apply Hfree, list_elem_of_In, Hitem.
Qed.

(** X4.  [get_extension_list] succeeds exactly when no supplementary
    name is declared in the grammar.  It then returns the names declared
    in the grammar, the supplementary names and the reserved name
    [SPV_VALIDATOR_ignore_type_decl_unique], each once, in ascending
    order of code points: the order that the binary search of the
    generated [GetExtensionFromString] relies on. *)
Theorem get_extension_list_registry (instructions : list Instruction)
    (operand_kinds : list OperandKind) :
  let declared := declared_extensions instructions operand_kinds in
  let supplementary := split EXTENSIONS_FROM_SPIRV_REGISTRY_AND_NOT_FROM_GRAMMARS in
  (is_ok (get_extension_list instructions operand_kinds) = true <->
   forall item, item ∈ supplementary -> item ∉ declared) /\
  (forall extensions,
      get_extension_list instructions operand_kinds = Ok extensions ->
      NoDup extensions /\
      key_sorted id extensions /\
      forall x, x ∈ extensions <->
                x ∈ declared \/ x ∈ supplementary \/
                x = "SPV_VALIDATOR_ignore_type_decl_unique").
Proof.
  intros declared supplementary.
  assert (is_ok (get_extension_list instructions operand_kinds) = true ->
          forall item, item ∈ supplementary -> item ∉ declared) as Hfree.
  { intros Hok item Hs Hd.
    rewrite (get_extension_list_collision _ _ item Hs Hd) in Hok. discriminate. }
  split.
  - split; [exact Hfree|]. intros H.
    rewrite get_extension_list_defined by exact H. reflexivity.
  - intros extensions He.
    assert (forall item, item ∈ supplementary -> item ∉ declared) as H
      by (apply Hfree; rewrite He; reflexivity).
    rewrite get_extension_list_defined in He by exact H.
    injection He as <-.
    split; [apply sorted_set_NoDup|]. split; [apply sorted_set_sorted|].
    intros x. rewrite sorted_set_elem, !elem_of_app, list_elem_of_singleton.
    tauto.
Qed.

(** ** Insertion-ordered dictionaries *)

Section DictFacts.
Context {K V : Type} `{EqDecision K}.



End DictFacts.

(** ** The extension map of one operand kind *)

Lemma declaration_order_union_elem seen l x :
  x ∈ declaration_order_union seen l <-> x ∈ l /\ x ∉ seen.
Proof.
  revert seen. induction l as [|y l IH]; intros seen; simpl.
  - split; [intros Hin; inversion Hin | intros [Hin _]; inversion Hin].
  - destruct (bool_decide (y ∈ seen)) eqn:E.
    + apply bool_decide_eq_true in E. rewrite IH, elem_of_cons.
      split; [tauto|]. intros [[-> |?] ?]; [contradiction | tauto].
    + apply bool_decide_eq_false in E.
      rewrite !elem_of_cons, IH, elem_of_cons. split.
      * intros [->|[? ?]]; tauto.
      * intros [[-> |?] ?]; [tauto|].
        destruct (decide (x = y)); tauto.
Qed.


Lemma declaration_order_union_NoDup seen l :
  NoDup (declaration_order_union seen l).
Proof.
  revert seen. induction l as [|y l IH]; intros seen; simpl; [constructor|].
  destruct (bool_decide (y ∈ seen)); [apply IH|].
  constructor; [|apply IH].
  rewrite declaration_order_union_elem, elem_of_cons. tauto.
Qed.






(** ** Prefixing, in closed form *)





Lemma prefix_loop_named prefix (l : list OperandKind) acc (m : gmap string string) :
  Forall (fun k => is_Some (k_kind k)) l ->
  exists m',
    rfold (fun '(kinds, old_to_new) operand_kind =>
             old_name ← subscript (k_kind operand_kind);
             Ok (kinds ++ [set_kind operand_kind (prefix +:+ old_name)],
                 <[old_name := prefix +:+ old_name]> old_to_new))
          l (acc, m) = Ok (acc ++ map (prefixed_kind prefix) l, m') /\
    forall name,
      m' !! name = if bool_decide (name ∈ kind_names l)
                   then Some (prefix +:+ name) else m !! name.
Proof.
  intros Hl. revert acc m.
  induction Hl as [|k l [old Hk] _ IH]; intros acc m; simpl.
  - exists m. rewrite app_nil_r. split; [reflexivity|]. intros name. reflexivity.
  - rewrite Hk. simpl.
    destruct (IH (acc ++ [set_kind k (prefix +:+ old)])
                 (<[old := prefix +:+ old]> m)) as (m' & Hr & Hm').
    exists m'. split.
    + etrans; [exact Hr|]. rewrite <- List.app_assoc. unfold prefixed_kind at 2. rewrite Hk.
      reflexivity.
    + intros name. rewrite Hm'.
      change (omap k_kind l) with (kind_names l).
      destruct (bool_decide (name ∈ kind_names l)) eqn:E.
      * apply bool_decide_eq_true in E.
        rewrite bool_decide_eq_true_2 by (right; exact E). reflexivity.
      * apply bool_decide_eq_false in E.
        destruct (decide (name = old)) as [->|Hne].
        -- rewrite lookup_insert_eq, bool_decide_eq_true_2 by left. reflexivity.
        -- rewrite lookup_insert_ne by congruence.
           rewrite bool_decide_eq_false_2; [reflexivity|].
           intros Hin. apply elem_of_cons in Hin as [?|?]; contradiction.
Qed.

Lemma prefix_loop_unnamed prefix (l : list OperandKind) s :
  Exists (fun k => k_kind k = None) l ->
  rfold (fun '(kinds, old_to_new) operand_kind =>
           old_name ← subscript (k_kind operand_kind);
           Ok (kinds ++ [set_kind operand_kind (prefix +:+ old_name)],
               (<[old_name := prefix +:+ old_name]> old_to_new
                  : gmap string string)))
        l s = Raise KeyError.
Proof.
  intros He. apply Exists_exists in He as (k & Hin & Hk).
  apply (rfold_raises _ l k KeyError); [apply list_elem_of_In, Hin | |].
  - intros [kinds m]. rewrite Hk. reflexivity.
  - intros [kinds m] y e'. destruct (k_kind y); simpl; congruence.
Qed.

Lemma rename_operands_kinded (m : gmap string string) prefix names ops :
  (forall name,
      m !! name = if bool_decide (name ∈ names)
                  then Some (prefix +:+ name) else None) ->
  Forall (fun o => is_Some (o_kind o)) ops ->
  rmap (fun operand =>
          kind ← subscript (o_kind operand);
          match m !! kind with
          | Some replacement =>
              Ok {| o_kind := Some replacement;
                    o_quantifier := o_quantifier operand |}
          | None => Ok operand
          end) ops
  = Ok (map (prefixed_operand prefix names) ops).
Proof.
  intros Hm Hk. apply rmap_total. eapply Forall_impl; [exact Hk|].
  intros o [kind Ho]. unfold prefixed_operand. rewrite Ho. simpl.
  rewrite Hm. destruct (bool_decide (kind ∈ names)); reflexivity.
Qed.

Lemma rename_operands_unkinded (m : gmap string string) ops :
  ~ Forall (fun o => is_Some (o_kind o)) ops ->
  rmap (fun operand =>
          kind ← subscript (o_kind operand);
          match m !! kind with
          | Some replacement =>
              Ok {| o_kind := Some replacement;
                    o_quantifier := o_quantifier operand |}
          | None => Ok operand
          end) ops
  = Raise KeyError.
Proof.
  intros Hk. apply rmap_raises_all.
  - apply not_Forall_Exists in Hk; [|intros o; apply _].
    eapply Exists_impl; [exact Hk|]. intros o Ho. simpl in Ho.
    destruct (o_kind o) as [kind|] eqn:Ek; [|reflexivity].
    exfalso. apply Ho. eexists. reflexivity.
  - intros o e. destruct (o_kind o) as [kind|]; simpl; [|congruence].
    destruct (m !! kind); discriminate.
Qed.

Lemma set_operands_same i : set_operands i (i_operands i) = i.
Proof. destruct i. reflexivity. Qed.

Lemma prefix_instructions_kinded (m : gmap string string) prefix names insts :
  (forall name,
      m !! name = if bool_decide (name ∈ names)
                  then Some (prefix +:+ name) else None) ->
  Forall kinded_operands insts ->
  rmap (fun instruction =>
          match i_operands instruction with
          | Some operands =>
              operands ←
                rmap (fun operand =>
                        kind ← subscript (o_kind operand);
                        match m !! kind with
                        | Some replacement =>
                            Ok {| o_kind := Some replacement;
                                  o_quantifier := o_quantifier operand |}
                        | None => Ok operand
                        end) operands;
              Ok (set_operands instruction (Some operands))
          | None => Ok instruction
          end) insts
  = Ok (map (prefixed_instruction prefix names) insts).
Proof.
  intros Hm Hk. apply rmap_total. eapply Forall_impl; [exact Hk|].
  intros i Hi. unfold prefixed_instruction, kinded_operands in *.
  destruct (i_operands i) as [ops|] eqn:Eo; simpl in *.
  - rewrite (rename_operands_kinded m prefix names ops Hm Hi). reflexivity.
  - rewrite <- Eo, set_operands_same. reflexivity.
Qed.

Lemma prefix_instructions_unkinded (m : gmap string string) insts :
  Exists (fun i => ~ kinded_operands i) insts ->
  rmap (fun instruction =>
          match i_operands instruction with
          | Some operands =>
              operands ←
                rmap (fun operand =>
                        kind ← subscript (o_kind operand);
                        match m !! kind with
                        | Some replacement =>
                            Ok {| o_kind := Some replacement;
                                  o_quantifier := o_quantifier operand |}
                        | None => Ok operand
                        end) operands;
              Ok (set_operands instruction (Some operands))
          | None => Ok instruction
          end) insts
  = Raise KeyError.
Proof.
  intros Hk. apply rmap_raises_all.
  - eapply Exists_impl; [exact Hk|]. intros i Hi. simpl.
    unfold kinded_operands in Hi.
    destruct (i_operands i) as [ops|]; simpl in Hi.
    + rewrite (rename_operands_unkinded m ops Hi). reflexivity.
    + exfalso. apply Hi. constructor.
  - intros i e. destruct (i_operands i) as [ops|]; [|discriminate].
    destruct (decide (Forall (fun o => is_Some (o_kind o)) ops)) as [Hf|Hf].
    + destruct (rmap_defined
                  (fun operand =>
                     kind ← subscript (o_kind operand);
                     match m !! kind with
                     | Some replacement =>
                         Ok {| o_kind := Some replacement;
                               o_quantifier := o_quantifier operand |}
                     | None => Ok operand
                     end) ops) as [ys ->]; [|discriminate].
      eapply Forall_impl; [exact Hf|]. intros o [kind ->]. simpl.
      destruct (m !! kind); eexists; reflexivity.
    + rewrite (rename_operands_unkinded m ops Hf). simpl. congruence.
Qed.

Lemma prefix_operand_kind_names_named prefix g kinds insts :
  g_operand_kinds g = Some kinds -> g_instructions g = Some insts ->
  Forall (fun k => is_Some (k_kind k)) kinds ->
  Forall kinded_operands insts ->
  prefix_operand_kind_names prefix g
  = Ok {| g_instructions :=
            Some (map (prefixed_instruction prefix (kind_names kinds)) insts);
          g_operand_kinds := Some (map (prefixed_kind prefix) kinds) |}.
Proof.
  intros Hk Hi Hnamed Hkinded. unfold prefix_operand_kind_names.
  cbv zeta. rewrite Hk. change (subscript (Some kinds)) with (Ok kinds). rewrite bind_Ok.
  destruct (prefix_loop_named prefix kinds [] ∅ Hnamed) as (m' & -> & Hm').
  rewrite bind_Ok, Hi.
  change (subscript (Some insts)) with (Ok insts). rewrite bind_Ok.
  rewrite (prefix_instructions_kinded m' prefix (kind_names kinds) insts);
    [reflexivity | | exact Hkinded].
  intros name. rewrite Hm', lookup_empty. reflexivity.
Qed.

(** X6.  [prefix_operand_kind_names] in closed form.  It fails, with
    [KeyError], exactly when the grammar has no operand kinds or no
    instructions member, declares a kind without a name, or has an
    instruction with an operand without a kind.  Otherwise every kind
    gets the prefix, an operand that refers to a kind declared by this
    grammar refers to the prefixed kind (a single look-up: the new name
    is not looked up again), and nothing else changes: operands of
    undeclared kinds, quantifiers, opcodes, enumerants. *)
Theorem prefix_operand_kind_names_renames (prefix : string) (g : Grammar) :
  (g_operand_kinds g = None \/
   Exists (fun k => k_kind k = None) (get_list (g_operand_kinds g)) \/
   g_instructions g = None \/
   Exists (fun i => ~ kinded_operands i) (get_list (g_instructions g)) ->
   prefix_operand_kind_names prefix g = Raise KeyError) /\
  (forall kinds insts,
      g_operand_kinds g = Some kinds -> g_instructions g = Some insts ->
      Forall (fun k => is_Some (k_kind k)) kinds ->
      Forall kinded_operands insts ->
      prefix_operand_kind_names prefix g
      = Ok {| g_instructions :=
                Some (map (prefixed_instruction prefix (kind_names kinds)) insts);
              g_operand_kinds := Some (map (prefixed_kind prefix) kinds) |}).
Proof.
  split.
  - unfold prefix_operand_kind_names. cbv zeta.
    destruct (g_operand_kinds g) as [kinds|] eqn:Hk; [|reflexivity].
    change (subscript (Some kinds)) with (Ok kinds). rewrite bind_Ok.
    intros Hbad.
    destruct (decide (Exists (fun k => k_kind k = None) kinds)) as [He|Hn].
    { rewrite prefix_loop_unnamed by exact He. reflexivity. }
    destruct (prefix_loop_named prefix kinds [] ∅) as (m' & -> & _).
    { apply List.Forall_forall. intros k Hin.
      destruct (k_kind k) eqn:E; [eexists; reflexivity|].
      exfalso. apply Hn, Exists_exists. exists k.
      split; [apply list_elem_of_In, Hin | exact E]. }
    rewrite bind_Ok.
    destruct Hbad as [?|[He|[Hi|Hu]]]; [discriminate | contradiction | |].
    + rewrite Hi. reflexivity.
    + destruct (g_instructions g) as [insts|]; [|reflexivity].
      change (subscript (Some insts)) with (Ok insts). rewrite bind_Ok.
      rewrite (prefix_instructions_unkinded m' insts Hu). reflexivity.
  - intros kinds insts. apply prefix_operand_kind_names_named.
Qed.

(** ** What [main] writes *)

Lemma writes_within_ret {A} paths (a : A) : writes_within paths (mret a).
Proof. intros fs. split; intros; [reflexivity | assumption]. Qed.

Lemma writes_within_lift {A} paths (r : result A) : writes_within paths (lift r).
Proof. intros fs. unfold lift. destruct r; split; intros; simpl; auto. Qed.

Lemma writes_within_exit paths : writes_within paths exit.
Proof. intros fs. split; intros; simpl; auto. Qed.

Lemma writes_within_bind {A B} paths (m : IO A) (k : A -> IO B) :
  writes_within paths m -> (forall a, writes_within paths (k a)) ->
  writes_within paths (m ≫= k).
Proof.
  intros Hm Hk fs. unfold mbind, IO_bind.
  destruct (Hm fs) as [Hm1 Hm2].
  destruct (m fs) as [fs' [a|e]]; simpl in *.
  - destruct (Hk a fs') as [Hk1 Hk2]. split.
    + intros p Hp. rewrite Hk1, Hm1 by exact Hp. reflexivity.
    + intros p Hp. apply Hk2, Hm2, Hp.
  - split; assumption.
Qed.

Lemma writes_within_when paths c m :
  writes_within paths m -> writes_within paths (when c m).
Proof. intros Hm. unfold when. destruct c; [exact Hm | apply writes_within_ret]. Qed.

Lemma writes_within_read_file paths path : writes_within paths (read_file path).
Proof.
  intros fs. unfold read_file. destruct (fs !! path); split; intros; simpl; auto.
Qed.

Lemma writes_within_the_path paths path : writes_within paths (the_path path).
Proof.
  unfold the_path. destruct path; [apply writes_within_ret | apply writes_within_lift].
Qed.

Lemma writes_within_write_file paths path content :
  path ∈ paths -> writes_within paths (write_file path content).
Proof.
  intros Hin fs. unfold write_file.
  assert (forall p, p ∉ paths -> p <> path) as Hne by (intros p Hp ->; contradiction).
  destruct content as [text|e]; simpl; split; intros p Hp.
  - rewrite !lookup_insert_ne by (apply not_eq_sym, Hne, Hp). reflexivity.
  - destruct (decide (p = path)) as [->|Hd].
    + rewrite lookup_insert_eq. eauto.
    + rewrite !lookup_insert_ne by congruence. exact Hp.
  - rewrite lookup_insert_ne by (apply not_eq_sym, Hne, Hp). reflexivity.
  - destruct (decide (p = path)) as [->|Hd].
    + rewrite lookup_insert_eq. eauto.
    + rewrite lookup_insert_ne by congruence. exact Hp.
Qed.

Lemma writes_within_read_grammar json_loads paths path :
  writes_within paths (read_grammar json_loads path).
Proof.
  unfold read_grammar.
  apply writes_within_bind; [apply writes_within_the_path|]. intros p.
  apply writes_within_bind; [apply writes_within_read_file|]. intros text.
  apply writes_within_lift.
Qed.

Lemma writes_within_check_args paths args : writes_within paths (check_args args).
Proof.
  unfold check_args.
  repeat (apply writes_within_bind;
          [apply writes_within_when, writes_within_exit | intros _]).
  apply writes_within_when, writes_within_exit.
Qed.

Lemma writes_within_ret_bind {A B} paths (a : A) (k : A -> IO B) :
  writes_within paths (k a) -> writes_within paths (mret a ≫= k).
Proof. intros Hk fs. exact (Hk fs). Qed.

Lemma writes_within_output paths out_path (k : string -> IO unit) :
  (forall out, out_path = Some out -> writes_within paths (k out)) ->
  writes_within paths (the_path out_path ≫= k).
Proof.
  intros Hk. destruct out_path as [out|]; simpl.
  - apply writes_within_ret_bind, Hk. reflexivity.
  - intros fs. split; intros; simpl; auto.
Qed.

Lemma writes_within_main_extinst json_loads paths grammar_path out_path
    set_name prefix :
  (forall out, out_path = Some out -> out ∈ paths) ->
  writes_within paths
    (main_extinst json_loads grammar_path out_path set_name prefix).
Proof.
  intros Hout. unfold main_extinst.
  destruct grammar_path; [|apply writes_within_ret].
  apply writes_within_bind; [apply writes_within_read_grammar|]. intros g.
  apply writes_within_output. intros out Ho.
  apply writes_within_ret_bind, writes_within_write_file, Hout, Ho.
Qed.

Lemma elem_of_outputs args :
  forall out,
    core_insts_output args = Some out \/ operand_kinds_output args = Some out \/
    extension_enum_output args = Some out \/
    enum_string_mapping_output args = Some out \/
    glsl_insts_output args = Some out \/ opencl_insts_output args = Some out \/
    vendor_insts_output args = Some out ->
    out ∈ outputs args.
Proof.
  intros out H. unfold outputs. apply list_elem_of_omap.
  exists (Some out). split; [|reflexivity].
  rewrite !elem_of_cons. intuition congruence.
Qed.

Lemma writes_within_main_core json_loads args :
  writes_within (outputs args) (main_core json_loads args).
Proof.
  pose proof (elem_of_outputs args) as Hin.
  unfold main_core.
  do 3 (apply writes_within_bind; [apply writes_within_read_grammar | intros ?]).
  apply writes_within_bind; [apply writes_within_lift|].
  intros [[core_instructions extensions] operand_kinds].
  apply writes_within_bind; [|intros _; apply writes_within_bind; [|intros _]].
  - destruct (core_insts_output args) as [core_out|] eqn:Hc;
      [|apply writes_within_ret].
    apply writes_within_ret_bind, writes_within_output. intros kinds_out Hk.
    apply writes_within_ret_bind.
    apply writes_within_bind; [|intros _];
      apply writes_within_write_file, Hin; auto.
  - destruct (extension_enum_output args) as [out|] eqn:Hc;
      [|apply writes_within_ret].
    apply writes_within_ret_bind, writes_within_write_file, Hin. auto.
  - destruct (enum_string_mapping_output args) as [out|] eqn:Hc;
      [|apply writes_within_ret].
    apply writes_within_ret_bind, writes_within_write_file, Hin. auto 6.
Qed.

(** X7.  [main] writes nowhere but to the output paths of its arguments,
    whatever the grammars hold and however it ends (normally, on an
    argument error, or on an exception half-way): every other file keeps
    its content, the grammar files among them unless they are also named
    as outputs, and no file is ever removed. *)
Theorem main_writes_only_outputs (json_loads : string -> result Grammar)
    (args : Args) (fs : files) :
  (forall p, p ∉ outputs args -> (main json_loads args fs).1 !! p = fs !! p) /\
  (forall p, is_Some (fs !! p) -> is_Some ((main json_loads args fs).1 !! p)).
Proof.
  pose proof (elem_of_outputs args) as Hin.
  assert (writes_within (outputs args) (main json_loads args)) as H; [|exact (H fs)].
  unfold main.
  apply writes_within_bind; [apply writes_within_check_args | intros _].
  apply writes_within_bind; [|intros _].
  { destruct (spirv_core_grammar args);
      [apply writes_within_main_core | apply writes_within_ret]. }
  repeat (apply writes_within_bind; [|intros _]);
    apply writes_within_main_extinst; intros out Ho; apply Hin; auto 8.
Qed.

(** ** The grammars that the outputs need *)

Lemma main_checked json_loads args fs :
  check_args args fs = (fs, Done tt) ->
  main json_loads args fs
  = (_ ← match spirv_core_grammar args with
         | Some _ => main_core json_loads args
         | None => mret tt
         end;
     _ ← main_extinst json_loads (extinst_glsl_grammar args)
           (glsl_insts_output args) "glsl" (Some EmptyString);
     _ ← main_extinst json_loads (extinst_opencl_grammar args)
           (opencl_insts_output args) "opencl" (Some EmptyString);
     main_extinst json_loads (extinst_vendor_grammar args)
       (vendor_insts_output args)
       (vendor_set_name (default EmptyString (extinst_vendor_grammar args)))
       (vendor_operand_kind_prefix args)) fs.
Proof.
  intros Hc. unfold main. unfold mbind at 1, IO_bind at 1. rewrite Hc. reflexivity.
Qed.

Lemma main_exits json_loads args fs :
  check_args args fs = (fs, Abort (PyExn SystemExit)) ->
  main json_loads args fs = (fs, Abort (PyExn SystemExit)).
Proof.
  intros Hc. unfold main. unfold mbind at 1, IO_bind at 1. rewrite Hc. reflexivity.
Qed.

(** X8.  The extension enumeration and the string mappings are computed
    from the core grammar only.  Without [--spirv-core-grammar] (and
    without an extended instruction set) [main] reads and writes nothing;
    when only these two outputs are requested it passes the argument
    checks and ends normally, leaving the requested files unwritten. *)
Theorem outputs_need_the_core_grammar (json_loads : string -> result Grammar)
    (args : Args) (fs : files) :
  spirv_core_grammar args = None ->
  extinst_glsl_grammar args = None ->
  extinst_opencl_grammar args = None ->
  extinst_vendor_grammar args = None ->
  (main json_loads args fs = (fs, Done tt) \/
   main json_loads args fs = (fs, Abort (PyExn SystemExit))) /\
  (core_insts_output args = None -> operand_kinds_output args = None ->
   glsl_insts_output args = None -> opencl_insts_output args = None ->
   vendor_insts_output args = None ->
   is_Some (extension_enum_output args) \/
   is_Some (enum_string_mapping_output args) ->
   main json_loads args fs = (fs, Done tt)).
Proof.
  intros Hcore Hglsl Hopencl Hvendor.
  assert (check_args args fs = (fs, Done tt) ->
          main json_loads args fs = (fs, Done tt)) as Hdone.
  { intros Hc. rewrite (main_checked _ _ _ Hc).
    rewrite Hcore, Hglsl, Hopencl, Hvendor. reflexivity. }
  split.
  - destruct (check_args_files args fs) as [Hc|Hc];
      [left; apply Hdone, Hc | right; apply main_exits, Hc].
  - intros H1 H2 H3 H4 H5 Hout. apply Hdone.
    unfold check_args. rewrite H1, H2, H3, H4, H5, Hglsl, Hopencl, Hvendor.
    destruct Hout as [[out Ho]|[out Ho]]; rewrite Ho;
      destruct (extension_enum_output args), (enum_string_mapping_output args);
      reflexivity.
Qed.

Lemma outputs_need_the_core_grammar_witness :
  main (ex_json_loads ex_empty_grammar)
       (ex_args_extension_enum None) ex_files
  = (ex_files, Done tt).
Proof.
  refine (proj2 (outputs_need_the_core_grammar _ _ _ _ _ _ _) _ _ _ _ _ _);
    try reflexivity.
  left. eexists. reflexivity.
Defined.

(** X9.  The core grammar is never used alone.  When it is given and
    loads, but one of the two debug-information grammars is not given,
    [main] never succeeds and writes nothing, whatever was requested: it
    exits on the argument check when the operand kinds output is
    requested, and otherwise fails with [TypeError] on opening the
    missing path. *)
Theorem debuginfo_grammars_are_required (json_loads : string -> result Grammar)
    (args : Args) (fs : files) (core : Grammar) :
  loads json_loads fs (spirv_core_grammar args) core ->
  extinst_debuginfo_grammar args = None \/
  (exists dbg, loads json_loads fs (extinst_debuginfo_grammar args) dbg /\
               extinst_cldebuginfo100_grammar args = None) ->
  main json_loads args fs = (fs, Abort (PyExn SystemExit)) \/
  main json_loads args fs = (fs, Abort (PyExn TypeError)).
Proof.
  intros Hcore Hmissing.
  destruct (check_args_files args fs) as [Hc|Hc]; [right | left; apply main_exits, Hc].
  rewrite (main_checked _ _ _ Hc).
  pose proof (read_grammar_loads _ _ _ _ Hcore) as Hr.
  destruct Hcore as (p & text & Hp & _). rewrite Hp.
  unfold mbind at 1, IO_bind at 1. unfold main_core.
  unfold mbind at 1, IO_bind at 1. rewrite Hr.
  destruct Hmissing as [Hd|(dbg & Hd & Hcl)].
  - rewrite Hd. reflexivity.
  - unfold mbind at 1, IO_bind at 1.
    rewrite (read_grammar_loads _ _ _ _ Hd), Hcl. reflexivity.
Qed.

Lemma debuginfo_grammars_are_required_witness :
  main (ex_json_loads ex_empty_grammar)
       (ex_args_extension_enum (Some "core.json")) ex_files
  = (ex_files, Abort (PyExn SystemExit)) \/
  main (ex_json_loads ex_empty_grammar)
       (ex_args_extension_enum (Some "core.json")) ex_files
  = (ex_files, Abort (PyExn TypeError)).
Proof.
  apply (debuginfo_grammars_are_required _ _ _ ex_empty_grammar).
  - exists "core.json", "core". repeat split; reflexivity.
  - left. reflexivity.
Defined.

(** ** When a descriptor can be rendered *)

(** X10.  When [generate_instruction] fails.  An instruction with an
    operand that has no kind fails with [KeyError], as an instruction of
    the core grammar and as an extended instruction: the operands are
    read before the name is checked.  When every operand has its kind:
    an instruction without a name fails the assertion in both modes; a
    named extended instruction is always rendered, and its name need not
    start with [Op]; a named instruction of the core grammar fails the
    assertion of [InstInitializer] when its name does not start with
    [Op], fails with [IndexError] when it is [OpExtInst] without operands
    ([fix_syntax] reads the last operand), and is rendered in every
    other case. *)
Theorem generate_instruction_errors (inst : Instruction) :
  (~ kinded_operands inst ->
   forall is_ext_inst, generate_instruction inst is_ext_inst = Raise KeyError) /\
  (kinded_operands inst ->
   (i_opname inst = None ->
    forall is_ext_inst,
      generate_instruction inst is_ext_inst = Raise AssertionError) /\
   (forall opname,
       i_opname inst = Some opname ->
       is_ok (generate_instruction inst true) = true /\
       (startswith "Op" opname = false ->
        generate_instruction inst false = Raise AssertionError) /\
       (opname = "OpExtInst" -> get_list (i_operands inst) = [] ->
        generate_instruction inst false = Raise IndexError) /\
       (startswith "Op" opname = true ->
        (opname = "OpExtInst" -> get_list (i_operands inst) <> []) ->
        is_ok (generate_instruction inst false) = true))).
Proof.
  split.
  { intros Hk b. unfold generate_instruction.
    rewrite (operand_tuples_unkinded _ Hk). reflexivity. }
  intros Hk. split.
  - intros Hn b. unfold generate_instruction.
    rewrite (operand_tuples_kinded _ Hk), bind_Ok, Hn. reflexivity.
  - intros opname Hn.
    split; [unfold generate_instruction;
            rewrite (operand_tuples_kinded _ Hk), bind_Ok, Hn; reflexivity|].
    pose proof (InstInitializer_init_cases opname (get_list (i_capabilities inst))
                  (get_list (i_extensions inst))
                  (map operand_pair (get_list (i_operands inst)))
                  (i_version inst) (i_lastVersion inst)) as Hc.
    split; [|split].
    + intros Hs. unfold generate_instruction.
      rewrite (operand_tuples_kinded _ Hk), bind_Ok, Hn.
      destruct (InstInitializer_init _ _ _ _ _ _) as [d|e]; simpl.
      * destruct Hc; congruence.
      * destruct Hc as [[-> _]|(_ & -> & _)]; [reflexivity | discriminate].
    + intros -> Hnil. unfold generate_instruction.
      rewrite (operand_tuples_kinded _ Hk), bind_Ok, Hn.
      rewrite Hnil in *.
      destruct (InstInitializer_init _ _ _ _ _ _) as [d|e]; simpl.
      * destruct Hc as (_ & Hc & _). exfalso. apply Hc; reflexivity.
      * destruct Hc as [[_ Hc]|(-> & _)]; [discriminate | reflexivity].
    + intros Hs Ho. apply renderable_instruction_ok.
      split; [exact Hk|]. exists opname. auto.
Qed.

Lemma generate_instruction_table_keyless insts :
  Exists (fun i => i_opcode i = None \/ i_opname i = None) insts ->
  generate_instruction_table insts = Raise KeyError.
Proof.
  intros He. unfold generate_instruction_table, sorted_key.
  rewrite (rmap_raises_all instruction_key insts KeyError); [reflexivity| |].
  - eapply Exists_impl; [exact He|]. intros i Hi. simpl. unfold instruction_key.
    destruct Hi as [-> | ->]; [reflexivity|]. destruct (i_opcode i); reflexivity.
  - intros x e'. unfold instruction_key.
    destruct (i_opcode x), (i_opname x); simpl; congruence.
Qed.

(** X11.  The instruction table is rendered exactly when every
    instruction of the list has an opcode and can be rendered: its
    operands have their kinds, it has a name that starts with [Op], and
    it has operands if it is [OpExtInst].  An instruction without an
    opcode or without a name is found by the sort key, which subscripts
    both, before the assertion of [generate_instruction] is reached: the
    table fails with [KeyError]. *)
Theorem generate_instruction_table_rendered (inst_table : list Instruction) :
  (Forall (fun i => is_Some (i_opcode i) /\ renderable_instruction i) inst_table <->
   is_ok (generate_instruction_table inst_table) = true) /\
  (Exists (fun i => i_opcode i = None \/ i_opname i = None) inst_table ->
   generate_instruction_table inst_table = Raise KeyError).
Proof.
  split; [|apply generate_instruction_table_keyless].
  split.
  - intros Hall.
    destruct (generate_instruction_table_defined inst_table) as (rows & _ & ->);
      [|reflexivity].
    eapply Forall_impl; [exact Hall|]. intros i [Ho Hr].
    split; [exact Ho | apply renderable_instruction_ok, Hr].
  - intros Hok. apply List.Forall_forall. intros i Hi. split.
    + destruct (i_opcode i) as [n|] eqn:Eo; [eexists; reflexivity|].
      rewrite generate_instruction_table_keyless in Hok; [discriminate|].
      apply Exists_exists. exists i.
      split; [apply list_elem_of_In, Hi | left; exact Eo].
    + apply renderable_instruction_ok.
      destruct (is_ok (generate_instruction i false)) eqn:E; [reflexivity|].
      destruct (generate_instruction_table_raises inst_table) as [e He].
      * apply Exists_exists. exists i. split; [apply list_elem_of_In, Hi | exact E].
      * rewrite He in Hok. discriminate.
Qed.

(** ** The table of an extended instruction set *)

Lemma rmap_raise_inv {A B} (f : A -> result B) l e :
  rmap f l = Raise e -> Exists (fun x => f x = Raise e) l.
Proof.
  induction l as [|x l IH]; simpl; [discriminate|].
  destruct (f x) as [y|e'] eqn:E; simpl.
  - destruct (rmap f l); simpl; [discriminate|].
    intros [= <-]. right. apply IH. reflexivity.
  - intros [= <-]. left. exact E.
Qed.

(** The three outcomes of [generate_instruction] on an extended
    instruction. *)
Lemma generate_instruction_ext_cases inst :
  match generate_instruction inst true with
  | Ok row =>
      kinded_operands inst /\ is_Some (i_opname inst) /\
      names_ext_instruction inst row
  | Raise e =>
      (e = KeyError /\ ~ kinded_operands inst) \/
      (e = AssertionError /\ kinded_operands inst /\ i_opname inst = None)
  end.
Proof.
  unfold generate_instruction.
  destruct (kinded_operands_dec inst) as [Hk|Hk].
  - rewrite (operand_tuples_kinded _ Hk), bind_Ok.
    destruct (i_opname inst) as [opname|] eqn:En; [|right; auto].
    split; [exact Hk|]. split; [eexists; reflexivity|].
    unfold names_ext_instruction, ExtInstInitializer_str, ExtInstInitializer_init, join.
    rewrite En. cbn [String.concat xi_opname xi_opcode default].
    eexists. rewrite !app_assoc. reflexivity.
  - rewrite (operand_tuples_unkinded _ Hk). left. auto.
Qed.

Lemma extended_rows_defined l :
  Forall (fun i => kinded_operands i /\ is_Some (i_opname i)) l ->
  exists rows,
    rmap (fun inst => generate_instruction inst true) l = Ok rows /\
    Forall2 (fun i row => generate_instruction i true = Ok row /\
                          names_ext_instruction i row) l rows.
Proof.
  intros Hl.
  destruct (rmap_defined (fun inst => generate_instruction inst true) l)
    as [rows Hrows].
  { eapply Forall_impl; [exact Hl|]. intros i [Hk [name Hn]].
    pose proof (generate_instruction_ext_cases i) as Hc.
    destruct (generate_instruction i true) as [row|e]; [eexists; reflexivity|].
    destruct Hc as [[_ Hc]|(_ & _ & Hc)]; [contradiction | congruence]. }
  exists rows. split; [exact Hrows|].
  apply rmap_ok in Hrows. eapply Forall2_impl; [exact Hrows|].
  intros i row Hr. split; [exact Hr|].
  pose proof (generate_instruction_ext_cases i) as Hc. rewrite Hr in Hc.
  destruct Hc as (_ & _ & Hc). exact Hc.
Qed.

Lemma extended_rows_raise l :
  Exists (fun i => ~ kinded_operands i \/ i_opname i = None) l ->
  exists e,
    rmap (fun inst => generate_instruction inst true) l = Raise e /\
    (e = KeyError \/ e = AssertionError) /\
    (Forall kinded_operands l -> e = AssertionError) /\
    (Forall (fun i => is_Some (i_opname i)) l -> e = KeyError).
Proof.
  intros He.
  destruct (rmap (fun inst => generate_instruction inst true) l) as [rows|e] eqn:Er.
  - exfalso. apply rmap_ok in Er. apply Exists_exists in He as (i & Hi & Hbad).
    apply list_elem_of_lookup in Hi as [n Hn].
    destruct (Forall2_lookup_l _ _ _ _ _ Er Hn) as (row & _ & Hrow).
    pose proof (generate_instruction_ext_cases i) as Hc. rewrite Hrow in Hc.
    destruct Hc as (Hk & [name Hname] & _).
    destruct Hbad as [Hbad|Hbad]; [contradiction | congruence].
  - exists e. split; [reflexivity|].
    apply rmap_raise_inv, Exists_exists in Er as (i & Hi & Hrow).
    pose proof (generate_instruction_ext_cases i) as Hc. rewrite Hrow in Hc.
    destruct Hc as [[-> Hk]|(-> & Hk & Hn)].
    + split; [left; reflexivity|]. split; [|reflexivity].
      intros Hall. exfalso. apply Hk.
      apply (proj1 (List.Forall_forall _ _) Hall), list_elem_of_In, Hi.
    + split; [right; reflexivity|]. split; [reflexivity|].
      intros Hall. exfalso.
      destruct (proj1 (List.Forall_forall _ _) Hall i) as [name Hname];
        [apply list_elem_of_In, Hi | congruence].
Qed.

(** X12.  The table of an extended instruction set, for a call without
    prefix.  It fails with [KeyError] when the grammar has no
    [instructions] member and when an instruction has no opcode, which
    the sort key subscripts.  Otherwise the instructions are ordered by
    opcode alone, by a stable sort: the order is the only ascending one
    that keeps the declaration order of the instructions of equal
    opcode, whatever their names (the core table orders them by name).
    The table is rendered when every instruction has a name, which need
    not start with [Op], and operands that have their kinds: its text is
    the capability arrays and the array [<set>_entries] with one
    descriptor for each instruction, in that order, each starting with
    the name and the opcode of its instruction.  It fails when an
    instruction has an operand without kind or has no name, with
    [KeyError] or on the assertion: on the assertion when all operands
    have their kinds, with [KeyError] when all instructions are named. *)
Theorem generate_extended_instruction_table_order (json_grammar : Grammar)
    (set_name : string) (operand_kind_prefix : option string) :
  truthy operand_kind_prefix = false ->
  (g_instructions json_grammar = None ->
   generate_extended_instruction_table json_grammar set_name operand_kind_prefix
   = Raise KeyError) /\
  (forall inst_table,
      g_instructions json_grammar = Some inst_table ->
      (Exists (fun i => i_opcode i = None) inst_table ->
       generate_extended_instruction_table json_grammar set_name
         operand_kind_prefix
       = Raise KeyError) /\
      (Forall (fun i => i_opcode i = Some (opcode_key i)) inst_table ->
       exists ordered,
         Permutation ordered inst_table /\
         key_sorted opcode_key ordered /\
         same_key_order opcode_key inst_table ordered /\
         (forall out, key_sorted opcode_key out ->
                      same_key_order opcode_key inst_table out -> out = ordered) /\
         (Forall (fun i => kinded_operands i /\ is_Some (i_opname i)) inst_table ->
          exists rows,
            generate_extended_instruction_table json_grammar set_name
              operand_kind_prefix
            = Ok (ext_inst_table_text set_name ordered rows) /\
            Forall2 (fun i row => generate_instruction i true = Ok row /\
                                  names_ext_instruction i row) ordered rows) /\
         (Exists (fun i => ~ kinded_operands i \/ i_opname i = None) inst_table ->
          exists e,
            generate_extended_instruction_table json_grammar set_name
              operand_kind_prefix
            = Raise e /\
            (e = KeyError \/ e = AssertionError) /\
            (Forall kinded_operands inst_table -> e = AssertionError) /\
            (Forall (fun i => is_Some (i_opname i)) inst_table -> e = KeyError)))).
Proof.
  intros Hp. unfold generate_extended_instruction_table.
  rewrite Hp, bind_Ok.
  split; [intros ->; reflexivity|].
  intros inst_table ->.
  change (subscript (Some inst_table)) with (Ok inst_table).
  rewrite bind_Ok. cbv zeta. split.
  { intros He. unfold sorted_key.
    rewrite (rmap_raises_all _ inst_table KeyError); [reflexivity| |].
    - eapply Exists_impl; [exact He|]. intros i Hi. simpl. rewrite Hi. reflexivity.
    - intros i e. destruct (i_opcode i); simpl; congruence. }
  intros Hcodes.
  rewrite (sorted_key_total _ opcode_key)
    by (eapply Forall_impl; [exact Hcodes|]; intros i ->; reflexivity).
  rewrite bind_Ok.
  exists (sorted_by opcode_key inst_table).
  split; [apply sorted_by_perm|]. split; [apply sorted_by_sorted|].
  split; [apply sorted_by_stable|].
  split; [intros out Hs Hk; apply sorted_by_unique; assumption|].
  split.
  - intros Hall.
    destruct (extended_rows_defined (sorted_by opcode_key inst_table))
      as (rows & Hrows & Hnames).
    { rewrite (sorted_by_perm opcode_key inst_table). exact Hall. }
    exists rows. split; [|exact Hnames].
    rewrite Hrows, bind_Ok. unfold ext_inst_table_text, ext_inst_table, join.
    cbn [String.concat]. rewrite ?app_assoc. reflexivity.
  - intros Hbad.
    destruct (extended_rows_raise (sorted_by opcode_key inst_table))
      as (e & Hrows & He & Hk & Hn).
    { rewrite (sorted_by_perm opcode_key inst_table). exact Hbad. }
    exists e. split; [rewrite Hrows; reflexivity|]. split; [exact He|].
    split; intros Hall; [apply Hk | apply Hn];
      rewrite (sorted_by_perm opcode_key inst_table); exact Hall.
Qed.

Lemma generate_extended_instruction_table_order_witness :
  exists ordered,
    Permutation ordered ex_ext_instructions /\
    map i_opname ordered = [Some "RoundEven"; Some "Round"; Some "Sin"] /\
    generate_extended_instruction_table
      {| g_instructions := Some ex_ext_instructions; g_operand_kinds := None |}
      "glsl" (Some EmptyString)
    = Ok ex_ext_instructions_text.
Proof.
  destruct (generate_extended_instruction_table_order
              {| g_instructions := Some ex_ext_instructions;
                 g_operand_kinds := None |} "glsl" (Some EmptyString))
    as [_ H]; [reflexivity|].
  destruct (H ex_ext_instructions eq_refl) as [_ H'].
  destruct H' as (ordered & Hperm & _ & _ & Hunique & Hok & _);
    [repeat constructor|].
  exists ordered. split; [exact Hperm|]. split.
  - rewrite <- (Hunique (sorted_by opcode_key ex_ext_instructions)).
    + reflexivity.
    + apply sorted_by_sorted.
    + apply sorted_by_stable.
  - destruct Hok as (rows & Ht & _).
    + repeat constructor; eexists; reflexivity.
    + vm_compute. reflexivity.
Defined.

(** ** Identifiers of operand types *)

Lemma upper_app (s t : string) : upper (s +:+ t) = upper s +:+ upper t.
Proof.
  induction s as [|c s IH]; [reflexivity|].
  rewrite app_cons. simpl. rewrite IH. reflexivity.
Qed.

Lemma is_upper_not_lower c : is_upper c = true -> is_lower c = false.
Proof.
  unfold is_upper, is_lower. intros H.
  apply andb_true_iff in H as [_ H]. apply Nat.leb_le in H.
  apply andb_false_iff. left. apply Nat.leb_gt. lia.
Qed.

Lemma camel_to_snake_upper c s :
  is_upper c = true -> camel_to_snake (String c s) = String c (camel_to_snake s).
Proof.
  intros Hc. destruct s as [|c' s]; [reflexivity|].
  cbn [camel_to_snake]. rewrite (is_upper_not_lower _ Hc). reflexivity.
Qed.

Lemma camel_to_snake_step a b s :
  camel_to_snake (String a (String b s))
  = if is_lower a && is_upper b
    then String a (String "_" (String b (camel_to_snake s)))
    else String a (camel_to_snake (String b s)).
Proof. reflexivity. Qed.

(** A word that ends with a lower-case letter is separated from what
    follows exactly when an upper-case letter follows. *)
Lemma camel_to_snake_quantifier (word s : string) :
  word = "Optional" \/ word = "Variable" ->
  camel_to_snake (word +:+ s)
  = word +:+ match s with
             | String c _ => if is_upper c then "_" else EmptyString
             | EmptyString => EmptyString
             end +:+ camel_to_snake s.
Proof.
  intros [-> | ->]; destruct s as [|c s]; try reflexivity.
  all: rewrite !app_cons;
    change (EmptyString +:+ String c s) with (String c s);
    rewrite !camel_to_snake_step;
    destruct (is_upper c) eqn:Hc;
    [ rewrite <- (camel_to_snake_upper c s Hc) | ];
    generalize (camel_to_snake (String c s)); intros t; reflexivity.
Qed.

(** X13.  The quantifier in the identifier of an operand type.  The
    identifier of an optional or variable operand is the identifier of
    the mandatory operand with [OPTIONAL_] or [VARIABLE_] put after the
    prefix [SPV_OPERAND_TYPE_], provided that the name of the kind, after
    renaming, starts with an upper-case letter; without the capital
    letter no underscore separates the two words.  Any quantifier but [?] and [*] is read as mandatory. *)
Theorem convert_operand_kind_quantifier (kind : string) :
  let name := rename_fp (rename_kind kind) in
  let separator :=
    match name with
    | String c _ => if is_upper c then "_" else EmptyString
    | EmptyString => EmptyString
    end in
  convert_operand_kind (kind, EmptyString)
  = "SPV_OPERAND_TYPE_" +:+ upper (camel_to_snake name) /\
  convert_operand_kind (kind, "?")
  = "SPV_OPERAND_TYPE_OPTIONAL" +:+ separator +:+ upper (camel_to_snake name) /\
  convert_operand_kind (kind, "*")
  = "SPV_OPERAND_TYPE_VARIABLE" +:+ separator +:+ upper (camel_to_snake name) /\
  (forall quantifier,
      quantifier <> "?" -> quantifier <> "*" ->
      convert_operand_kind (kind, quantifier)
      = convert_operand_kind (kind, EmptyString)).
Proof.
  intros name separator. unfold convert_operand_kind. fold name.
  assert (upper separator = separator) as Hsep.
  { unfold separator. destruct name as [|c s]; [reflexivity|].
    destruct (is_upper c); reflexivity. }
  split; [reflexivity|]. split; [|split].
  - change (quantify "?" name) with ("Optional" +:+ name).
    rewrite (camel_to_snake_quantifier "Optional") by auto.
    fold separator. rewrite !upper_app, Hsep. reflexivity.
  - change (quantify "*" name) with ("Variable" +:+ name).
    rewrite (camel_to_snake_quantifier "Variable") by auto.
    fold separator. rewrite !upper_app, Hsep. reflexivity.
  - intros q H1 H2. unfold quantify.
    destruct (decide (q = "?")); [contradiction|].
    destruct (decide (q = "*")); [contradiction|]. reflexivity.
Qed.

(** ** The name of a vendor instruction set *)

Lemma length_append (s t : string) :
  String.length (s +:+ t) = (String.length s + String.length t)%nat.
Proof.
  induction s as [|c s IH]; [reflexivity|].
  rewrite app_cons. simpl. rewrite IH. reflexivity.
Qed.

Lemma substring_append (s t u : string) :
  String.substring (String.length s) (String.length t) (s +:+ t +:+ u) = t.
Proof.
  induction s as [|c s IH].
  - change (EmptyString +:+ t +:+ u) with (t +:+ u). simpl String.length.
    induction t as [|c t IH]; [destruct u; reflexivity|].
    rewrite app_cons. simpl. rewrite IH. reflexivity.
  - rewrite app_cons. simpl. exact IH.
Qed.

Lemma substring_zero (n : nat) (s : string) :
  String.substring n 0 s = EmptyString.
Proof.
  revert n. induction s as [|c s IH]; intros [|n]; simpl; auto.
Qed.

Lemma substring_drop (n : nat) (s t : string) :
  String.substring n (String.length s - n) (s +:+ t) = drop_chars n s.
Proof.
  revert n. induction s as [|c s IH]; intros n.
  - change (String.length EmptyString - n)%nat with (0 - n)%nat.
    rewrite Nat.sub_0_l, substring_zero. destruct n; reflexivity.
  - rewrite app_cons. destruct n as [|n].
    + simpl String.length. rewrite Nat.sub_0_r. simpl drop_chars.
      simpl. f_equal. specialize (IH 0%nat). rewrite Nat.sub_0_r in IH.
      exact IH.
    + simpl. apply IH.
Qed.

(** X14.  The name of a vendor instruction set is the part of the path
    of its grammar between the first [extinst.] and the last thirteen
    characters, which are not inspected, with every hyphen replaced by an
    underscore.  For a file named [extinst.<name>.grammar.json], in a
    directory whose path does not contain [extinst.], this is [<name>]
    with underscores.  When the path does not contain [extinst.], the
    search answers -1 and the name is what follows the first seven
    characters of the path. *)
Theorem vendor_set_name_of_path (dir name : string) :
  (String.index 0 "extinst." (dir +:+ "extinst." +:+ name +:+ ".grammar.json")
   = Some (String.length dir) ->
   vendor_set_name (dir +:+ "extinst." +:+ name +:+ ".grammar.json")
   = replace_char "-" "_" name) /\
  (String.index 0 "extinst." (name +:+ ".grammar.json") = None ->
   vendor_set_name (name +:+ ".grammar.json")
   = replace_char "-" "_" (drop_chars 7 name)).
Proof.
  split.
  - intros Hi. unfold vendor_set_name. rewrite Hi. f_equal.
    replace (String.length (dir +:+ "extinst." +:+ name +:+ ".grammar.json")
             - 13 - (String.length dir + 8))%nat with (String.length name)
      by (rewrite !length_append; simpl; lia).
    replace (String.length dir + 8)%nat
      with (String.length (dir +:+ "extinst."))
      by (rewrite length_append; reflexivity).
    rewrite <- (app_assoc dir). apply substring_append.
  - intros Hi. unfold vendor_set_name. rewrite Hi. f_equal.
    replace (String.length (name +:+ ".grammar.json") - 13 - 7)%nat
      with (String.length name - 7)%nat
      by (rewrite length_append; simpl; lia).
    apply substring_drop.
Qed.

Lemma vendor_set_name_of_path_witness :
  vendor_set_name "source/extinst.spv-amd-gcn-shader.grammar.json"
  = "spv_amd_gcn_shader" /\
  vendor_set_name "source/spv-amd-gcn-shader.grammar.json"
  = "spv_amd_gcn_shader".
Proof.
  split.
  - apply (proj1 (vendor_set_name_of_path "source/" "spv-amd-gcn-shader")).
    reflexivity.
  - apply (proj2 (vendor_set_name_of_path EmptyString
                    "source/spv-amd-gcn-shader")).
    reflexivity.
Defined.

(** ** The names of the capabilities *)

Lemma filter_filter_comm {A} (p q : A -> bool) l :
  List.filter p (List.filter q l) = List.filter q (List.filter p l).
Proof.
  induction l as [|x l IH]; [reflexivity|]. simpl.
  destruct (q x) eqn:Hq, (p x) eqn:Hp; simpl; rewrite ?Hq, ?Hp, IH; reflexivity.
Qed.

Lemma filter_filter_absorb {A} (p q : A -> bool) l :
  (forall x, p x = true -> q x = true) ->
  List.filter p (List.filter q l) = List.filter p l.
Proof.
  intros Hpq. induction l as [|x l IH]; [reflexivity|]. simpl.
  destruct (q x) eqn:Hq; simpl.
  - destruct (p x); rewrite IH; reflexivity.
  - destruct (p x) eqn:Hp; [|exact IH]. rewrite (Hpq _ Hp) in Hq. discriminate.
Qed.

(** Keeping the first of each value commutes with a selection by value. *)
Lemma first_declared_filter (q : option Value -> bool) l :
  first_declared (List.filter (fun e => q (e_value e)) l)
  = List.filter (fun e => q (e_value e)) (first_declared l).
Proof.
  induction l as [|e l IH]; [reflexivity|]. simpl.
  destruct (q (e_value e)) eqn:Hq; simpl.
  - rewrite IH. f_equal. apply filter_filter_comm.
  - rewrite IH. symmetry. apply filter_filter_absorb.
    intros x Hx. apply negb_true_iff, bool_decide_eq_false. congruence.
Qed.

Lemma filter_not_emitted (caps : list Enumerant) value emitted :
  List.filter (fun c' => negb (bool_decide (e_value c' ∈ value :: emitted))) caps
  = List.filter (fun c' => negb (bool_decide (e_value c' = value)))
      (List.filter (fun c' => negb (bool_decide (e_value c' ∈ emitted))) caps).
Proof.
  induction caps as [|x caps IH]; [reflexivity|]. simpl.
  destruct (bool_decide (e_value x ∈ emitted)) eqn:Ex; simpl.
  - rewrite <- IH.
    rewrite bool_decide_eq_true_2; [reflexivity|].
    right. apply bool_decide_eq_true in Ex. exact Ex.
  - apply bool_decide_eq_false in Ex.
    destruct (bool_decide (e_value x = value)) eqn:Ec; simpl.
    + apply bool_decide_eq_true in Ec.
      rewrite bool_decide_eq_true_2 by (apply elem_of_cons; left; exact Ec).
      simpl. apply IH.
    + apply bool_decide_eq_false in Ec.
      rewrite bool_decide_eq_false_2.
      * simpl. f_equal. apply IH.
      * intros Hin. apply elem_of_cons in Hin as [?|?]; contradiction.
Qed.

Lemma capability_cases_first_declared caps emitted :
  capability_cases caps emitted
  = fold_right (fun c rest => capability_case c +:+ rest) EmptyString
      (first_declared
         (List.filter (fun c => negb (bool_decide (e_value c ∈ emitted))) caps)).
Proof.
  revert emitted. induction caps as [|c caps IH]; intros emitted; [reflexivity|].
  simpl. destruct (bool_decide (e_value c ∈ emitted)) eqn:E; simpl; [apply IH|].
  rewrite IH, filter_not_emitted.
  pose proof (first_declared_filter
                (fun v => negb (bool_decide (v = e_value c)))
                (List.filter (fun c0 => negb (bool_decide (e_value c0 ∈ emitted)))
                             caps)) as Hf.
  cbv beta in Hf. rewrite Hf.
  unfold capability_case. rewrite !app_assoc. reflexivity.
Qed.

Lemma first_declared_elem l c :
  c ∈ first_declared l <->
  exists before after,
    l = before ++ c :: after /\ e_value c ∉ map e_value before.
Proof.
  induction l as [|e l IH]; simpl.
  - split; [intros H; inversion H|].
    intros (before & after & H & _). destruct before; discriminate.
  - rewrite elem_of_cons, list_elem_of_In, filter_In, <- list_elem_of_In, IH.
    rewrite negb_true_iff, bool_decide_eq_false. split.
    + intros [->|[(before & after & -> & Hb) Hne]].
      * exists [], l. split; [reflexivity|]. intros H; inversion H.
      * exists (e :: before), after. split; [reflexivity|].
        simpl. intros Hin. apply elem_of_cons in Hin as [?|?]; contradiction.
    + intros (before & after & Hl & Hb).
      destruct before as [|b before]; simpl in *.
      * left. congruence.
      * injection Hl as <- ->. right. split.
        -- exists before, after. split; [reflexivity|].
           intros Hin. apply Hb. right. exact Hin.
        -- intros He. apply Hb. rewrite He. left.
Qed.

Lemma filter_values (p : Enumerant -> bool) l value :
  value ∈ map e_value (List.filter p l) -> value ∈ map e_value l.
Proof.
  rewrite !list_elem_of_fmap. intros (e & -> & He). exists e. split; [reflexivity|].
  apply list_elem_of_In. apply list_elem_of_In, filter_In in He. tauto.
Qed.

Lemma filter_values_NoDup (p : Enumerant -> bool) l :
  NoDup (map e_value l) -> NoDup (map e_value (List.filter p l)).
Proof.
  induction l as [|e l IH]; simpl; [auto|].
  intros Hnd. apply NoDup_cons in Hnd as [Hn Hnd].
  destruct (p e); simpl; [|auto].
  apply NoDup_cons. split; [|auto].
  intros Hin. apply Hn. eapply filter_values, Hin.
Qed.

Lemma first_declared_values l value :
  value ∈ map e_value (first_declared l) <-> value ∈ map e_value l.
Proof.
  induction l as [|e l IH]; simpl; [reflexivity|].
  rewrite !elem_of_cons, <- IH. split.
  - intros [?|Hin]; [left; assumption|]. right. eapply filter_values, Hin.
  - intros [?|Hin]; [left; assumption|].
    destruct (decide (value = e_value e)) as [?|Hne]; [left; assumption|].
    right. apply list_elem_of_fmap in Hin as (x & -> & Hx).
    apply list_elem_of_fmap. exists x. split; [reflexivity|].
    apply list_elem_of_In, filter_In. split; [apply list_elem_of_In, Hx|].
    apply negb_true_iff, bool_decide_eq_false. exact Hne.
Qed.

Lemma first_declared_NoDup l : NoDup (map e_value (first_declared l)).
Proof.
  induction l as [|e l IH]; simpl; [constructor|].
  apply NoDup_cons. split; [|apply filter_values_NoDup, IH].
  intros Hin. apply list_elem_of_fmap in Hin as (x & Hx & Hin).
  apply list_elem_of_In, filter_In in Hin as [_ Hin].
  apply negb_true_iff, bool_decide_eq_false in Hin. congruence.
Qed.

Lemma filter_all {A} (p : A -> bool) l :
  (forall x, p x = true) -> List.filter p l = l.
Proof.
  intros Hp. induction l as [|x l IH]; [reflexivity|].
  simpl. rewrite Hp, IH. reflexivity.
Qed.

Lemma elem_of_get_capabilities operand_kinds c :
  c ∈ get_capabilities operand_kinds <->
  exists k, k ∈ operand_kinds /\ k_kind k = Some "Capability" /\
            c ∈ get_list (k_enumerants k).
Proof.
  unfold get_capabilities. rewrite list_elem_of_In, in_concat. split.
  - intros (l & Hl & Hc). apply in_map_iff in Hl as (k & <- & Hk).
    apply filter_In in Hk as [Hk Hn]. apply bool_decide_eq_true in Hn.
    apply list_elem_of_singleton in Hn.
    exists k. repeat split; [apply list_elem_of_In, Hk | exact Hn |].
    apply list_elem_of_In, Hc.
  - intros (k & Hk & Hn & Hc). exists (get_list (k_enumerants k)).
    split; [|apply list_elem_of_In, Hc].
    apply in_map_iff. exists k. split; [reflexivity|].
    apply filter_In. split; [apply list_elem_of_In, Hk|].
    apply bool_decide_eq_true, list_elem_of_singleton, Hn.
Qed.

(** X15.  [CapabilityToString] has one case for each value of a
    capability, named after the first enumerant declared with that value
    in an operand kind named [Capability]; a later alias of a value is
    never printed, so that no case label is repeated.  Only the kinds
    named exactly [Capability] are read, whatever their category. *)
Theorem capability_cases_name_the_first_alias (operand_kinds : list OperandKind) :
  let capabilities := get_capabilities operand_kinds in
  let printed := first_declared capabilities in
  capability_cases capabilities []
  = fold_right (fun c rest => capability_case c +:+ rest) EmptyString printed /\
  NoDup (map e_value printed) /\
  (forall value, value ∈ map e_value printed <-> value ∈ map e_value capabilities) /\
  (forall c, c ∈ printed <->
             exists before after,
               capabilities = before ++ c :: after /\
               e_value c ∉ map e_value before) /\
  (forall c, c ∈ capabilities <->
             exists k, k ∈ operand_kinds /\ k_kind k = Some "Capability" /\
                       c ∈ get_list (k_enumerants k)).
Proof.
  intros capabilities printed.
  split; [|split; [apply first_declared_NoDup|
           split; [apply first_declared_values|
           split; [apply first_declared_elem|
                   apply elem_of_get_capabilities]]]].
  rewrite capability_cases_first_declared, filter_all; [reflexivity|].
  intros x. apply negb_true_iff, bool_decide_eq_false. intros H. inversion H.
Qed.

(** ** The extension arrays of the operand kind table *)






(** ** Well-formed grammars are rendered *)

Lemma generate_enum_operand_kind_defined enum exts :
  is_Some (k_kind enum) ->
  Forall (renderable_enumerant (k_category enum)) (get_list (k_enumerants enum)) ->
  exists t exts', generate_enum_operand_kind enum exts = Ok (t, exts').
Proof.
  intros [kind Hk] Hr. unfold generate_enum_operand_kind.
  rewrite Hk, bind_Ok.
  rewrite sort_enumerants_defined
    by (eapply Forall_impl; [exact Hr|]; intros e (_ & Hw & _); exact Hw).
  rewrite bind_Ok. cbv zeta.
  match goal with
  | |- context [rmap ?f ?l] =>
      destruct (rmap_defined f l) as [rows ->]
  end.
  - apply List.Forall_forall. intros e He.
    destruct (generate_enum_operand_kind_entry_defined (k_category enum) e
                (extension_map_fill
                   (sorted_by (numeric_value (k_category enum))
                      (get_list (k_enumerants enum)))
                   (extension_map_init
                      (sorted_by (numeric_value (k_category enum))
                         (get_list (k_enumerants enum)))))) as [d Hd].
    + apply (proj1 (List.Forall_forall _ _) Hr).
      apply list_elem_of_In.
      rewrite <- (sorted_by_perm (numeric_value (k_category enum))).
      apply list_elem_of_In, He.
    + rewrite Hd. eexists. reflexivity.
  - eexists _, _. reflexivity.
Qed.

Lemma generate_enum_operand_kinds_defined enums exts :
  Forall (fun enum =>
            is_Some (k_kind enum) /\
            Forall (renderable_enumerant (k_category enum))
                   (get_list (k_enumerants enum))) enums ->
  exists ts exts',
    generate_enum_operand_kinds enums exts = Ok (ts, exts') /\
    length ts = length enums.
Proof.
  intros Hall. revert exts.
  induction Hall as [|enum enums [Hn Hr] _ IH]; intros exts.
  - exists [], exts. split; reflexivity.
  - cbn [generate_enum_operand_kinds].
    destruct (generate_enum_operand_kind_defined enum exts Hn Hr) as (t & exts1 & ->).
    rewrite bind_Ok. destruct (IH exts1) as (ts & exts2 & -> & Hlen).
    rewrite bind_Ok. exists (t :: ts), exts2. split; [reflexivity|].
    simpl. rewrite Hlen. reflexivity.
Qed.

Lemma generate_operand_kind_table_defined enums :
  Forall (fun k => tabulated k = true ->
                   is_Some (k_kind k) /\
                   Forall (renderable_enumerant (k_category k))
                          (get_list (k_enumerants k))) enums ->
  Exists (fun k => tabulated k = true) enums ->
  exists text, generate_operand_kind_table enums = Ok text.
Proof.
  intros Hwf Hex. unfold generate_operand_kind_table.
  match goal with
  | |- context [generate_enum_operand_kinds ?tab ?exts] =>
      destruct (generate_enum_operand_kinds_defined tab exts)
        as (ts & exts' & -> & Hlen)
  end.
  - apply List.Forall_forall. intros k Hk. apply filter_In in Hk as [Hk Ht].
    apply (proj1 (List.Forall_forall _ _) Hwf k Hk), Ht.
  - rewrite bind_Ok. cbv zeta.
    assert (nonempty (with_optional_enums ts) = true) as ->;
      [|eexists; reflexivity].
    destruct ts as [|t ts]; [|reflexivity].
    exfalso. apply Exists_exists in Hex as (k & Hk & Ht).
    assert (In k (List.filter tabulated enums)) as Hin
      by (apply filter_In; split; [apply list_elem_of_In, Hk | exact Ht]).
    destruct (List.filter tabulated enums); [elim Hin | discriminate].
Qed.

Lemma merge_enumerant_renderable operand_kinds kind category e :
  renderable_enumerant category e ->
  renderable_enumerant category (merge_enumerant operand_kinds kind e).
Proof.
  unfold merge_enumerant. destruct (merge_key kind (e_value e)); [|auto].
  destruct (nonempty _); [|auto].
  unfold renderable_enumerant, well_valued, numeric_value. simpl. auto.
Qed.

Lemma merge_kind_well_formed operand_kinds k :
  well_formed_kind k -> well_formed_kind (merge_kind operand_kinds k).
Proof.
  unfold well_formed_kind, merge_kind, tabulated.
  destruct (k_enumerants k) as [es|] eqn:Ees; [|rewrite Ees; auto].
  simpl. intros [Hn Ht]. split.
  - intros Hne. apply Hn. destruct es; [elim Hne; reflexivity | discriminate].
  - intros Hc. destruct (Ht Hc) as [Hk Hr]. split; [exact Hk|].
    apply Forall_map. eapply Forall_impl; [exact Hr|].
    intros e. apply merge_enumerant_renderable.
Qed.

Lemma prefixed_kind_well_formed prefix k :
  well_formed_kind k -> well_formed_kind (prefixed_kind prefix k).
Proof.
  unfold well_formed_kind, prefixed_kind, tabulated. simpl.
  intros [_ Ht]. split; [eauto|]. intros Hc. split; [eauto | apply Ht, Hc].
Qed.

Lemma main_renders json_loads args fs core dbg cl insts exts kinds
    core_out kinds_out insts_text kinds_text :
  loads json_loads fs (spirv_core_grammar args) core ->
  loads json_loads fs (extinst_debuginfo_grammar args) dbg ->
  loads json_loads fs (extinst_cldebuginfo100_grammar args) cl ->
  check_args args fs = (fs, Done tt) ->
  merge_grammars core dbg cl = Ok (insts, exts, kinds) ->
  core_insts_output args = Some core_out ->
  operand_kinds_output args = Some kinds_out ->
  generate_instruction_table insts = Ok insts_text ->
  generate_operand_kind_table kinds = Ok kinds_text ->
  extinst_glsl_grammar args = None ->
  extinst_opencl_grammar args = None ->
  extinst_vendor_grammar args = None ->
  main json_loads args fs
  = (write_opt (enum_string_mapping_output args)
       (generate_all_string_enum_mappings exts kinds)
       (write_opt (extension_enum_output args) (generate_extension_enum exts)
          (<[kinds_out := kinds_text]> (<[core_out := insts_text]> fs))),
     Done tt).
Proof.
  intros H1 H2 H3 Hc Hm Hco Hko Ht1 Ht2 Hglsl Hopencl Hvendor.
  rewrite (main_checked _ _ _ Hc).
  pose proof (read_grammar_loads _ _ _ _ H1) as Hr1.
  destruct H1 as (p & _ & Hp & _). rewrite Hp, Hglsl, Hopencl, Hvendor.
  unfold mbind at 1, IO_bind at 1. unfold main_core.
  unfold mbind at 1, IO_bind at 1. rewrite Hr1.
  unfold mbind at 1, IO_bind at 1.
  rewrite (read_grammar_loads json_loads fs _ dbg) by exact H2.
  unfold mbind at 1, IO_bind at 1.
  rewrite (read_grammar_loads json_loads fs _ cl) by exact H3.
  unfold mbind at 1, IO_bind at 1. rewrite Hm. simpl lift. cbv iota beta.
  rewrite Hco, Hko.
  unfold make_path_to_file, the_path, write_file, mbind, IO_bind, mret, IO_ret.
  rewrite Ht1, Ht2. rewrite !insert_insert_eq.
  destruct (extension_enum_output args) as [enum_out|];
    destruct (enum_string_mapping_output args) as [mapping_out|];
    simpl; rewrite ?insert_insert_eq; reflexivity.
Qed.

Lemma merge_grammars_defined core dbg cl :
  complete core -> complete dbg -> complete cl ->
  Forall (fun k => is_Some (k_kind k)) (get_list (g_operand_kinds cl)) ->
  Forall kinded_operands (get_list (g_instructions cl)) ->
  Forall (fun k => get_list (k_enumerants k) <> [] -> is_Some (k_kind k))
         (merged_operand_kinds core dbg cl) ->
  (forall item,
      item ∈ split EXTENSIONS_FROM_SPIRV_REGISTRY_AND_NOT_FROM_GRAMMARS ->
      item ∉ declared_extensions (merged_instructions core dbg cl)
                                 (merged_operand_kinds core dbg cl)) ->
  let kinds :=
    get_list (g_operand_kinds core) ++ get_list (g_operand_kinds dbg)
      ++ map (prefixed_kind "CLDEBUG100_") (get_list (g_operand_kinds cl)) in
  exists extensions,
    get_extension_list (merged_instructions core dbg cl)
                       (merged_operand_kinds core dbg cl) = Ok extensions /\
    merge_grammars core dbg cl
    = Ok (get_list (g_instructions core), extensions,
          map (merge_kind kinds) kinds).
Proof.
  intros [[i1 Hi1] [k1 Hk1]] [[i2 Hi2] [k2 Hk2]] [[i3 Hi3] [k3 Hk3]].
  unfold merged_operand_kinds, merged_instructions.
  rewrite Hi1, Hi2, Hi3, Hk1, Hk2, Hk3. simpl get_list.
  intros Hnamed Hkinded Hpre Hfree. cbv zeta.
  set (kinds := k1 ++ k2 ++ map (prefixed_kind "CLDEBUG100_") k3).
  rewrite get_extension_list_defined by exact Hfree.
  eexists. split; [reflexivity|].
  unfold merge_grammars.
  rewrite (prefix_operand_kind_names_named _ _ k3 i3) by assumption.
  rewrite bind_Ok, Hi1, Hi2, Hk1, Hk2. simpl g_instructions. simpl g_operand_kinds.
  change (subscript (Some ?x)) with (Ok x). rewrite !bind_Ok. cbv zeta.
  fold kinds.
  match goal with
  | |- context [get_extension_list ?i kinds] =>
      assert (get_extension_list i kinds
              = get_extension_list (i1 ++ i2 ++ i3) (k1 ++ k2 ++ k3)) as ->
  end.
  { unfold get_extension_list.
    rewrite (declared_extensions_ext _ (i1 ++ i2 ++ i3) _ (k1 ++ k2 ++ k3));
      [reflexivity| |].
    - rewrite !map_app, map_map. reflexivity.
    - unfold kinds. rewrite !map_app, map_map. reflexivity. }
  rewrite get_extension_list_defined by exact Hfree. rewrite bind_Ok.
  destruct (precondition_operand_kinds_defined kinds) as [out Hout].
  - unfold kinds. rewrite !Forall_app in Hpre. rewrite !Forall_app.
    destruct Hpre as (? & ? & _). repeat split; try assumption.
    apply Forall_map, Forall_forall. intros k _ _. simpl. eauto.
  - rewrite Hout, bind_Ok. do 3 f_equal.
    apply precondition_operand_kinds_map, Hout.
Qed.

(** X17.  [main] succeeds on well-formed grammars.  Suppose that the
    arguments pass [check_args], name no grammar of an extended
    instruction set (GLSL, OpenCL, vendor) and request the instruction
    table and the operand kind table, and that the three grammars load
    and have their [instructions] and [operand_kinds] members.  When
    every instruction of the core grammar has an opcode, operands that
    have their kinds and a name that starts with [Op] (and operands if it
    is [OpExtInst]), every operand kind with enumerants has a name,
    every enumeration has enumerants that can be rendered, there is at
    least one enumeration, the kinds of the OpenCL debug-information
    grammar are named and the operands of its instructions have their
    kinds, and no supplementary extension is declared, then the two
    tables are rendered and [main] ends normally, having written the
    instruction table, the operand kind table and then the extension
    enumeration and the string mappings if they are requested, and
    nothing else. *)
Theorem main_generates_the_tables (json_loads : string -> result Grammar)
    (args : Args) (fs : files) (core dbg cl : Grammar)
    (core_out kinds_out : string) :
  loads json_loads fs (spirv_core_grammar args) core ->
  loads json_loads fs (extinst_debuginfo_grammar args) dbg ->
  loads json_loads fs (extinst_cldebuginfo100_grammar args) cl ->
  check_args args fs = (fs, Done tt) ->
  core_insts_output args = Some core_out ->
  operand_kinds_output args = Some kinds_out ->
  extinst_glsl_grammar args = None ->
  extinst_opencl_grammar args = None ->
  extinst_vendor_grammar args = None ->
  complete core -> complete dbg -> complete cl ->
  Forall (fun i => is_Some (i_opcode i) /\ renderable_instruction i)
         (get_list (g_instructions core)) ->
  Forall well_formed_kind (merged_operand_kinds core dbg cl) ->
  Exists (fun k => tabulated k = true) (merged_operand_kinds core dbg cl) ->
  Forall (fun k => is_Some (k_kind k)) (get_list (g_operand_kinds cl)) ->
  Forall kinded_operands (get_list (g_instructions cl)) ->
  (forall item,
      item ∈ split EXTENSIONS_FROM_SPIRV_REGISTRY_AND_NOT_FROM_GRAMMARS ->
      item ∉ declared_extensions (merged_instructions core dbg cl)
                                 (merged_operand_kinds core dbg cl)) ->
  exists insts_text kinds_text extensions operand_kinds,
    generate_instruction_table (get_list (g_instructions core)) = Ok insts_text /\
    get_extension_list (merged_instructions core dbg cl)
                       (merged_operand_kinds core dbg cl) = Ok extensions /\
    precondition_operand_kinds
      (get_list (g_operand_kinds core) ++ get_list (g_operand_kinds dbg)
         ++ map (prefixed_kind "CLDEBUG100_") (get_list (g_operand_kinds cl)))
    = Ok operand_kinds /\
    generate_operand_kind_table operand_kinds = Ok kinds_text /\
    main json_loads args fs
    = (write_opt (enum_string_mapping_output args)
         (generate_all_string_enum_mappings extensions operand_kinds)
         (write_opt (extension_enum_output args)
            (generate_extension_enum extensions)
            (<[kinds_out := kinds_text]> (<[core_out := insts_text]> fs))),
       Done tt).
Proof.
  intros H1 H2 H3 Hc Hco Hko Hglsl Hopencl Hvendor Hc1 Hc2 Hc3
    Hinsts Hkinds Henum Hnamed Hkinded Hfree.
  destruct (merge_grammars_defined core dbg cl Hc1 Hc2 Hc3 Hnamed Hkinded)
    as (extensions & Hext & Hm).
  { eapply Forall_impl; [exact Hkinds|]. intros k [Hk _]. exact Hk. }
  { exact Hfree. }
  cbv zeta in Hm.
  set (kinds := get_list (g_operand_kinds core) ++ get_list (g_operand_kinds dbg)
                  ++ map (prefixed_kind "CLDEBUG100_") (get_list (g_operand_kinds cl)))
    in Hm.
  assert (Forall well_formed_kind kinds) as Hwf.
  { unfold kinds, merged_operand_kinds in *. rewrite !Forall_app in Hkinds.
    rewrite !Forall_app. destruct Hkinds as (? & ? & Hcl).
    repeat split; try assumption.
    apply Forall_map. eapply Forall_impl; [exact Hcl|].
    intros k. apply prefixed_kind_well_formed. }
  assert (Exists (fun k => tabulated k = true) kinds) as Hex.
  { unfold kinds, merged_operand_kinds in *. rewrite !Exists_app in Henum.
    rewrite !Exists_app. destruct Henum as [?|[?|Hcl]]; auto.
    right. right. apply Exists_exists in Hcl as (k & Hk & Ht).
    apply Exists_exists. exists (prefixed_kind "CLDEBUG100_" k).
    split; [apply list_elem_of_fmap; eauto | exact Ht]. }
  destruct (generate_operand_kind_table_defined (map (merge_kind kinds) kinds))
    as [kinds_text Hkt].
  { apply Forall_map. eapply Forall_impl; [exact Hwf|].
    intros k Hk. apply (merge_kind_well_formed kinds k Hk). }
  { apply Exists_exists in Hex as (k & Hk & Ht).
    apply Exists_exists. exists (merge_kind kinds k).
    split; [apply list_elem_of_fmap; eauto|].
    unfold merge_kind, tabulated in *. destruct (k_enumerants k); exact Ht. }
  destruct (generate_instruction_table_defined (get_list (g_instructions core)))
    as (rows & _ & Hit).
  { eapply Forall_impl; [exact Hinsts|]. intros i [Ho Hr].
    split; [exact Ho | apply renderable_instruction_ok, Hr]. }
  exists (instruction_table_text
            (sorted_by inst_key (get_list (g_instructions core))) rows),
    kinds_text, extensions, (map (merge_kind kinds) kinds).
  split; [exact Hit|]. split.
  - exact Hext.
  - split; [|split].
    2: exact Hkt.
    2: eapply main_renders; eassumption.
    fold kinds. destruct (precondition_operand_kinds_defined kinds) as [out Hout].
    + eapply Forall_impl; [exact Hwf|]. intros k [Hk _]. exact Hk.
    + rewrite Hout. f_equal. apply precondition_operand_kinds_map, Hout.
Qed.

Lemma main_generates_the_tables_witness :
  (main (ex_json_loads ex_core) ex_args_all ex_files).2 = Done tt /\
  (main (ex_json_loads ex_core) ex_args_all ex_files).1 !! "core.inc"
  = Some ex_nop_table /\
  is_Some ((main (ex_json_loads ex_core) ex_args_all ex_files).1
             !! "extension_enum.inc").
Proof.
  destruct (main_generates_the_tables (ex_json_loads ex_core) ex_args_all
              ex_files ex_core ex_empty_grammar ex_empty_grammar
              "core.inc" "kinds.inc")
    as (insts_text & kinds_text & extensions & operand_kinds
        & Hit & _ & _ & _ & ->).
  - exists "core.json", "core". repeat split; reflexivity.
  - exists "debuginfo.json", "debuginfo". repeat split; reflexivity.
  - exists "cldebuginfo.json", "cldebuginfo". repeat split; reflexivity.
  - reflexivity.
  - reflexivity.
  - reflexivity.
  - reflexivity.
  - reflexivity.
  - reflexivity.
  - split; eexists; reflexivity.
  - split; eexists; reflexivity.
  - split; eexists; reflexivity.
  - apply List.Forall_cons; [|apply List.Forall_nil].
    split; [eexists; reflexivity|]. split; [apply List.Forall_nil|].
    exists "OpNop". split; [reflexivity|]. split; [reflexivity | discriminate].
  - repeat constructor; try (eexists; reflexivity).
  - repeat constructor.
  - constructor.
  - constructor.
  - intros item _ Hin. inversion Hin.
  - split; [reflexivity|]. split.
    + assert (Ok insts_text = Ok ex_nop_table) as [= ->]
        by (rewrite <- Hit; vm_compute; reflexivity).
      simpl. rewrite !lookup_insert_ne by discriminate.
      rewrite lookup_insert_eq. reflexivity.
    + simpl. rewrite lookup_insert_ne by discriminate.
      rewrite lookup_insert_eq. eexists. reflexivity.
Defined.

(** ** The operand kind table *)

(** X18.  When the operand kind table is rendered.  Without a value or
    bit enumeration among the kinds, [generate_operand_kind_table] fails
    with [ValueError]: the three columns of the table cannot be unpacked
    from an empty list.  With at least one, it is rendered as soon as
    every enumeration has a name and enumerants that can be rendered. *)
Theorem generate_operand_kind_table_rendered (enums : list OperandKind) :
  (Forall (fun e => tabulated e = false) enums ->
   generate_operand_kind_table enums = Raise ValueError) /\
  (Forall (fun e => tabulated e = true ->
                    is_Some (k_kind e) /\
                    Forall (renderable_enumerant (k_category e))
                           (get_list (k_enumerants e))) enums ->
   Exists (fun e => tabulated e = true) enums ->
   is_ok (generate_operand_kind_table enums) = true).
Proof.
  split.
  - intros Hnone. unfold generate_operand_kind_table.
    assert (List.filter tabulated enums = []) as ->; [|reflexivity].
    induction Hnone as [|e l He _ IH]; [reflexivity|].
    simpl. rewrite He. exact IH.
  - intros Hwf Hex.
    destruct (generate_operand_kind_table_defined enums Hwf Hex) as [text ->].
    reflexivity.
Qed.

Lemma length_with_optional_enums enums :
  length (with_optional_enums enums)
  = (length enums + length (List.filter is_optional_enum enums))%nat.
Proof. unfold with_optional_enums. rewrite length_app. reflexivity. Qed.

(** X19.  The layout of the operand kind table.  The last three of the
    rendered kinds, duplicates included, are dropped from the arrays that
    are emitted and get the optional identifier, whatever they are.
    Hence every array is emitted once, and every kind has its mandatory
    row, exactly when three of the rendered kinds are named
    [ImageOperands], [AccessQualifier] or [MemoryAccess]; the table then
    ends with their three optional rows. *)
Theorem kind_table_layout (enums : list (string * string * string)) :
  enums <> [] ->
  let matching := List.filter is_optional_enum enums in
  length (emitted_entries (with_optional_enums enums))
  = (length enums + length matching - 3)%nat /\
  length (kind_table_rows (with_optional_enums enums))
  = (length enums + length matching)%nat /\
  (emitted_entries (with_optional_enums enums) = map snd enums <->
   length matching = 3%nat) /\
  (length matching = 3%nat ->
   kind_table_rows (with_optional_enums enums)
   = map (row_of EmptyString) enums ++ map (row_of "?") matching).
Proof.
  intros Hne matching.
  assert (length (emitted_entries (with_optional_enums enums))
          = (length enums + length matching - 3)%nat) as Hlen.
  { unfold emitted_entries. rewrite length_take, length_map.
    rewrite length_with_optional_enums. fold matching. lia. }
  split; [exact Hlen|]. split; [|split].
  - unfold kind_table_rows, zip3. cbv zeta.
    repeat rewrite ?length_zip_with, ?length_map, ?length_app, ?length_replicate.
    rewrite length_with_optional_enums. fold matching. lia.
  - split.
    + intros He. rewrite He, length_map in Hlen.
      destruct enums; [contradiction|]. simpl in Hlen. lia.
    + intros H3. apply kind_table_with_three_optional_kinds, H3.
  - intros H3. apply kind_table_with_three_optional_kinds, H3.
Qed.

Lemma kind_table_layout_witness :
  length (emitted_entries
            (with_optional_enums [("Dim", "DimEntries", "entries")])) = 0%nat.
Proof.
  destruct (kind_table_layout [("Dim", "DimEntries", "entries")]) as [H _].
  - discriminate.
  - exact H.
Defined.

(** ** When an enumerant can be rendered *)

Lemma convert_parameters_raise (ps : list Param) :
  Exists (fun p => p_kind p = None) ps ->
  rmap convert_parameter
       (zip (map p_kind ps) (replicate (length (map p_kind ps)) EmptyString))
  = Raise TypeError.
Proof.
  intros He. rewrite length_map.
  induction ps as [|p ps IH]; [inversion He|].
  change (rmap convert_parameter
            (zip (map p_kind (p :: ps)) (replicate (length (p :: ps)) EmptyString)))
    with (y ← convert_parameter (p_kind p, EmptyString);
          ys ← rmap convert_parameter
                 (zip (map p_kind ps) (replicate (length ps) EmptyString));
          Ok (y :: ys)).
  destruct (p_kind p) as [kind|] eqn:Ek; [|reflexivity].
  change (convert_parameter (Some kind, EmptyString))
    with (Ok (convert_operand_kind (kind, EmptyString))).
  rewrite bind_Ok, IH; [reflexivity|].
  inversion He; [congruence | assumption].
Qed.

(** X20.  When [generate_enum_operand_kind_entry] fails.  An enumerant
    without a name or without a value fails the assertion, before
    anything is converted.  An enumerant with both fails with
    [TypeError] when one of its parameters has no kind, and is rendered
    in every other case, whatever its value and whatever the extension
    map holds. *)
Theorem generate_enum_operand_kind_entry_errors (entry : Enumerant)
    (extension_map : list (option Value * list string)) :
  (e_enumerant entry = None \/ e_value entry = None ->
   generate_enum_operand_kind_entry entry extension_map = Raise AssertionError) /\
  (is_Some (e_enumerant entry) -> is_Some (e_value entry) ->
   (Exists (fun p => p_kind p = None) (get_list (e_parameters entry)) ->
    generate_enum_operand_kind_entry entry extension_map = Raise TypeError) /\
   (Forall (fun p => is_Some (p_kind p)) (get_list (e_parameters entry)) ->
    is_ok (generate_enum_operand_kind_entry entry extension_map) = true)).
Proof.
  unfold generate_enum_operand_kind_entry, EnumerantInitializer_init. split.
  - intros [Hn|Hv]; [rewrite Hn; reflexivity|].
    rewrite Hv. destruct (e_enumerant entry); reflexivity.
  - intros [name ->] [value ->]. split.
    + intros He. rewrite (convert_parameters_raise _ He). reflexivity.
    + intros Hall. destruct (convert_parameters_defined _ Hall) as [ys ->].
      reflexivity.
Qed.

(** ** The table of an extended instruction set, from [main] *)

Lemma main_extinst_loads json_loads fs path g out set_name prefix :
  loads json_loads fs path g ->
  main_extinst json_loads path (Some out) set_name prefix fs
  = write_file out (generate_extended_instruction_table g set_name prefix) fs.
Proof.
  intros Hl. pose proof (read_grammar_loads _ _ _ _ Hl) as Hr.
  destruct Hl as (p & text & -> & _). unfold main_extinst.
  unfold mbind at 1, IO_bind at 1. rewrite Hr. reflexivity.
Qed.

(** X21.  An extended instruction set needs no core grammar.  With the
    GLSL grammar and its output alone, [main] writes the table of the set
    [glsl], rendered without prefix, to the output and ends normally;
    when the table cannot be rendered, the output file is left created
    and empty. *)
Theorem main_generates_an_extended_table (json_loads : string -> result Grammar)
    (args : Args) (fs : files) (grammar : Grammar) (out : string) :
  spirv_core_grammar args = None ->
  loads json_loads fs (extinst_glsl_grammar args) grammar ->
  glsl_insts_output args = Some out ->
  extinst_opencl_grammar args = None ->
  extinst_vendor_grammar args = None ->
  check_args args fs = (fs, Done tt) ->
  match generate_extended_instruction_table grammar "glsl" (Some EmptyString) with
  | Ok text => main json_loads args fs = (<[out := text]> fs, Done tt)
  | Raise e =>
      main json_loads args fs = (<[out := EmptyString]> fs, Abort (PyExn e))
  end.
Proof.
  intros Hcore Hglsl Hout Hopencl Hvendor Hc.
  rewrite (main_checked _ _ _ Hc), Hcore, Hopencl, Hvendor, Hout.
  unfold mbind, IO_bind, mret, IO_ret. cbv beta iota.
  rewrite (main_extinst_loads _ _ _ grammar) by exact Hglsl.
  unfold write_file.
  destruct (generate_extended_instruction_table grammar "glsl" (Some EmptyString));
    simpl; rewrite ?insert_insert_eq; reflexivity.
Qed.

Lemma main_generates_an_extended_table_witness :
  main (ex_json_loads ex_glsl) ex_args_glsl ex_glsl_files
  = (<["glsl.insts.inc" := ex_ext_instructions_text]> ex_glsl_files, Done tt).
Proof.
  pose proof (main_generates_an_extended_table (ex_json_loads ex_glsl)
                ex_args_glsl ex_glsl_files ex_glsl "glsl.insts.inc") as H.
  assert (generate_extended_instruction_table ex_glsl "glsl" (Some EmptyString)
          = Ok ex_ext_instructions_text)
    as Ht by (vm_compute; reflexivity).
  rewrite Ht in H. apply H; try reflexivity.
  exists "extinst.glsl.std.450.grammar.json", "core". repeat split; reflexivity.
Defined.
